(** * tracedb / unitdb storage engine: a shallow embedding and its properties

    The development follows the Go sources package by package:

    - [Bytes]   : byte buffers and [encoding/binary]'s little-endian codec;
    - [wal]     : the log-info record and the WAL file header (wal/header.go);
    - [memdb]   : the sharded in-memory block cache (memdb/memdb.go);
    - [window]  : window blocks, the time-window bucket and the window
                  writer (package unitdb, time-window file);
    - [trie]    : the topic trie (package unitdb, trie file);
    - [syncer]  : the sync handle (package tracedb, sync file);
    - [Examples]: concrete databases, files and tries to run the model on.

    The properties of the specification come last, each with a run of it
    on a concrete input.

    Machine integers are [Z] with their wrap-around written out, byte
    slices are [list byte], Go maps are [gmap], and a call that may fail
    returns a [res]: a value, an error, or a panic (index out of range). *)

From Stdlib Require Import ZArith Lia List Bool.
From stdpp Require Import gmap list.
From coqutil Require Import Byte Word.LittleEndianList.

Local Open Scope Z_scope.

(* ===================================================================== *)
(** * Results of fallible Go code                                         *)
(* ===================================================================== *)

(** The error values that the modelled code tells apart. *)
Inductive error : Type :=
| io_EOF                       (* io.EOF *)
| ErrEntryDeleted              (* errors.New("entry deleted") *)
| ErrIO (code : nat).          (* any other error of a collaborator *)

(** A call returns a value, returns a non-nil error, or panics. *)
Inductive res (A : Type) : Type :=
| Ok (a : A)
| Err (e : error)
| Panic.
Arguments Ok {A} a.
Arguments Err {A} e.
Arguments Panic {A}.

(** [err != nil]. *)
Definition notNil (err : option error) : bool :=
  match err with Some _ => true | None => false end.

Definition bind {A B} (r : res A) (k : A -> res B) : res B :=
  match r with
  | Ok a => k a
  | Err e => Err e
  | Panic => Panic
  end.

(** [s[lo:hi]] on a slice whose capacity is its length: panics unless
    [0 <= lo <= hi <= len s]. *)
Definition slice {A} (s : list A) (lo hi : Z) : res (list A) :=
  if (0 <=? lo) && (lo <=? hi) && (hi <=? Z.of_nat (length s))
  then Ok (take (Z.to_nat (hi - lo)) (drop (Z.to_nat lo) s))
  else Panic.

(* ===================================================================== *)
(** * Bytes: slices and the little-endian codec                           *)
(* ===================================================================== *)

Module Bytes.

(** Ranges of Go's fixed-width integer types. *)
Definition uint8 (x : Z) : Prop := 0 <= x < 2 ^ 8.
Definition uint16 (x : Z) : Prop := 0 <= x < 2 ^ 16.
Definition uint32 (x : Z) : Prop := 0 <= x < 2 ^ 32.
Definition uint64 (x : Z) : Prop := 0 <= x < 2 ^ 64.
Definition int32 (x : Z) : Prop := - 2 ^ 31 <= x < 2 ^ 31.
Definition int64 (x : Z) : Prop := - 2 ^ 63 <= x < 2 ^ 63.

(** Go conversions between integer types: truncation to the width, then
    reinterpretation of the sign bit. *)
Definition toUint16 (x : Z) : Z := x mod 2 ^ 16.
Definition toUint32 (x : Z) : Z := x mod 2 ^ 32.
Definition toUint64 (x : Z) : Z := x mod 2 ^ 64.
Definition toInt32 (x : Z) : Z := (x + 2 ^ 31) mod 2 ^ 32 - 2 ^ 31.
Definition toInt64 (x : Z) : Z := (x + 2 ^ 63) mod 2 ^ 64 - 2 ^ 63.

(** [make([]byte, n)]: [n] zero bytes. *)
Definition make (n : nat) : list byte := repeat Byte.x00 n.

(** [buf[lo:hi]] read as a value. *)
Definition sub (buf : list byte) (lo hi : nat) : list byte :=
  take (hi - lo) (drop lo buf).

(** Writing [bs] into [buf] starting at index [lo], as the
    [binary.LittleEndian.PutUintN(buf[lo:lo+N], v)] calls and [copy] do. *)
Definition put (buf : list byte) (lo : nat) (bs : list byte) : list byte :=
  take lo buf ++ bs ++ drop (lo + length bs) buf.

(** [binary.LittleEndian]. *)
Definition PutUint16 (v : Z) : list byte := le_split 2 v.
Definition PutUint32 (v : Z) : list byte := le_split 4 v.
Definition PutUint64 (v : Z) : list byte := le_split 8 v.
Definition Uint16 (b : list byte) : Z := le_combine (take 2 b).
Definition Uint32 (b : list byte) : Z := le_combine (take 4 b).
Definition Uint64 (b : list byte) : Z := le_combine (take 8 b).

Lemma length_make n : length (make n) = n.
Proof. apply repeat_length. Qed.

Lemma length_put buf lo bs :
  (lo + length bs <= length buf)%nat -> length (put buf lo bs) = length buf.
Proof.
  intros H. unfold put.
  rewrite !length_app, length_take, length_drop. lia.
Qed.

(** Reading back the range that was just written. *)
Lemma sub_put_same buf lo bs hi :
  (lo + length bs <= length buf)%nat -> hi = (lo + length bs)%nat ->
  sub (put buf lo bs) lo hi = bs.
Proof.
  intros H ->. unfold sub, put.
  rewrite drop_app_length' by (rewrite length_take; lia).
  replace (lo + length bs - lo)%nat with (length bs) by lia.
  apply take_app_length.
Qed.

(** A write does not disturb a range that lies entirely before it... *)
Lemma sub_put_before buf lo bs a b :
  (b <= lo)%nat -> (lo + length bs <= length buf)%nat ->
  sub (put buf lo bs) a b = sub buf a b.
Proof.
  intros Hb H. unfold sub, put.
  destruct (decide (a <= b)%nat) as [Hab|Hab].
  - assert (Hpre : forall rest,
               take (b - a) (drop a (take lo buf ++ rest))
               = take (b - a) (drop a (take lo buf))).
    { intros rest.
      rewrite drop_app_le by (rewrite length_take; lia).
      apply take_app_le. rewrite length_drop, length_take. lia. }
    rewrite Hpre, <- (Hpre (drop lo buf)). by rewrite take_drop.
  - replace (b - a)%nat with 0%nat by lia. done.
Qed.

(** ... or entirely after it. *)
Lemma sub_put_after buf lo bs a b :
  (lo + length bs <= a)%nat -> (lo + length bs <= length buf)%nat ->
  sub (put buf lo bs) a b = sub buf a b.
Proof.
  intros Ha H. unfold sub, put. f_equal.
  rewrite app_assoc.
  rewrite drop_app_ge by (rewrite length_app, length_take; lia).
  rewrite length_app, length_take, drop_drop. f_equal. lia.
Qed.

Lemma Uint16_Put v : uint16 v -> Uint16 (PutUint16 v) = v.
Proof.
  intros H. unfold Uint16, PutUint16.
  rewrite firstn_all2 by (rewrite length_le_split; lia).
  rewrite le_combine_split. apply Z.mod_small. exact H.
Qed.

Lemma Uint32_Put v : uint32 v -> Uint32 (PutUint32 v) = v.
Proof.
  intros H. unfold Uint32, PutUint32.
  rewrite firstn_all2 by (rewrite length_le_split; lia).
  rewrite le_combine_split. apply Z.mod_small. exact H.
Qed.

Lemma Uint64_Put v : uint64 v -> Uint64 (PutUint64 v) = v.
Proof.
  intros H. unfold Uint64, PutUint64.
  rewrite firstn_all2 by (rewrite length_le_split; lia).
  rewrite le_combine_split. apply Z.mod_small. exact H.
Qed.

Lemma toUint64_range x : uint64 (toUint64 x).
Proof. unfold uint64, toUint64. apply Z.mod_pos_bound. lia. Qed.

(** [int64(uint64(x)) = x] for every [int64] value. *)
Lemma toInt64_toUint64 x : int64 x -> toInt64 (toUint64 x) = x.
Proof.
  unfold int64, toInt64, toUint64. intros H.
  rewrite Zplus_mod_idemp_l. rewrite Z.mod_small; lia.
Qed.

Lemma Uint64_Put_int64 x : int64 x -> toInt64 (Uint64 (PutUint64 (toUint64 x))) = x.
Proof.
  intros H. rewrite Uint64_Put by apply toUint64_range.
  by apply toInt64_toUint64.
Qed.

Lemma length_PutUint16 v : length (PutUint16 v) = 2%nat.
Proof. apply length_le_split. Qed.
Lemma length_PutUint32 v : length (PutUint32 v) = 4%nat.
Proof. apply length_le_split. Qed.
Lemma length_PutUint64 v : length (PutUint64 v) = 8%nat.
Proof. apply length_le_split. Qed.

(** Wrap-around of sums. *)
Lemma toInt64_add_l a b : toInt64 (toInt64 a + b) = toInt64 (a + b).
Proof.
  unfold toInt64.
  replace ((a + 2 ^ 63) mod 2 ^ 64 - 2 ^ 63 + b + 2 ^ 63)
    with ((a + 2 ^ 63) mod 2 ^ 64 + b) by lia.
  rewrite Zplus_mod_idemp_l. do 2 f_equal. lia.
Qed.

Lemma toUint64_toInt64 a : toUint64 (toInt64 a) = toUint64 a.
Proof.
  unfold toUint64, toInt64.
  rewrite Zminus_mod_idemp_l. f_equal. lia.
Qed.

Lemma toUint64_add_l a b : toUint64 (toUint64 a + b) = toUint64 (a + b).
Proof. unfold toUint64. by rewrite Zplus_mod_idemp_l. Qed.

(** Writing back what was read. *)
Lemma le_combine_range (b : list byte) (k : nat) :
  (length b <= k)%nat -> 0 <= le_combine b < 2 ^ (8 * Z.of_nat k).
Proof.
  intros H. pose proof (le_combine_bound b) as Hb.
  assert (2 ^ (8 * Z.of_nat (length b)) <= 2 ^ (8 * Z.of_nat k))
    by (apply Z.pow_le_mono_r; lia).
  lia.
Qed.

Lemma Uint16_range b : uint16 (Uint16 b).
Proof.
  unfold uint16, Uint16. apply (le_combine_range _ 2). rewrite length_take. lia.
Qed.

Lemma Uint32_range b : uint32 (Uint32 b).
Proof.
  unfold uint32, Uint32. apply (le_combine_range _ 4). rewrite length_take. lia.
Qed.

Lemma Uint64_range b : uint64 (Uint64 b).
Proof.
  unfold uint64, Uint64. apply (le_combine_range _ 8). rewrite length_take. lia.
Qed.

Lemma PutUint16_Uint16 b : length b = 2%nat -> PutUint16 (Uint16 b) = b.
Proof.
  intros H. unfold PutUint16, Uint16. rewrite firstn_all2 by lia.
  pose proof (split_le_combine b) as E. by rewrite H in E.
Qed.

Lemma PutUint32_Uint32 b : length b = 4%nat -> PutUint32 (Uint32 b) = b.
Proof.
  intros H. unfold PutUint32, Uint32. rewrite firstn_all2 by lia.
  pose proof (split_le_combine b) as E. by rewrite H in E.
Qed.

Lemma PutUint64_Uint64 b : length b = 8%nat -> PutUint64 (Uint64 b) = b.
Proof.
  intros H. unfold PutUint64, Uint64. rewrite firstn_all2 by lia.
  pose proof (split_le_combine b) as E. by rewrite H in E.
Qed.

(** [uint64(int64(x)) = x] for every [uint64] value. *)
Lemma PutUint64_int64 b :
  length b = 8%nat -> PutUint64 (toUint64 (toInt64 (Uint64 b))) = b.
Proof.
  intros H. rewrite toUint64_toInt64. unfold toUint64.
  rewrite Z.mod_small by apply Uint64_range. by apply PutUint64_Uint64.
Qed.

Lemma length_sub buf lo hi :
  (hi <= length buf)%nat -> length (sub buf lo hi) = (hi - lo)%nat.
Proof. intros H. unfold sub. rewrite length_take, length_drop. lia. Qed.

(** Two adjacent ranges make one. *)
Lemma sub_app buf lo mid hi :
  (lo <= mid <= hi)%nat -> sub buf lo mid ++ sub buf mid hi = sub buf lo hi.
Proof.
  intros H. unfold sub.
  replace (drop mid buf) with (drop (mid - lo) (drop lo buf))
    by (rewrite drop_drop; f_equal; lia).
  rewrite take_take_drop. f_equal. lia.
Qed.

Lemma sub_app_r buf lo mid hi (rest : list byte) :
  (lo <= mid <= hi)%nat ->
  sub buf lo mid ++ sub buf mid hi ++ rest = sub buf lo hi ++ rest.
Proof. intros H. by rewrite app_assoc, sub_app. Qed.

(** Overwriting the middle of a three-part buffer. *)
Lemma put_over (pre old post bs : list byte) (lo : nat) :
  lo = length pre -> length old = length bs ->
  put (pre ++ old ++ post) lo bs = pre ++ bs ++ post.
Proof.
  intros -> Hl. unfold put.
  rewrite take_app_length, drop_app_add, <- Hl, drop_app_length. done.
Qed.

End Bytes.

(* ===================================================================== *)
(** * wal: log-info records and the WAL header (wal/header.go)            *)
(* ===================================================================== *)

Module wal.
Import Bytes.

(** [signature], [logHeaderSize] and [headerSize]. *)
Definition signature : list byte :=
  [Byte.x74; Byte.x72; Byte.x61; Byte.x63; Byte.x65; Byte.x64; Byte.x62; Byte.xfd].
Definition logHeaderSize : nat := 32.
Definition headerSize : nat := 70.

(** [logInfo]; [status] is a [LogStatus], a [uint16]. The trailing
    anonymous padding field carries no data. *)
Record logInfo := {
  li_version : Z;      (* uint16 *)
  li_status : Z;       (* LogStatus, uint16 *)
  li_entryCount : Z;   (* uint32 *)
  li_seq : Z;          (* uint64 *)
  li_size : Z;         (* int64 *)
  li_offset : Z        (* int64 *)
}.

Definition logInfo_wf (l : logInfo) : Prop :=
  uint16 (li_version l) /\ uint16 (li_status l) /\ uint32 (li_entryCount l) /\
  uint64 (li_seq l) /\ int64 (li_size l) /\ int64 (li_offset l).

(** [logInfo.MarshalBinary]; its error result is always nil. *)
Definition logInfo_MarshalBinary (l : logInfo) : list byte :=
  let buf := make logHeaderSize in
  let buf := put buf 0 (PutUint16 (li_version l)) in
  let buf := put buf 2 (PutUint16 (toUint16 (li_status l))) in
  let buf := put buf 4 (PutUint32 (li_entryCount l)) in
  let buf := put buf 8 (PutUint64 (li_seq l)) in
  let buf := put buf 16 (PutUint64 (toUint64 (li_size l))) in
  let buf := put buf 24 (PutUint64 (toUint64 (li_offset l))) in
  buf.

(** [logInfo.UnmarshalBinary]: every field of the receiver is overwritten.
    The largest index sliced is [data[24:32]]; a shorter slice panics. *)
Definition logInfo_UnmarshalBinary (data : list byte) : res logInfo :=
  if (length data <? 32)%nat then Panic
  else Ok {|
    li_version := Uint16 (sub data 0 2);
    li_status := Uint16 (sub data 2 4);
    li_entryCount := Uint32 (sub data 4 8);
    li_seq := Uint64 (sub data 8 16);
    li_size := toInt64 (Uint64 (sub data 16 24));
    li_offset := toInt64 (Uint64 (sub data 24 32)) |}.

(** A free block of the log file and the header's table of three. *)
Record freeBlock := { fb_size : Z; fb_offset : Z }.   (* int64, int64 *)

Definition freeBlock_wf (b : freeBlock) : Prop :=
  int64 (fb_size b) /\ int64 (fb_offset b).

(** [header]: [fb] is the embedded array [fb[0..2]]. *)
Record header := {
  h_signature : list byte;   (* [8]byte *)
  h_version : Z;             (* uint32 *)
  h_seq : Z;                 (* uint64 *)
  h_fb0 : freeBlock;
  h_fb1 : freeBlock;
  h_fb2 : freeBlock
}.

Definition header_wf (h : header) : Prop :=
  length (h_signature h) = 8%nat /\ uint32 (h_version h) /\ uint64 (h_seq h) /\
  freeBlock_wf (h_fb0 h) /\ freeBlock_wf (h_fb1 h) /\ freeBlock_wf (h_fb2 h).

(** [header.MarshalBinary]. [copy] moves [min(len dst, len src)] bytes. *)
Definition header_MarshalBinary (h : header) : list byte :=
  let buf := make headerSize in
  let buf := put buf 0 (take 8 (h_signature h)) in
  let buf := put buf 8 (PutUint32 (h_version h)) in
  let buf := put buf 12 (PutUint64 (h_seq h)) in
  let buf := put buf 20 (PutUint64 (toUint64 (fb_size (h_fb0 h)))) in
  let buf := put buf 28 (PutUint64 (toUint64 (fb_offset (h_fb0 h)))) in
  let buf := put buf 36 (PutUint64 (toUint64 (fb_size (h_fb1 h)))) in
  let buf := put buf 44 (PutUint64 (toUint64 (fb_offset (h_fb1 h)))) in
  let buf := put buf 52 (PutUint64 (toUint64 (fb_size (h_fb2 h)))) in
  let buf := put buf 60 (PutUint64 (toUint64 (fb_offset (h_fb2 h)))) in
  buf.

(** [header.UnmarshalBinary]; the largest index sliced is [data[60:68]]. *)
Definition header_UnmarshalBinary (data : list byte) : res header :=
  if (length data <? 68)%nat then Panic
  else Ok {|
    h_signature := sub data 0 8;
    h_version := Uint32 (sub data 8 12);
    h_seq := Uint64 (sub data 12 20);
    h_fb0 := {| fb_size := toInt64 (Uint64 (sub data 20 28));
                fb_offset := toInt64 (Uint64 (sub data 28 36)) |};
    h_fb1 := {| fb_size := toInt64 (Uint64 (sub data 36 44));
                fb_offset := toInt64 (Uint64 (sub data 44 52)) |};
    h_fb2 := {| fb_size := toInt64 (Uint64 (sub data 52 60));
                fb_offset := toInt64 (Uint64 (sub data 60 68)) |} |}.

(** ** The log writer *)

(** [Writer], as far as [append], [Append], [writeLog] and
    [SignalInitWrite] use it. The buffer is the list of the bytes written
    to it; the pointer to the WAL is passed to the calls that need it. *)
Record Writer := {
  writeComplete : bool;
  releaseComplete : bool;
  count : Z;               (* uint32 *)
  buffer : list byte;      (* *bpool.Buffer *)
  logSize : Z              (* uint32 *)
}.

(** The errors made with [errors.New] in [Append] and in
    [SignalInitWrite]. *)
Definition errAppendAfterWrite : error := ErrIO 3.

Section Writer.
(** [bpool.Buffer.Write], of a package outside this one: the bytes of the
    buffer after the call and the error returned. *)
Variable Write : list byte -> list byte -> list byte * option error.
(** The WAL and its [put], whose source is not at hand: [put] is given
    the [timeID], [count] and [size] of the log and the buffer, and
    returns the WAL after the call and its error. *)
Variable WAL : Type.
Variable wal_put : WAL -> Z * Z * Z -> list byte -> WAL * option error.

Definition setBuffer (w : Writer) (b : list byte) : Writer :=
  {| writeComplete := writeComplete w; releaseComplete := releaseComplete w;
     count := count w; buffer := b; logSize := logSize w |}.

(** [Writer.append]: the writer after the call and the error returned. *)
Definition append (w : Writer) (data : list byte) : Writer * option error :=
  if (length data =? 0)%nat then (w, None)
  else
    let w := {| writeComplete := writeComplete w; releaseComplete := releaseComplete w;
                count := toUint32 (count w + 1); buffer := buffer w;
                logSize := logSize w |} in
    let dataLen := toUint32 (Z.of_nat (length data) + 4) in
    let '(b, err) := Write (buffer w) (PutUint32 dataLen) in
    let w := setBuffer w b in
    if notNil err then (w, err)
    else
      let w := {| writeComplete := writeComplete w; releaseComplete := releaseComplete w;
                  count := count w; buffer := buffer w;
                  logSize := toUint32 (logSize w + dataLen) |} in
      let '(b, err) := Write (buffer w) data in
      (setBuffer w b, err).

(** [Writer.Append], with the value that arrives on the channel it
    returns; the goroutine it starts has run when the value is read. *)
Definition Append (w : Writer) (data : list byte) : Writer * option error :=
  if writeComplete w || releaseComplete w then (w, Some errAppendAfterWrite)
  else append w data.



(** A run of [Append] calls, one after the other, up to the first that
    returns an error. *)
Fixpoint appendAll (w : Writer) (ds : list (list byte)) : Writer * option error :=
  match ds with
  | [] => (w, None)
  | d :: ds' =>
      let '(w, err) := Append w d in
      if notNil err then (w, err) else appendAll w ds'
  end.
End Writer.

(** The frame of one record in the buffer: the length of the record plus
    four, in four bytes, then the record. *)
Definition frame (data : list byte) : list byte :=
  PutUint32 (toUint32 (Z.of_nat (length data) + 4)) ++ data.

Definition nonEmpty (data : list byte) : bool := negb (length data =? 0)%nat.

(** Both buffers have their declared sizes. *)
Ltac put_len :=
  repeat (rewrite length_put);
  rewrite ?length_make, ?length_PutUint16, ?length_PutUint32, ?length_PutUint64;
  unfold logHeaderSize, headerSize; try lia.

(** Reading a field back: peel off the writes that came after it, then
    hit the write of the field itself. *)
Ltac read_back :=
  repeat (rewrite sub_put_before by put_len);
  repeat (rewrite sub_put_after by put_len);
  rewrite sub_put_same by put_len.

Lemma length_logInfo_MarshalBinary l :
  length (logInfo_MarshalBinary l) = logHeaderSize.
Proof. unfold logInfo_MarshalBinary. put_len. Qed.

Lemma logInfo_roundtrip l :
  logInfo_wf l -> logInfo_UnmarshalBinary (logInfo_MarshalBinary l) = Ok l.
Proof.
  intros (Hv & Hs & Hc & Hq & Hz & Ho).
  unfold logInfo_UnmarshalBinary.
  rewrite length_logInfo_MarshalBinary. simpl (_ <? _)%nat. cbv iota.
  destruct l as [v s c q z o]; simpl in *.
  unfold logInfo_MarshalBinary; simpl li_version; simpl li_status;
    simpl li_entryCount; simpl li_seq; simpl li_size; simpl li_offset.
  f_equal. f_equal.
  - read_back. by apply Uint16_Put.
  - read_back. unfold toUint16. rewrite Z.mod_small by exact Hs. by apply Uint16_Put.
  - read_back. by apply Uint32_Put.
  - read_back. by apply Uint64_Put.
  - read_back. by apply Uint64_Put_int64.
  - read_back. by apply Uint64_Put_int64.
Qed.

Lemma length_header_MarshalBinary h :
  length (h_signature h) = 8%nat ->
  length (header_MarshalBinary h) = headerSize.
Proof.
  intros Hs. unfold header_MarshalBinary.
  repeat (rewrite length_put);
    rewrite ?length_make, ?length_take, ?length_PutUint32, ?length_PutUint64;
    unfold headerSize; lia.
Qed.

Lemma header_roundtrip h :
  header_wf h -> header_UnmarshalBinary (header_MarshalBinary h) = Ok h.
Proof.
  intros (Hs & Hv & Hq & [H0s H0o] & [H1s H1o] & [H2s H2o]).
  unfold header_UnmarshalBinary.
  rewrite length_header_MarshalBinary by exact Hs. simpl (_ <? _)%nat. cbv iota.
  destruct h as [sg v q [s0 o0] [s1 o1] [s2 o2]]; simpl in *.
  unfold header_MarshalBinary; simpl h_signature; simpl h_version;
    simpl h_seq; simpl h_fb0; simpl h_fb1; simpl h_fb2;
    simpl fb_size; simpl fb_offset.
  assert (Hsg : length (take 8 sg) = 8%nat) by (rewrite length_take; lia).
  assert (Hsg' : take 8 sg = sg) by (apply firstn_all2; lia).
  f_equal. f_equal.
  - repeat (rewrite sub_put_before by (put_len; rewrite ?Hsg; lia)).
    rewrite sub_put_same; [exact Hsg' | put_len; rewrite ?Hsg; lia | by rewrite Hsg].
  - repeat (rewrite sub_put_before by (put_len; rewrite ?Hsg; lia)).
    rewrite sub_put_same by (put_len; rewrite ?Hsg; lia). by apply Uint32_Put.
  - repeat (rewrite sub_put_before by (put_len; rewrite ?Hsg; lia)).
    rewrite sub_put_same by (put_len; rewrite ?Hsg; lia). by apply Uint64_Put.
  - f_equal.
    + repeat (rewrite sub_put_before by (put_len; rewrite ?Hsg; lia)).
      rewrite sub_put_same by (put_len; rewrite ?Hsg; lia). by apply Uint64_Put_int64.
    + repeat (rewrite sub_put_before by (put_len; rewrite ?Hsg; lia)).
      rewrite sub_put_same by (put_len; rewrite ?Hsg; lia). by apply Uint64_Put_int64.
  - f_equal.
    + repeat (rewrite sub_put_before by (put_len; rewrite ?Hsg; lia)).
      rewrite sub_put_same by (put_len; rewrite ?Hsg; lia). by apply Uint64_Put_int64.
    + repeat (rewrite sub_put_before by (put_len; rewrite ?Hsg; lia)).
      rewrite sub_put_same by (put_len; rewrite ?Hsg; lia). by apply Uint64_Put_int64.
  - f_equal.
    + repeat (rewrite sub_put_before by (put_len; rewrite ?Hsg; lia)).
      rewrite sub_put_same by (put_len; rewrite ?Hsg; lia). by apply Uint64_Put_int64.
    + rewrite sub_put_same by (put_len; rewrite ?Hsg; lia). by apply Uint64_Put_int64.
Qed.

(** ** From bytes to a record and back *)

(** The marshalled record is the concatenation of its encoded fields. *)
Lemma logInfo_MarshalBinary_flat l :
  logInfo_MarshalBinary l
  = PutUint16 (li_version l) ++ PutUint16 (toUint16 (li_status l))
    ++ PutUint32 (li_entryCount l) ++ PutUint64 (li_seq l)
    ++ PutUint64 (toUint64 (li_size l)) ++ PutUint64 (toUint64 (li_offset l)).
Proof.
  unfold logInfo_MarshalBinary.
  change (make logHeaderSize)
    with ([] ++ make 2 ++ make 2 ++ make 4 ++ make 8 ++ make 8 ++ make 8 ++ []).
  rewrite put_over by done. cbn [app].
  rewrite put_over by done.
  rewrite (app_assoc (PutUint16 _)).
  rewrite put_over by (rewrite ?length_app, ?length_PutUint16; done).
  rewrite (app_assoc (_ ++ _) (PutUint32 _)).
  rewrite put_over by (rewrite ?length_app, ?length_PutUint16, ?length_PutUint32; done).
  rewrite (app_assoc (_ ++ _) (PutUint64 _)).
  rewrite put_over
    by (rewrite ?length_app, ?length_PutUint16, ?length_PutUint32, ?length_PutUint64; done).
  rewrite (app_assoc (_ ++ _) (PutUint64 _)).
  rewrite put_over
    by (rewrite ?length_app, ?length_PutUint16, ?length_PutUint32, ?length_PutUint64; done).
  by rewrite <- !app_assoc, app_nil_r.
Qed.

Lemma header_MarshalBinary_flat h :
  length (h_signature h) = 8%nat ->
  header_MarshalBinary h
  = h_signature h ++ PutUint32 (h_version h) ++ PutUint64 (h_seq h)
    ++ PutUint64 (toUint64 (fb_size (h_fb0 h))) ++ PutUint64 (toUint64 (fb_offset (h_fb0 h)))
    ++ PutUint64 (toUint64 (fb_size (h_fb1 h))) ++ PutUint64 (toUint64 (fb_offset (h_fb1 h)))
    ++ PutUint64 (toUint64 (fb_size (h_fb2 h))) ++ PutUint64 (toUint64 (fb_offset (h_fb2 h)))
    ++ make 2.
Proof.
  intros Hs. unfold header_MarshalBinary.
  rewrite (firstn_all2 (h_signature h)) by lia.
  change (make headerSize)
    with ([] ++ make 8 ++ make 4 ++ make 8 ++ make 8 ++ make 8 ++ make 8 ++ make 8
          ++ make 8 ++ make 8 ++ make 2).
  rewrite put_over by (by rewrite ?Hs). cbn [app].
  rewrite put_over by (by rewrite ?Hs).
  rewrite (app_assoc (h_signature h)).
  rewrite put_over by (rewrite ?length_app, ?Hs, ?length_PutUint32; done).
  do 6 (rewrite (app_assoc (_ ++ _) (PutUint64 _));
        rewrite put_over
          by (rewrite ?length_app, ?Hs, ?length_PutUint32, ?length_PutUint64; done)).
  by rewrite <- !app_assoc.
Qed.

(** Marshalling the record read from [data] gives back the 32 bytes that
    were read. *)
Lemma logInfo_bytes_roundtrip data :
  (32 <= length data)%nat ->
  bind (logInfo_UnmarshalBinary data) (fun l => Ok (logInfo_MarshalBinary l))
  = Ok (take 32 data).
Proof.
  intros Hlen. unfold logInfo_UnmarshalBinary.
  destruct (Nat.ltb_spec (length data) 32) as [?|_]; [lia|]. cbn [bind].
  rewrite logInfo_MarshalBinary_flat.
  cbn [li_version li_status li_entryCount li_seq li_size li_offset].
  unfold toUint16. rewrite (Z.mod_small (Uint16 _)) by apply Uint16_range.
  rewrite !PutUint16_Uint16, PutUint32_Uint32, PutUint64_Uint64, !PutUint64_int64
    by (rewrite length_sub; lia).
  rewrite (sub_app data 16 24 32) by lia.
  rewrite (sub_app data 8 16 32) by lia.
  rewrite (sub_app data 4 8 32) by lia.
  rewrite (sub_app data 2 4 32) by lia.
  rewrite (sub_app data 0 2 32) by lia.
  unfold sub. by rewrite drop_0.
Qed.

(** Marshalling the header read from [data] gives back the 68 bytes that
    were read, followed by the two padding bytes, which are zero. *)
Lemma header_bytes_roundtrip data :
  (68 <= length data)%nat ->
  bind (header_UnmarshalBinary data) (fun h => Ok (header_MarshalBinary h))
  = Ok (take 68 data ++ make 2).
Proof.
  intros Hlen. unfold header_UnmarshalBinary.
  destruct (Nat.ltb_spec (length data) 68) as [?|_]; [lia|]. cbn [bind].
  rewrite header_MarshalBinary_flat by (cbn [h_signature]; rewrite length_sub; lia).
  cbn [h_signature h_version h_seq h_fb0 h_fb1 h_fb2 fb_size fb_offset].
  rewrite PutUint32_Uint32, PutUint64_Uint64, !PutUint64_int64
    by (rewrite length_sub; lia).
  rewrite (sub_app_r data 52 60 68) by lia.
  rewrite (sub_app_r data 44 52 68) by lia.
  rewrite (sub_app_r data 36 44 68) by lia.
  rewrite (sub_app_r data 28 36 68) by lia.
  rewrite (sub_app_r data 20 28 68) by lia.
  rewrite (sub_app_r data 12 20 68) by lia.
  rewrite (sub_app_r data 8 12 68) by lia.
  rewrite (sub_app_r data 0 8 68) by lia.
  unfold sub. by rewrite drop_0.
Qed.

(** ** The frames of the writer *)

Section WriterFacts.
Variable Write : list byte -> list byte -> list byte * option error.
(** The contract of [io.Writer]: a write that returns no error has
    written all its bytes. *)
Hypothesis Write_nil : forall b p b', Write b p = (b', None) -> b' = b ++ p.

Lemma toUint32_add_r a b : toUint32 (a + toUint32 b) = toUint32 (a + b).
Proof. unfold toUint32. by rewrite Zplus_mod_idemp_r. Qed.

Lemma toUint32_add_l a b : toUint32 (toUint32 a + b) = toUint32 (a + b).
Proof. unfold toUint32. by rewrite Zplus_mod_idemp_l. Qed.

Lemma append_nil w data w' :
  append Write w data = (w', None) ->
  writeComplete w' = writeComplete w /\ releaseComplete w' = releaseComplete w /\
  if nonEmpty data
  then buffer w' = buffer w ++ frame data /\
       count w' = toUint32 (count w + 1) /\
       logSize w' = toUint32 (logSize w + Z.of_nat (length (frame data)))
  else w' = w.
Proof.
  unfold append, nonEmpty.
  destruct (length data =? 0)%nat; cbn [negb].
  { intros Heq; by inversion Heq. }
  cbn [buffer setBuffer count logSize writeComplete releaseComplete].
  destruct (Write (buffer w) _) as [b1 err1] eqn:W1.
  destruct err1 as [e|]; cbn [notNil]; [discriminate|].
  apply Write_nil in W1. subst b1.
  cbn [buffer setBuffer count logSize writeComplete releaseComplete].
  destruct (Write (buffer w ++ _) data) as [b2 err2] eqn:W2.
  intros Heq; inversion Heq; subst; clear Heq.
  apply Write_nil in W2. subst b2.
  cbn [buffer setBuffer count logSize writeComplete releaseComplete].
  split; [done|]. split; [done|]. split; [|split; [done|]].
  - unfold frame. by rewrite <- app_assoc.
  - unfold frame. rewrite length_app, length_PutUint32, toUint32_add_r.
    f_equal. lia.
Qed.

Lemma toUint32_id x : uint32 x -> toUint32 x = x.
Proof. intros H. unfold toUint32. by apply Z.mod_small. Qed.

Lemma toUint32_range x : uint32 (toUint32 x).
Proof. unfold uint32, toUint32. apply Z.mod_pos_bound. lia. Qed.

Lemma appendAll_nil ds : forall w w',
  writeComplete w || releaseComplete w = false ->
  uint32 (count w) -> uint32 (logSize w) ->
  appendAll Write w ds = (w', None) ->
  writeComplete w' = writeComplete w /\ releaseComplete w' = releaseComplete w /\
  buffer w' = buffer w ++ flat_map frame (List.filter nonEmpty ds) /\
  count w' = toUint32 (count w + Z.of_nat (length (List.filter nonEmpty ds))) /\
  logSize w' = toUint32 (logSize w
                         + Z.of_nat (length (flat_map frame (List.filter nonEmpty ds)))).
Proof.
  induction ds as [|d ds IH]; intros w w' Hopen Hc Hl; cbn [appendAll].
  - intros Heq; inversion Heq; subst; clear Heq.
    cbn. by rewrite app_nil_r, !Z.add_0_r, !toUint32_id.
  - unfold Append. rewrite Hopen.
    destruct (append Write w d) as [w1 err] eqn:Ha.
    destruct err as [e|]; cbn [notNil]; [discriminate|].
    apply append_nil in Ha as (H1 & H2 & Ha).
    intros Hrec. cbn [List.filter].
    destruct (nonEmpty d).
    + destruct Ha as (Hb & Hcnt & Hsz).
      apply IH in Hrec as (R1 & R2 & Rb & Rc & Rs).
      * rewrite R1, R2, Rb, Rc, Rs, H1, H2, Hb, Hcnt, Hsz.
        split; [done|]. split; [done|]. cbn [flat_map length].
        rewrite <- app_assoc, !toUint32_add_l, length_app.
        split; [done|]. split; f_equal; lia.
      * by rewrite H1, H2.
      * rewrite Hcnt. apply toUint32_range.
      * rewrite Hsz. apply toUint32_range.
    + subst w1. by apply IH.
Qed.
End WriterFacts.

End wal.

(* ===================================================================== *)
(** * memdb: the sharded block cache (memdb/memdb.go)                     *)
(* ===================================================================== *)

Module memdb.
Import Bytes.

Definition nShards : nat := 32.

(** Modelled from the spec: the [dataTable] type of package memdb, whose
    source file is not among the sources. The spec describes it as an
    append-only arena supporting [allocate(size) -> offset],
    [writeAt(bytes, offset)] and [readRaw(offset, len)]. The arena is the
    list of its bytes and [size] is their number; [allocate] grows it by
    [size] zero bytes and returns the old size; [writeAt] and [readRaw]
    work inside the allocated bytes and return an error outside them. *)
Record dataTable := { buf : list byte }.

Definition size (t : dataTable) : Z := Z.of_nat (length (buf t)).

Definition allocate (t : dataTable) (sz : Z) : res (dataTable * Z) :=
  Ok ({| buf := buf t ++ make (Z.to_nat sz) |}, size t).

Definition writeAt (t : dataTable) (p : list byte) (off : Z) : res (dataTable * Z) :=
  if (0 <=? off) && (off + Z.of_nat (length p) <=? size t)
  then Ok ({| buf := put (buf t) (Z.to_nat off) p |}, Z.of_nat (length p))
  else Err (ErrIO 0).

Definition readRaw (t : dataTable) (off : Z) (len : Z) : res (list byte) :=
  if (0 <=? off) && (0 <=? len) && (off + len <=? size t)
  then Ok (sub (buf t) (Z.to_nat off) (Z.to_nat (off + len)))
  else Err (ErrIO 1).

(** [memCache], one shard. *)
Record memCache := {
  data : dataTable;
  freeOffset : Z;        (* int64 *)
  m : gmap Z Z           (* map[uint64]int64, key to offset *)
}.

(** [DB]: the shards and the consistent-hash ring, a collaborator that
    is used through [FindBlock] only. *)
Record DB := {
  targetSize : Z;
  FindBlock : Z -> nat;
  blockCache : list memCache
}.

(** [db.getCache]; indexing past the slice panics. *)
Definition getCache (db : DB) (blockID : Z) : res memCache :=
  match blockCache db !! FindBlock db blockID with
  | Some c => Ok c
  | None => Panic
  end.

(** Writing a shard back: the shards are pointers, so an update of the
    shard that [getCache] returned is an update in place. *)
Definition setCache (db : DB) (blockID : Z) (c : memCache) : DB :=
  {| targetSize := targetSize db; FindBlock := FindBlock db;
     blockCache := <[FindBlock db blockID := c]> (blockCache db) |}.

(** [s[lo:]]; panics when [lo] exceeds the length. *)
Definition sliceFrom (s : list byte) (lo : nat) : res (list byte) :=
  if (lo <=? length s)%nat then Ok (drop lo s) else Panic.

(** [DB.Get] on the shard. The result [Ok None] is [(nil, nil)],
    [Ok (Some d)] is [(d, nil)] and [Err e] is [(nil, e)]. A key that is
    not in the map reads as offset 0 with [ok = false]. *)
Definition getShard (cache : memCache) (key : Z) : res (option (list byte)) :=
  let ok := bool_decide (is_Some (m cache !! key)) in
  let off := default 0 (m cache !! key) in
  if off =? -1 then Err ErrEntryDeleted
  else if negb ok then Ok None
  else
    bind (readRaw (data cache) off 4) (fun scratch =>
    bind (slice scratch 0 4) (fun s4 =>
    let dataLen := Uint32 s4 in
    bind (readRaw (data cache) off dataLen) (fun d =>
    bind (sliceFrom d 4) (fun r => Ok (Some r))))).

Definition Get (db : DB) (blockID key : Z) : res (option (list byte)) :=
  bind (getCache db blockID) (fun cache => getShard cache key).

(** [DB.Remove]; its error is always nil, so only the database after the
    call is returned. *)
Definition removeShard (cache : memCache) (key : Z) : memCache :=
  if bool_decide (is_Some (m cache !! key))
  then {| data := data cache; freeOffset := freeOffset cache;
          m := <[key := -1]> (m cache) |}
  else cache.

Definition Remove (db : DB) (blockID key : Z) : res DB :=
  bind (getCache db blockID) (fun cache =>
  Ok (setCache db blockID (removeShard cache key))).

(** [DB.Set] on the shard: the shard after the call and the error
    returned. The arena keeps what was done to it before a failure. *)
Definition setShard (cache : memCache) (key : Z) (d : list byte)
    : res (memCache * option error) :=
  let withData t := {| data := t; freeOffset := freeOffset cache; m := m cache |} in
  let sz := toUint32 (Z.of_nat (length d) + 4) in
  match allocate (data cache) sz with
  | Panic => Panic
  | Err e => Ok (cache, Some e)
  | Ok (t, off) =>
      let scratch := PutUint32 sz in
      match writeAt t scratch off with
      | Panic => Panic
      | Err e => Ok (withData t, Some e)
      | Ok (t, _) =>
          match writeAt t d (off + 4) with
          | Panic => Panic
          | Err e => Ok (withData t, Some e)
          | Ok (t, _) =>
              Ok ({| data := t; freeOffset := freeOffset cache;
                     m := <[key := off]> (m cache) |}, None)
          end
      end
  end.

Definition Set_ (db : DB) (blockID key : Z) (d : list byte) : res (DB * option error) :=
  bind (getCache db blockID) (fun cache =>
  bind (setShard cache key d) (fun '(cache, err) =>
  Ok (setCache db blockID cache, err))).

(** A sequence of calls made after a [Set]; results of [Get] and errors
    are dropped, the database is threaded through. *)
Inductive call : Type :=
| CallSet (blockID key : Z) (d : list byte)
| CallRemove (blockID key : Z)
| CallGet (blockID key : Z).

Definition run1 (db : DB) (c : call) : res DB :=
  match c with
  | CallSet b k d => bind (Set_ db b k d) (fun '(db, _) => Ok db)
  | CallRemove b k => Remove db b k
  | CallGet b k => bind (Get db b k) (fun _ => Ok db)
  end.

Definition run (db : DB) (cs : list call) : res DB :=
  fold_left (fun r c => bind r (fun db => run1 db c)) cs (Ok db).

(** A call interferes with [key] under [blockID] when it is a [Set] or a
    [Remove] of that key in the shard of [blockID]. *)
Definition interferes (db : DB) (blockID key : Z) (c : call) : Prop :=
  match c with
  | CallSet b k _ | CallRemove b k => FindBlock db b = FindBlock db blockID /\ k = key
  | CallGet _ _ => False
  end.

(** ** Facts about the arena *)

(** [key] is stored in the shard with payload [d]: its offset points at
    a record made of the length prefix and the payload. *)
Definition stored (c : memCache) (key : Z) (d : list byte) : Prop :=
  exists pre post,
    m c !! key = Some (Z.of_nat (length pre)) /\
    Z.of_nat (length d) + 4 < 2 ^ 32 /\
    buf (data c) = pre ++ PutUint32 (Z.of_nat (length d) + 4) ++ d ++ post.

Lemma put_app_r (a b p : list byte) (i : nat) :
  put (a ++ b) (length a + i) p = a ++ put b i p.
Proof.
  unfold put. rewrite take_app_add, <- Nat.add_assoc, drop_app_add.
  by rewrite <- app_assoc.
Qed.

Lemma put_all (z p rest : list byte) :
  length z = length p -> put (z ++ rest) 0 p = p ++ rest.
Proof.
  intros Hl. unfold put. cbn [take app]. rewrite Nat.add_0_l, <- Hl.
  by rewrite drop_app_length.
Qed.

(** A write at or after the end of [old] keeps [old] as a prefix. *)
Lemma writeAt_extends t p off t' k (old : list byte) :
  writeAt t p off = Ok (t', k) ->
  Z.of_nat (length old) <= off ->
  (exists z, buf t = old ++ z) ->
  exists ext, buf t' = old ++ ext.
Proof.
  unfold writeAt. intros Hw Hoff [z Hz].
  destruct (_ && _); [|discriminate].
  inversion Hw; subst; clear Hw. cbn [buf]. rewrite Hz.
  replace (Z.to_nat off) with (length old + (Z.to_nat off - length old))%nat by lia.
  rewrite put_app_r. eauto.
Qed.

(** Whatever [Set] does to a shard, the old arena is a prefix of the new
    one. *)
Lemma setShard_extends c k d c' err :
  setShard c k d = Ok (c', err) ->
  exists ext, buf (data c') = buf (data c) ++ ext.
Proof.
  unfold setShard, allocate, size.
  destruct (writeAt _ (PutUint32 _) _) as [[t1 n1]| |] eqn:W1; [| |discriminate].
  - apply writeAt_extends with (old := buf (data c)) in W1; [|lia|cbn [buf]; eauto].
    destruct (writeAt t1 d _) as [[t2 n2]| |] eqn:W2; [| |discriminate].
    + apply writeAt_extends with (old := buf (data c)) in W2; [|lia|done].
      intros Heq; inversion Heq; subst; clear Heq. exact W2.
    + intros Heq; inversion Heq; subst; clear Heq. exact W1.
  - intros Heq; inversion Heq; subst; clear Heq. cbn [data buf]. eauto.
Qed.

Lemma setShard_map c k d c' err :
  setShard c k d = Ok (c', err) ->
  forall k', k' <> k -> m c' !! k' = m c !! k'.
Proof.
  unfold setShard, allocate, writeAt.
  destruct (_ && _); [destruct (_ && _)|];
    intros Heq k' Hk; inversion Heq; subst; clear Heq; cbn [m]; [|done|done].
  by rewrite lookup_insert_ne.
Qed.

Lemma writeAt_Ok t p off t' k :
  writeAt t p off = Ok (t', k) ->
  0 <= off /\ off + Z.of_nat (length p) <= size t /\
  buf t' = put (buf t) (Z.to_nat off) p.
Proof.
  unfold writeAt.
  destruct (Z.leb_spec 0 off); [|discriminate].
  destruct (Z.leb_spec (off + Z.of_nat (length p)) (size t)); [|discriminate].
  cbn [andb]. intros Heq; inversion Heq; subst; clear Heq. done.
Qed.

(** A successful [Set] stores the payload. *)
Lemma setShard_stored c k d c' :
  setShard c k d = Ok (c', None) -> stored c' k d.
Proof.
  unfold setShard, allocate.
  set (sz := toUint32 (Z.of_nat (length d) + 4)).
  set (old := buf (data c)).
  destruct (writeAt _ (PutUint32 _) _) as [[t1 n1]| |] eqn:W1; [|discriminate..].
  destruct (writeAt t1 d _) as [[t2 n2]| |] eqn:W2; [|discriminate..].
  intros Heq; inversion Heq; subst; clear Heq.
  apply writeAt_Ok in W1 as (_ & H1 & B1). apply writeAt_Ok in W2 as (_ & H2 & B2).
  unfold size in *. cbn [buf] in *. fold old in H1, B1, H2.
  rewrite length_app, length_make, length_PutUint32 in H1.
  assert (Hsz : 0 <= sz < 2 ^ 32) by (apply Z.mod_pos_bound; lia).
  assert (L1 : length (buf t1) = (length old + Z.to_nat sz)%nat).
  { rewrite B1, length_put; rewrite length_app, length_make, ?length_PutUint32; lia. }
  rewrite L1 in H2.
  assert (Hsz' : sz = Z.of_nat (length d) + 4).
  { unfold sz, toUint32 in *.
    destruct (Z_lt_le_dec (Z.of_nat (length d) + 4) (2 ^ 32)) as [Hlt|Hge].
    - apply Z.mod_small. lia.
    - pose proof (Z.mod_pos_bound (Z.of_nat (length d) + 4) (2 ^ 32) eq_refl). lia. }
  exists old, []. cbn [m data].
  split; [by rewrite lookup_insert_eq|]. split; [lia|].
  rewrite <- Hsz', app_nil_r, B2, B1.
  replace (Z.to_nat (Z.of_nat (length old))) with (length old + 0)%nat by lia.
  rewrite put_app_r.
  replace (make (Z.to_nat sz)) with (make 4 ++ make (length d)).
  2:{ unfold make. rewrite <- repeat_app. f_equal. lia. }
  rewrite put_all by (by rewrite length_make, length_PutUint32).
  fold old.
  replace (Z.to_nat (Z.of_nat (length old) + 4))
    with (length (old ++ PutUint32 sz) + 0)%nat
    by (rewrite length_app, length_PutUint32; lia).
  rewrite app_assoc, put_app_r.
  rewrite <- (app_nil_r (make (length d))).
  rewrite put_all by (by rewrite length_make).
  by rewrite app_nil_r, <- app_assoc.
Qed.

(** A stored payload is what [Get] returns. *)
Lemma getShard_stored c k d :
  stored c k d -> getShard c k = Ok (Some d).
Proof.
  intros (pre & post & Hm & Hlen & Hbuf). unfold getShard.
  rewrite Hm. cbn [from_option id].
  rewrite bool_decide_eq_true_2 by eauto. cbn [negb].
  destruct (Z.eqb_spec (Z.of_nat (length pre)) (-1)) as [?|_]; [lia|].
  set (sz := Z.of_nat (length d) + 4) in *.
  assert (Hrd : forall len tl,
             PutUint32 sz ++ d ++ post = tl ++ drop (length tl) (PutUint32 sz ++ d ++ post) ->
             Z.of_nat (length tl) = len ->
             readRaw (data c) (Z.of_nat (length pre)) len = Ok tl).
  { intros len tl Htl Hl. unfold readRaw, size. rewrite Hbuf.
    rewrite (proj2 (Z.leb_le 0 (Z.of_nat (length pre)))) by lia.
    rewrite (proj2 (Z.leb_le 0 len)) by lia.
    rewrite (proj2 (Z.leb_le _ _)).
    2:{ rewrite length_app, Htl, length_app. lia. }
    cbn [andb]. f_equal. unfold sub.
    rewrite Nat2Z.id, drop_app_length.
    replace (Z.to_nat (Z.of_nat (length pre) + len) - length pre)%nat
      with (length tl) by lia.
    rewrite Htl. apply take_app_length. }
  rewrite (Hrd 4 (PutUint32 sz));
    [| by rewrite drop_app_length | by rewrite length_PutUint32].
  cbn [bind].
  assert (Hs4 : slice (PutUint32 sz) 0 4 = Ok (PutUint32 sz)).
  { unfold slice. rewrite length_PutUint32.
    change ((0 <=? 0) && (0 <=? 4) && (4 <=? Z.of_nat 4)) with true. cbv iota.
    change (Z.to_nat (4 - 0)) with 4%nat. change (Z.to_nat 0) with 0%nat.
    rewrite drop_0. reflexivity. }
  rewrite Hs4. cbn [bind].
  rewrite Uint32_Put by (unfold uint32, sz; lia).
  rewrite (Hrd sz (PutUint32 sz ++ d)).
  2:{ rewrite <- app_assoc. rewrite (app_assoc (PutUint32 sz) d post) at 2.
      by rewrite drop_app_length. }
  2:{ rewrite length_app, length_PutUint32. unfold sz. lia. }
  cbn [bind]. unfold sliceFrom.
  rewrite length_app, length_PutUint32. cbn [bind].
  destruct (Nat.leb_spec 4 (4 + length d)) as [_|?]; [|lia]. cbn [bind].
  by rewrite drop_app_length' by (by rewrite length_PutUint32).
Qed.

(** The calls that do not interfere keep the payload stored. *)
Lemma stored_setShard_other c k d k' d' c' err :
  stored c k d -> k' <> k -> setShard c k' d' = Ok (c', err) -> stored c' k d.
Proof.
  intros (pre & post & Hm & Hlen & Hbuf) Hk Hset.
  destruct (setShard_extends _ _ _ _ _ Hset) as [ext Hext].
  exists pre, (post ++ ext). split; [|split; [done|]].
  - by rewrite (setShard_map _ _ _ _ _ Hset) by done.
  - rewrite Hext, Hbuf. by rewrite <- !app_assoc.
Qed.

Lemma stored_removeShard_other c k d k' :
  stored c k d -> k' <> k -> stored (removeShard c k') k d.
Proof.
  intros (pre & post & Hm & Hlen & Hbuf) Hk. unfold removeShard.
  destruct (bool_decide _); [|by exists pre, post].
  exists pre, post. cbn [m data]. by rewrite lookup_insert_ne.
Qed.

(** ** Facts about the database *)

Lemma getCache_Some db b c :
  getCache db b = Ok c <-> blockCache db !! FindBlock db b = Some c.
Proof.
  unfold getCache. destruct (blockCache db !! FindBlock db b); split; congruence.
Qed.

Lemma getCache_setCache db b c0 c :
  getCache db b = Ok c0 -> getCache (setCache db b c) b = Ok c.
Proof.
  intros H%getCache_Some. apply getCache_Some. cbn.
  apply list_lookup_insert_eq. by apply lookup_lt_Some in H.
Qed.

Lemma getCache_setCache_ne db b b' c :
  FindBlock db b' <> FindBlock db b ->
  getCache (setCache db b' c) b = getCache db b.
Proof.
  intros Hne. unfold getCache, setCache. cbn.
  by rewrite list_lookup_insert_ne.
Qed.

(** [key] under [blockID] is stored in the database with payload [d]. *)
Definition storedDB (db : DB) (blockID key : Z) (d : list byte) : Prop :=
  exists c, getCache db blockID = Ok c /\ stored c key d.

Lemma Set_storedDB db b k d db' :
  Set_ db b k d = Ok (db', None) -> storedDB db' b k d /\ FindBlock db' = FindBlock db.
Proof.
  unfold Set_. destruct (getCache db b) as [c| |] eqn:Hc; [|discriminate..]. cbn [bind].
  destruct (setShard c k d) as [[c' err]| |] eqn:Hs; [|discriminate..]. cbn [bind].
  intros Heq; inversion Heq; subst; clear Heq.
  split; [|done]. exists c'. split; [by eapply getCache_setCache|].
  by eapply setShard_stored.
Qed.

Lemma storedDB_Get db b k d : storedDB db b k d -> Get db b k = Ok (Some d).
Proof.
  intros (c & Hc & Hs). unfold Get. rewrite Hc. cbn [bind].
  by apply getShard_stored.
Qed.

(** A call that does not interfere keeps the payload stored. *)
Lemma run1_storedDB db b k d c db' :
  storedDB db b k d -> ~ interferes db b k c -> run1 db c = Ok db' ->
  storedDB db' b k d /\ FindBlock db' = FindBlock db.
Proof.
  intros (c0 & Hc0 & Hst) Hni. destruct c as [b' k' d'|b' k'|b' k']; cbn [run1 interferes] in *.
  - unfold Set_. destruct (getCache db b') as [c1| |] eqn:Hc1; [|discriminate..]. cbn [bind].
    destruct (setShard c1 k' d') as [[c1' err]| |] eqn:Hs; [|discriminate..]. cbn [bind].
    intros Heq; inversion Heq; subst; clear Heq. split; [|done].
    destruct (decide (FindBlock db b' = FindBlock db b)) as [Heq|Hne].
    + assert (c1 = c0) as ->.
      { apply getCache_Some in Hc0, Hc1. rewrite Heq in Hc1. congruence. }
      exists c1'. split.
      * unfold getCache, setCache in *. cbn. rewrite Heq.
        destruct (blockCache db !! FindBlock db b) eqn:E; [|discriminate].
        rewrite list_lookup_insert_eq; [done|]. by apply lookup_lt_Some in E.
      * eapply stored_setShard_other; [exact Hst| |exact Hs].
        intros ->. by apply Hni.
    + exists c0. split; [|done]. by rewrite getCache_setCache_ne.
  - unfold Remove. destruct (getCache db b') as [c1| |] eqn:Hc1; [|discriminate..]. cbn [bind].
    intros Heq; inversion Heq; subst; clear Heq. split; [|done].
    destruct (decide (FindBlock db b' = FindBlock db b)) as [Heq|Hne].
    + assert (c1 = c0) as ->.
      { apply getCache_Some in Hc0, Hc1. rewrite Heq in Hc1. congruence. }
      exists (removeShard c0 k'). split.
      * unfold getCache, setCache in *. cbn. rewrite Heq.
        destruct (blockCache db !! FindBlock db b) eqn:E; [|discriminate].
        rewrite list_lookup_insert_eq; [done|]. by apply lookup_lt_Some in E.
      * apply stored_removeShard_other; [done|]. intros ->. by apply Hni.
    + exists c0. split; [|done]. by rewrite getCache_setCache_ne.
  - destruct (Get db b' k'); [|discriminate..]. cbn [bind].
    intros Heq; inversion Heq; subst; clear Heq. split; [|done]. by exists c0.
Qed.

Lemma run_storedDB cs : forall db b k d db',
  storedDB db b k d -> Forall (fun c => ~ interferes db b k c) cs ->
  run db cs = Ok db' -> storedDB db' b k d.
Proof.
  induction cs as [|c cs IH]; intros db b k d db' Hst Hni Hrun.
  - cbn in Hrun. by inversion Hrun; subst.
  - inversion Hni as [|? ? Hc Hcs]; subst.
    unfold run in Hrun. cbn [fold_left bind] in Hrun.
    destruct (run1 db c) as [db1| |] eqn:H1.
    + destruct (run1_storedDB _ _ _ _ _ _ Hst Hc H1) as [Hst1 HF].
      apply (IH db1 b k d db' Hst1); [|exact Hrun].
      eapply Forall_impl; [exact Hcs|]. intros c' Hc'.
      by destruct c'; cbn [interferes] in *; rewrite ?HF.
    + exfalso. clear -Hrun. induction cs as [|c' cs IH]; cbn in Hrun; [discriminate|auto].
    + exfalso. clear -Hrun. induction cs as [|c' cs IH]; cbn in Hrun; [discriminate|auto].
Qed.

(** [Get] reports a deleted entry exactly at the tombstone offset. *)
Lemma getShard_deleted c k :
  getShard c k = Err ErrEntryDeleted <-> m c !! k = Some (-1).
Proof.
  unfold getShard. split.
  - destruct (m c !! k) as [off|] eqn:Hk; cbn [from_option id].
    + destruct (Z.eqb_spec off (-1)) as [->|Hne]; [done|].
      rewrite bool_decide_eq_true_2 by eauto. cbn [negb].
      unfold readRaw, slice, sliceFrom.
      repeat (match goal with
              | |- context [if ?c then _ else _] => destruct c
              end; cbn [bind]; try discriminate).
    + cbn. discriminate.
  - intros ->. done.
Qed.

Lemma getShard_absent c k : m c !! k = None -> getShard c k = Ok None.
Proof.
  intros Hk. unfold getShard. by rewrite Hk.
Qed.

Lemma removeShard_present c k :
  is_Some (m c !! k) -> m (removeShard c k) !! k = Some (-1).
Proof.
  intros H. unfold removeShard. rewrite bool_decide_eq_true_2 by done.
  cbn. by rewrite lookup_insert_eq.
Qed.

Lemma removeShard_absent c k : m c !! k = None -> removeShard c k = c.
Proof.
  intros H. unfold removeShard. by rewrite H.
Qed.

Lemma setCache_same db b c : getCache db b = Ok c -> setCache db b c = db.
Proof.
  intros H%getCache_Some. unfold setCache. rewrite list_insert_id by done.
  by destruct db.
Qed.

(** ** Open *)

(** [newBlockCache]: [nShards] empty shards. *)
Definition newBlockCache : list memCache :=
  repeat {| data := {| buf := [] |}; freeOffset := 0; m := ∅ |} nShards.

(** [Open]; its error is always nil. The ring that
    [hash.InitConsistent] makes is passed in. [memSize] is not stored:
    [targetSize] keeps its zero value. The goroutine started by [drain]
    is not part of the model. *)
Definition Open (ring : Z -> nat) (memSize : Z) : DB :=
  {| targetSize := 0; FindBlock := ring; blockCache := newBlockCache |}.

(** ** Keys, Count, Size and the shrink pass *)

(** [DB.Keys]: the keys of the shard's map, removed ones included. Go
    ranges over a map in no fixed order; the model lists the keys in the
    order of [map_to_list], and what is proved of the result does not
    depend on the order. *)
Definition Keys (db : DB) (blockID : Z) : res (list Z) :=
  bind (getCache db blockID) (fun cache => Ok (map fst (map_to_list (m cache)))).

(** The loops [for i := 0; i < nShards; i++] of [Count] and [Size]: [n]
    shards from index [i] on, adding [g] of each to the running total
    (an [int], an [int64]), which wraps at 64 bits. *)
Fixpoint sumShards (g : memCache -> Z) (shards : list memCache) (i n : nat) (acc : Z)
    : res Z :=
  match n with
  | O => Ok acc
  | S n' =>
      match shards !! i with
      | None => Panic
      | Some cache => sumShards g shards (S i) n' (toInt64 (acc + g cache))
      end
  end.

(** [DB.Count]. *)
Definition Count (db : DB) : res Z :=
  bind (sumShards (fun cache => Z.of_nat (base.size (m cache))) (blockCache db) 0 nShards 0)
       (fun count => Ok (toUint64 count)).

(** [DB.Size]; its error is always nil. *)
Definition Size (db : DB) : res Z :=
  sumShards (fun cache => size (data cache)) (blockCache db) 0 nShards 0.

(** Modelled from the spec: [dataTable.shrink], whose source file is not
    among the sources. The spec says that in the shrink loop each shard
    truncates its arena up to [freeOffset]: the first [cutoff] bytes of
    the arena are dropped, and a cutoff outside the arena is an error. *)
Definition shrink (t : dataTable) (cutoff : Z) : res dataTable :=
  if (0 <=? cutoff) && (cutoff <=? size t)
  then Ok {| buf := drop (Z.to_nat cutoff) (buf t) |}
  else Err (ErrIO 2).

(** The loop of [shrinkDataTable] over the map of a shard. Each key is
    visited once, and the loop writes to the visited key only, so that
    the order of the visits does not matter. *)
Definition shrinkOffsets (free : Z) (m0 : gmap Z Z) : gmap Z Z :=
  map_fold (fun seq off acc =>
              if off <? free then delete seq acc
              else <[seq := toInt64 (off - free)]> acc) m0 m0.

(** The body of the loop of [shrinkDataTable] on one shard: the shard
    after it and the error of [shrink]. *)
Definition shrinkShard (cache : memCache) : res (memCache * option error) :=
  let shrunk := if 0 <? freeOffset cache
                then shrink (data cache) (freeOffset cache)
                else Ok (data cache) in
  match shrunk with
  | Panic => Panic
  | Err e => Ok (cache, Some e)
  | Ok t => Ok ({| data := t; freeOffset := 0;
                   m := shrinkOffsets (freeOffset cache) (m cache) |}, None)
  end.

Fixpoint shrinkFrom (shards : list memCache) (i n : nat)
    : res (list memCache * option error) :=
  match n with
  | O => Ok (shards, None)
  | S n' =>
      match shards !! i with
      | None => Panic
      | Some cache =>
          bind (shrinkShard cache) (fun '(cache', err) =>
          if notNil err then Ok (<[i := cache']> shards, err)
          else shrinkFrom (<[i := cache']> shards) (S i) n')
      end
  end.

(** [DB.shrinkDataTable]: the database after the call and the error
    returned. *)
Definition shrinkDataTable (db : DB) : res (DB * option error) :=
  bind (shrinkFrom (blockCache db) 0 nShards) (fun '(shards, err) =>
  Ok ({| targetSize := targetSize db; FindBlock := FindBlock db;
         blockCache := shards |}, err)).

(** *** What a successful [Set] and a successful [Get] say of the shard *)

Lemma setShard_Ok c k d c' :
  setShard c k d = Ok (c', None) ->
  m c' = <[k := size (data c)]> (m c) /\
  size (data c') = size (data c) + Z.of_nat (length d) + 4 /\
  freeOffset c' = freeOffset c.
Proof.
  unfold setShard, allocate.
  set (sz := toUint32 (Z.of_nat (length d) + 4)).
  set (old := buf (data c)).
  destruct (writeAt _ (PutUint32 _) _) as [[t1 n1]| |] eqn:W1; [|discriminate..].
  destruct (writeAt t1 d _) as [[t2 n2]| |] eqn:W2; [|discriminate..].
  intros Heq; inversion Heq; subst; clear Heq. cbn [m data freeOffset].
  apply writeAt_Ok in W1 as (_ & H1 & B1). apply writeAt_Ok in W2 as (_ & H2 & B2).
  unfold size in *. cbn [buf] in *. fold old in H1, B1, H2.
  rewrite length_app, length_make, length_PutUint32 in H1.
  assert (Hsz : 0 <= sz < 2 ^ 32) by (apply Z.mod_pos_bound; lia).
  assert (L1 : length (buf t1) = (length old + Z.to_nat sz)%nat).
  { rewrite B1, length_put; rewrite length_app, length_make, ?length_PutUint32; lia. }
  rewrite L1 in H2.
  assert (Hsz' : sz = Z.of_nat (length d) + 4).
  { unfold sz, toUint32 in *.
    destruct (Z_lt_le_dec (Z.of_nat (length d) + 4) (2 ^ 32)) as [Hlt|Hge].
    - apply Z.mod_small. lia.
    - pose proof (Z.mod_pos_bound (Z.of_nat (length d) + 4) (2 ^ 32) eq_refl). lia. }
  split; [done|]. split; [|done].
  rewrite B2. fold old. rewrite length_put by lia. lia.
Qed.

(** [Get] returns a payload only for a key that is stored with it. *)
Lemma getShard_Some c k d : getShard c k = Ok (Some d) -> stored c k d.
Proof.
  unfold getShard.
  destruct (m c !! k) as [off|] eqn:Hm; cbn [from_option id].
  2:{ cbn. discriminate. }
  destruct (off =? -1); [discriminate|].
  rewrite bool_decide_eq_true_2 by eauto. cbn [negb].
  unfold readRaw at 1.
  destruct (Z.leb_spec 0 off) as [H0|?]; [|discriminate].
  destruct (Z.leb_spec (off + 4) (size (data c))) as [H4|?]; [|discriminate].
  cbn [andb Z.leb bind].
  set (scratch := sub (buf (data c)) (Z.to_nat off) (Z.to_nat (off + 4))).
  assert (Ls : length scratch = 4%nat).
  { unfold scratch, sub, size in *. rewrite length_take, length_drop. lia. }
  assert (Hs4 : slice scratch 0 4 = Ok scratch).
  { unfold slice. rewrite Ls.
    change ((0 <=? 0) && (0 <=? 4) && (4 <=? Z.of_nat 4)) with true. cbv iota.
    change (Z.to_nat (4 - 0)) with 4%nat. change (Z.to_nat 0) with 0%nat.
    rewrite drop_0, firstn_all2 by lia. reflexivity. }
  change ((0 <=? 4) && true) with true. cbv iota. cbn [bind].
  rewrite Hs4. cbn [bind].
  set (dataLen := Uint32 scratch).
  assert (Hd : dataLen = le_combine scratch).
  { unfold dataLen, Uint32. by rewrite firstn_all2 by lia. }
  unfold readRaw.
  rewrite (proj2 (Z.leb_le 0 off)) by lia.
  destruct (Z.leb_spec 0 dataLen) as [Hd0|?]; [|discriminate].
  destruct (Z.leb_spec (off + dataLen) (size (data c))) as [Hdl|?]; [|discriminate].
  cbn [andb bind].
  set (dd := sub (buf (data c)) (Z.to_nat off) (Z.to_nat (off + dataLen))).
  assert (Ldd : length dd = Z.to_nat dataLen).
  { unfold dd, sub, size in *. rewrite length_take, length_drop. lia. }
  unfold sliceFrom. destruct (Nat.leb_spec 4 (length dd)) as [Hge|?]; [|discriminate].
  cbn [bind]. intros Heq; inversion Heq; subst d; clear Heq.
  assert (Hscr : take 4 dd = scratch).
  { unfold dd, scratch, sub. rewrite take_take. f_equal. lia. }
  assert (Hput : scratch = PutUint32 dataLen).
  { unfold PutUint32. rewrite Hd, <- Ls. symmetry. apply split_le_combine. }
  exists (take (Z.to_nat off) (buf (data c))),
         (drop (Z.to_nat (off + dataLen)) (buf (data c))).
  unfold size in *.
  split; [|split].
  - rewrite Hm. f_equal. rewrite length_take. lia.
  - rewrite length_drop, Ldd.
    pose proof (le_combine_bound scratch) as Hb. rewrite Ls in Hb.
    change (2 ^ (8 * Z.of_nat 4)) with (2 ^ 32) in Hb. lia.
  - replace (Z.of_nat (length (drop 4 dd)) + 4) with dataLen
      by (rewrite length_drop; lia).
    rewrite <- Hput, <- Hscr, (app_assoc (take 4 dd)), take_drop.
    unfold dd, sub.
    rewrite <- (take_drop (Z.to_nat off) (buf (data c))) at 1. f_equal.
    rewrite <- (take_drop (Z.to_nat (off + dataLen) - Z.to_nat off)
                  (drop (Z.to_nat off) (buf (data c)))) at 1.
    f_equal. rewrite drop_drop. f_equal. lia.
Qed.

(** [Get] returns [(nil, nil)] exactly for a key that is not in the map
    of the shard. *)
Lemma getShard_None c k : getShard c k = Ok None <-> m c !! k = None.
Proof.
  split; [|apply getShard_absent].
  unfold getShard. destruct (m c !! k) as [off|]; [|done]. cbn [from_option id].
  destruct (off =? -1); [discriminate|].
  rewrite bool_decide_eq_true_2 by eauto. cbn [negb].
  unfold readRaw, slice, sliceFrom.
  repeat (match goal with
          | |- context [if ?c then _ else _] => destruct c
          end; cbn [bind]; try discriminate).
Qed.

(** *** Facts about the totals *)

Definition sumZ (l : list Z) : Z := fold_right Z.add 0 l.

Lemma sumShards_total g shards : forall n i acc,
  (i + n <= length shards)%nat ->
  sumShards g shards i n (toInt64 acc)
  = Ok (toInt64 (acc + sumZ (map g (take n (drop i shards))))).
Proof.
  induction n as [|n IH]; intros i acc Hlen; cbn [sumShards].
  - rewrite take_0. cbn. by rewrite Z.add_0_r.
  - destruct (shards !! i) as [c|] eqn:Hc.
    2:{ apply lookup_ge_None in Hc. lia. }
    rewrite toInt64_add_l, IH by lia.
    rewrite (drop_S _ _ _ Hc). cbn [take map sumZ fold_right].
    do 2 f_equal. unfold sumZ. lia.
Qed.

Lemma sumShards_all g shards :
  length shards = nShards ->
  sumShards g shards 0 nShards 0 = Ok (toInt64 (sumZ (map g shards))).
Proof.
  intros Hlen.
  pose proof (sumShards_total g shards nShards 0 0) as H.
  rewrite drop_0, firstn_all2 in H by lia.
  replace (toInt64 0) with 0 in H by reflexivity.
  apply H. rewrite Hlen. lia.
Qed.

Lemma sumZ_insert g (shards : list memCache) i c c' :
  shards !! i = Some c ->
  sumZ (map g (<[i := c']> shards)) = sumZ (map g shards) - g c + g c'.
Proof.
  revert i. induction shards as [|x l IH]; intros i; [done|].
  destruct i as [|i]; cbn [lookup list_lookup].
  - intros [= ->]. cbn. lia.
  - intros H. specialize (IH i H).
    change (<[S i := c']> (x :: l)) with (x :: <[i := c']> l).
    unfold sumZ in *. cbn [map fold_right]. lia.
Qed.

Lemma Count_total db :
  length (blockCache db) = nShards ->
  Count db = Ok (toUint64 (sumZ (map (fun cache => Z.of_nat (base.size (m cache)))
                                     (blockCache db)))).
Proof.
  intros Hlen. unfold Count. rewrite sumShards_all by done. cbn [bind].
  by rewrite toUint64_toInt64.
Qed.

Lemma Size_total db :
  length (blockCache db) = nShards ->
  Size db = Ok (toInt64 (sumZ (map (fun cache => size (data cache)) (blockCache db)))).
Proof. intros Hlen. unfold Size. by rewrite sumShards_all. Qed.

(** *** Facts about the shrink pass *)

Lemma shrinkOffsets_lookup free m0 key :
  shrinkOffsets free m0 !! key
  = match m0 !! key with
    | Some off => if off <? free then None else Some (toInt64 (off - free))
    | None => None
    end.
Proof.
  unfold shrinkOffsets.
  enough (H : forall acc : gmap Z Z,
             map_fold (fun seq off acc =>
                         if off <? free then delete seq acc
                         else <[seq := toInt64 (off - free)]> acc) acc m0 !! key
             = match m0 !! key with
               | Some off => if off <? free then None else Some (toInt64 (off - free))
               | None => acc !! key
               end).
  { rewrite H. by destruct (m0 !! key). }
  induction m0 as [|i x m1 Hi Hfirst IH] using map_first_key_ind; intros acc.
  - by rewrite map_fold_empty, lookup_empty.
  - rewrite map_fold_insert_first_key by done. destruct (decide (i = key)) as [->|Hne].
    + rewrite lookup_insert_eq. destruct (x <? free).
      * by rewrite lookup_delete_eq.
      * by rewrite lookup_insert_eq.
    + rewrite (lookup_insert_ne m1) by done. destruct (x <? free).
      * rewrite lookup_delete_ne by done. apply IH.
      * rewrite lookup_insert_ne by done. apply IH.
Qed.

(** A record at or after the cutoff is still stored after the pass. *)
Lemma shrinkShard_stored c c' key d off :
  shrinkShard c = Ok (c', None) ->
  m c !! key = Some off -> 0 <= freeOffset c <= off -> off < 2 ^ 63 ->
  stored c key d -> stored c' key d.
Proof.
  unfold shrinkShard, shrink.
  intros Hs Hm Hfree Hoff (pre & post & Hm' & Hlen & Hbuf).
  rewrite Hm in Hm'. inversion Hm'; subst off; clear Hm'.
  assert (Hto : toInt64 (Z.of_nat (length pre) - freeOffset c)
                = Z.of_nat (length pre) - freeOffset c).
  { unfold toInt64. rewrite Z.mod_small; lia. }
  destruct (Z.ltb_spec 0 (freeOffset c)) as [Hpos|Hzero].
  - destruct (_ && _); [|discriminate].
    inversion Hs; subst c'; clear Hs.
    exists (drop (Z.to_nat (freeOffset c)) pre), post. cbn [m data buf].
    rewrite shrinkOffsets_lookup, Hm.
    destruct (Z.ltb_spec (Z.of_nat (length pre)) (freeOffset c)) as [?|_]; [lia|].
    split; [|split; [done|]].
    + rewrite Hto, length_drop. f_equal. lia.
    + rewrite Hbuf. apply drop_app_le. lia.
  - inversion Hs; subst c'; clear Hs.
    exists pre, post. cbn [m data].
    rewrite shrinkOffsets_lookup, Hm.
    destruct (Z.ltb_spec (Z.of_nat (length pre)) (freeOffset c)) as [?|_]; [lia|].
    split; [|done]. rewrite Hto. f_equal. lia.
Qed.

(** A key below the cutoff, a removed key among them, is dropped. *)
Lemma shrinkShard_dropped c c' key off :
  shrinkShard c = Ok (c', None) ->
  m c !! key = Some off -> off < freeOffset c -> m c' !! key = None.
Proof.
  unfold shrinkShard. intros Hs Hm Hlt.
  destruct (if 0 <? freeOffset c then _ else _); [|discriminate..].
  inversion Hs; subst c'; clear Hs. cbn [m].
  rewrite shrinkOffsets_lookup, Hm.
  by destruct (Z.ltb_spec off (freeOffset c)) as [_|?]; [|lia].
Qed.

Lemma shrinkShard_absent c c' key err :
  shrinkShard c = Ok (c', err) -> m c !! key = None -> m c' !! key = None.
Proof.
  unfold shrinkShard. intros Hs Hm.
  destruct (if 0 <? freeOffset c then _ else _);
    inversion Hs; subst; clear Hs; [|done]. cbn [m].
  by rewrite shrinkOffsets_lookup, Hm.
Qed.

Lemma shrinkShard_freeOffset c c' :
  shrinkShard c = Ok (c', None) -> freeOffset c' = 0.
Proof.
  unfold shrinkShard. intros Hs.
  destruct (if 0 <? freeOffset c then _ else _); [|discriminate..].
  by inversion Hs.
Qed.

(** A pass that returns nil has run the body on each of the [n] shards
    from [i] on and has left the others alone. *)
Lemma shrinkFrom_Ok n : forall shards i shards',
  shrinkFrom shards i n = Ok (shards', None) ->
  forall j c, shards !! j = Some c ->
  if bool_decide (i <= j < i + n)%nat
  then exists c', shrinkShard c = Ok (c', None) /\ shards' !! j = Some c'
  else shards' !! j = Some c.
Proof.
  induction n as [|n IH]; intros shards i shards'; cbn [shrinkFrom].
  - intros Heq j c Hj. inversion Heq; subst.
    by rewrite bool_decide_eq_false_2 by lia.
  - destruct (shards !! i) as [ci|] eqn:Hi; [|discriminate].
    destruct (shrinkShard ci) as [[ci' err]| |] eqn:Hs; [|discriminate..]. cbn [bind].
    destruct err as [e|]; cbn [notNil]; [discriminate|].
    intros Hrec j c Hj.
    destruct (decide (j = i)) as [->|Hne].
    + rewrite bool_decide_eq_true_2 by lia.
      assert (c = ci) as -> by congruence.
      exists ci'. split; [done|].
      pose proof (IH _ _ _ Hrec i ci') as H.
      rewrite bool_decide_eq_false_2 in H by lia. apply H.
      apply list_lookup_insert_eq. by apply lookup_lt_Some in Hi.
    + pose proof (IH _ _ _ Hrec j c) as H.
      rewrite list_lookup_insert_ne in H by done. specialize (H Hj).
      destruct (bool_decide (S i <= j < S i + n)%nat) eqn:Hb.
      * apply bool_decide_eq_true_1 in Hb. by rewrite bool_decide_eq_true_2 by lia.
      * apply bool_decide_eq_false_1 in Hb. by rewrite bool_decide_eq_false_2 by lia.
Qed.

Lemma shrinkDataTable_shard db db' b c :
  shrinkDataTable db = Ok (db', None) -> getCache db b = Ok c ->
  (FindBlock db b < nShards)%nat ->
  exists c', shrinkShard c = Ok (c', None) /\ getCache db' b = Ok c'.
Proof.
  unfold shrinkDataTable. intros Hs Hc%getCache_Some Hlt.
  destruct (shrinkFrom (blockCache db) 0 nShards) as [[shards err]| |] eqn:Hf;
    [|discriminate..].
  cbn [bind] in Hs. inversion Hs; subst; clear Hs.
  pose proof (shrinkFrom_Ok _ _ _ _ Hf _ _ Hc) as H.
  rewrite bool_decide_eq_true_2 in H by lia.
  destruct H as (c' & Hc' & Hl). exists c'. split; [done|].
  by apply getCache_Some.
Qed.

(** ** A well-formed database *)

(** Every key of the map of a shard is removed or stored. *)
Definition wfShard (c : memCache) : Prop :=
  forall k off, m c !! k = Some off -> off = -1 \/ exists d, stored c k d.

(** The database has its [nShards] shards, the ring maps every block
    to one of them, and every shard is well-formed. *)
Definition wfDB (db : DB) : Prop :=
  length (blockCache db) = nShards /\
  (forall b, (FindBlock db b < nShards)%nat) /\
  Forall wfShard (blockCache db).

Lemma Open_wf ring memSize :
  (forall b, (ring b < nShards)%nat) -> wfDB (Open ring memSize).
Proof.
  intros Hring. split; [apply repeat_length|]. split; [exact Hring|].
  apply Forall_forall. intros c Hc. apply list_elem_of_In, repeat_spec in Hc. subst c.
  intros k off. cbn. by rewrite lookup_empty.
Qed.

Lemma setShard_total c k d : exists c' e, setShard c k d = Ok (c', e).
Proof.
  unfold setShard, allocate, writeAt.
  destruct (_ && _); [|eauto]. destruct (_ && _); eauto.
Qed.

Lemma setShard_failed c k d c' e :
  setShard c k d = Ok (c', Some e) -> m c' = m c.
Proof.
  unfold setShard, allocate, writeAt.
  destruct (_ && _); [destruct (_ && _)|]; intros Heq; by inversion Heq.
Qed.

Lemma stored_extends c c' k d ext :
  stored c k d -> m c' !! k = m c !! k -> buf (data c') = buf (data c) ++ ext ->
  stored c' k d.
Proof.
  intros (pre & post & Hm & Hlen & Hbuf) Hm' Hext.
  exists pre, (post ++ ext). split; [congruence|]. split; [done|].
  rewrite Hext, Hbuf. by rewrite <- !app_assoc.
Qed.

Lemma setShard_wf c k d c' e :
  wfShard c -> setShard c k d = Ok (c', e) -> wfShard c'.
Proof.
  intros Hwf Hs k' off Hk'.
  destruct (setShard_extends _ _ _ _ _ Hs) as [ext Hext].
  destruct e as [e|].
  - pose proof (setShard_failed _ _ _ _ _ Hs) as Hm. rewrite Hm in Hk'.
    destruct (Hwf k' off Hk') as [->|[d' Hd']]; [by left|]. right. exists d'.
    apply (stored_extends c c' k' d' ext); [done| by rewrite Hm |done].
  - destruct (decide (k' = k)) as [->|Hne].
    + right. exists d. by apply (setShard_stored c).
    + rewrite (setShard_map _ _ _ _ _ Hs) in Hk' by done.
      destruct (Hwf k' off Hk') as [->|[d' Hd']]; [by left|]. right. exists d'.
      by apply (stored_setShard_other c k' d' k d c' None).
Qed.

Lemma removeShard_wf c k : wfShard c -> wfShard (removeShard c k).
Proof.
  intros Hwf k' off Hk'. destruct (decide (k' = k)) as [->|Hne].
  - left. destruct (m c !! k) as [o|] eqn:Hk.
    + rewrite (removeShard_present c k) in Hk' by eauto. congruence.
    + rewrite (removeShard_absent c k) in Hk' by done. congruence.
  - assert (Hm : m (removeShard c k) !! k' = m c !! k').
    { unfold removeShard. destruct (bool_decide _); [|done]. cbn.
      by rewrite lookup_insert_ne. }
    rewrite Hm in Hk'.
    destruct (Hwf k' off Hk') as [->|[d' Hd']]; [by left|]. right. exists d'.
    by apply stored_removeShard_other.
Qed.

(** The three ways out of [Get] on a well-formed shard. *)
Lemma getShard_wf c k :
  wfShard c ->
  getShard c k = Ok None \/ getShard c k = Err ErrEntryDeleted \/
  exists d, getShard c k = Ok (Some d) /\ stored c k d.
Proof.
  intros Hwf. destruct (m c !! k) as [off|] eqn:Hk.
  - destruct (Hwf k off Hk) as [->|[d Hd]].
    + right. left. by apply getShard_deleted.
    + right. right. exists d. split; [by apply getShard_stored|done].
  - left. by apply getShard_absent.
Qed.

Lemma getCache_wf db b :
  wfDB db -> exists c, getCache db b = Ok c /\ wfShard c.
Proof.
  intros (Hlen & Hring & Hall).
  destruct (lookup_lt_is_Some_2 (blockCache db) (FindBlock db b)) as [c Hc].
  { rewrite Hlen. apply Hring. }
  exists c. split; [by apply getCache_Some|].
  eapply Forall_lookup_1; [exact Hall|exact Hc].
Qed.

Lemma setCache_wf db b c :
  wfDB db -> wfShard c -> wfDB (setCache db b c).
Proof.
  intros (Hlen & Hring & Hall) Hc. split; [|split].
  - cbn. by rewrite length_insert.
  - exact Hring.
  - cbn. by apply Forall_insert.
Qed.

Lemma Set_wf db b k d :
  wfDB db -> exists db' e, Set_ db b k d = Ok (db', e) /\ wfDB db'.
Proof.
  intros Hwf. destruct (getCache_wf db b Hwf) as (c & Hc & Hcwf).
  destruct (setShard_total c k d) as (c' & e & Hs).
  exists (setCache db b c'), e. unfold Set_. rewrite Hc. cbn [bind]. rewrite Hs. cbn [bind].
  split; [done|]. apply setCache_wf; [done|]. by eapply setShard_wf.
Qed.

Lemma Remove_wf db b k :
  wfDB db -> exists db', Remove db b k = Ok db' /\ wfDB db'.
Proof.
  intros Hwf. destruct (getCache_wf db b Hwf) as (c & Hc & Hcwf).
  eexists. unfold Remove. rewrite Hc. cbn [bind]. split; [done|].
  apply setCache_wf; [done|]. by apply removeShard_wf.
Qed.

Lemma Get_wf db b k :
  wfDB db ->
  Get db b k = Ok None \/ Get db b k = Err ErrEntryDeleted \/
  exists d, Get db b k = Ok (Some d) /\ storedDB db b k d.
Proof.
  intros Hwf. destruct (getCache_wf db b Hwf) as (c & Hc & Hcwf).
  unfold Get, storedDB. rewrite Hc. cbn [bind].
  destruct (getShard_wf c k Hcwf) as [H|[H|(d & H & Hst)]]; [by left|by right; left|].
  right. right. exists d. split; [done|]. by exists c.
Qed.

(** A run of calls on a well-formed database does not panic; it ends
    with a well-formed database, or at a [Get] of a removed key. *)
Lemma run_wf cs : forall db,
  wfDB db ->
  match run db cs with
  | Ok db' => wfDB db'
  | Err e => e = ErrEntryDeleted
  | Panic => False
  end.
Proof.
  induction cs as [|c cs IH]; intros db Hwf; [done|].
  unfold run. cbn [fold_left bind].
  assert (Hstuck : forall (e : error) (l : list call),
            fold_left (fun r c => bind r (fun db => run1 db c)) l (Err e) = Err e).
  { intros e l. induction l as [|x l IHl]; [done|]. cbn. exact IHl. }
  destruct c as [b k d|b k|b k]; cbn [run1].
  - destruct (Set_wf db b k d Hwf) as (db' & e & -> & Hwf'). cbn [bind]. by apply IH.
  - destruct (Remove_wf db b k Hwf) as (db' & -> & Hwf'). by apply IH.
  - destruct (Get_wf db b k Hwf) as [->|[->|(d & -> & _)]]; cbn [bind].
    + by apply IH.
    + by rewrite Hstuck.
    + by apply IH.
Qed.

End memdb.

(* ===================================================================== *)
(** * window: window blocks and the time-window bucket                    *)
(* ===================================================================== *)

Module window.
Import Bytes.

(** [winEntry]; the fields are named after their accessor methods. *)
Record winEntry := { Seq : Z; ExpiresAt : Z }.   (* uint64, uint32 *)

Definition winEntry_wf (e : winEntry) : Prop := uint64 (Seq e) /\ uint32 (ExpiresAt e).

(** [winBlock]; [dirty] and [leased] are not persisted. *)
Record winBlock := {
  topicHash : Z;             (* uint64 *)
  entries : list winEntry;   (* [seqsPerWindowBlock]winEntry *)
  next : Z;                  (* int64 *)
  cutoff : Z;                (* int64 *)
  entryIdx : Z;              (* uint16 *)
  dirty : bool;
  leased : bool
}.

Definition zeroEntry : winEntry := {| Seq := 0; ExpiresAt := 0 |}.

(** [winEntry.isExpired], with [time.Now().Unix()] passed in as [now]. *)
Definition isExpired (now : Z) (e : winEntry) : bool :=
  negb (ExpiresAt e =? 0) && (ExpiresAt e <=? toUint32 now).

(** [winBlock.Cutoff]. *)
Definition Cutoff (w : winBlock) (cut : Z) : bool :=
  negb (cutoff w =? 0) && (cutoff w <? cut).

(** The on-disk form of one entry: 8 bytes of [seq], 4 of [expiresAt]. *)
Definition encEntry (e : winEntry) : list byte :=
  PutUint64 (Seq e) ++ PutUint32 (ExpiresAt e).
Arguments encEntry : simpl never.

(** The marshalling loop: entry [i] is written at [off + 12*i]. *)
Fixpoint putEntries (buf : list byte) (off : nat) (es : list winEntry) : list byte :=
  match es with
  | [] => buf
  | e :: es' =>
      let buf := put buf off (PutUint64 (Seq e)) in
      let buf := put buf (off + 8) (PutUint32 (ExpiresAt e)) in
      putEntries buf (off + 12) es'
  end.

(** The unmarshalling loop: [n] entries are read, the slice advancing by
    12 bytes each time; the remaining slice is returned with them. *)
Fixpoint getEntries (data : list byte) (n : nat) : list winEntry * list byte :=
  match n with
  | O => ([], data)
  | S n' =>
      let e := {| Seq := Uint64 (sub data 0 8); ExpiresAt := Uint32 (sub data 8 12) |} in
      let '(es, rest) := getEntries (drop 12 data) n' in
      (e :: es, rest)
  end.

Section Layout.
(** The two layout constants of the package. Their declarations are not
    part of the sources at hand; everything below holds for every value
    of them that satisfies the stated constraints. *)
Variable blockSize : nat.
Variable seqsPerWindowBlock : nat.

(** A block is the entry array followed by a 26-byte trailer. *)
Definition trailerOff : nat := 12 * seqsPerWindowBlock.
Definition layout_ok : Prop := (trailerOff + 26 <= blockSize)%nat.

Definition zeroBlock : winBlock :=
  {| topicHash := 0; entries := repeat zeroEntry seqsPerWindowBlock;
     next := 0; cutoff := 0; entryIdx := 0; dirty := false; leased := false |}.

Definition winBlock_wf (w : winBlock) : Prop :=
  uint64 (topicHash w) /\ length (entries w) = seqsPerWindowBlock /\
  Forall winEntry_wf (entries w) /\
  int64 (next w) /\ int64 (cutoff w) /\ uint16 (entryIdx w).

(** [winBlock.MarshalBinary]. Writing past the end of the buffer panics,
    which happens exactly when the layout constraint is violated. *)
Definition MarshalBinary (w : winBlock) : res (list byte) :=
  if (blockSize <? trailerOff + 26)%nat then Panic
  else
    let buf := make blockSize in
    let buf := putEntries buf 0 (entries w) in
    let buf := put buf trailerOff (PutUint64 (toUint64 (cutoff w))) in
    let buf := put buf (trailerOff + 8) (PutUint64 (topicHash w)) in
    let buf := put buf (trailerOff + 16) (PutUint64 (toUint64 (next w))) in
    let buf := put buf (trailerOff + 24) (PutUint16 (entryIdx w)) in
    Ok buf.

(** [winBlock.UnmarshalBinary] on receiver [w0]: the persisted fields are
    overwritten, [dirty] and [leased] are kept. It panics on a slice
    shorter than the entry array plus the trailer. *)
Definition UnmarshalBinary (w0 : winBlock) (data : list byte) : res winBlock :=
  if (length data <? trailerOff + 26)%nat then Panic
  else
    let '(es, data) := getEntries data seqsPerWindowBlock in
    Ok {| topicHash := Uint64 (sub data 8 16);
            entries := es;
            next := toInt64 (Uint64 (sub data 16 24));
            cutoff := toInt64 (Uint64 (sub data 0 8));
            entryIdx := Uint16 (sub data 24 26);
            dirty := dirty w0;
            leased := leased w0 |}.
End Layout.

(** ** Round trip of the entry array *)

Lemma length_encEntry e : length (encEntry e) = 12%nat.
Proof. unfold encEntry. rewrite length_app, length_PutUint64, length_PutUint32. lia. Qed.

Lemma length_flat_encEntry es : length (flat_map encEntry es) = (12 * length es)%nat.
Proof.
  induction es as [|e es IH]; [done|].
  change (flat_map encEntry (e :: es)) with (encEntry e ++ flat_map encEntry es).
  rewrite length_app, length_encEntry, IH. cbn [length]. lia.
Qed.

(** Overwriting the middle of a three-part buffer. *)
Lemma put_at (pre old post bs : list byte) :
  length old = length bs ->
  put (pre ++ old ++ post) (length pre) bs = pre ++ bs ++ post.
Proof.
  intros Hl. unfold put.
  rewrite take_app_length, drop_app_add, <- Hl, drop_app_length. done.
Qed.

Lemma put_at' (pre old post bs : list byte) (lo : nat) :
  lo = length pre -> length old = length bs ->
  put (pre ++ old ++ post) lo bs = pre ++ bs ++ post.
Proof. intros ->. apply put_at. Qed.

(** The loop overwrites [12 * n] bytes with the concatenated encodings. *)
Lemma putEntries_flat es : forall pre mid post,
  length mid = (12 * length es)%nat ->
  putEntries (pre ++ mid ++ post) (length pre) es
  = pre ++ flat_map encEntry es ++ post.
Proof.
  induction es as [|e es IH]; intros pre mid post Hlen; cbn [length] in Hlen.
  - destruct mid; [done | cbn in Hlen; lia].
  - cbn [putEntries].
    change (flat_map encEntry (e :: es)) with (encEntry e ++ flat_map encEntry es).
    rewrite <- (take_drop 8 mid), <- (take_drop 4 (drop 8 mid)), drop_drop.
    rewrite <- !app_assoc.
    rewrite put_at by (rewrite length_take, length_PutUint64; lia).
    rewrite (app_assoc pre).
    rewrite put_at'; [| rewrite length_app, length_PutUint64; lia
                      | rewrite length_take, length_drop, length_PutUint32; lia].
    rewrite (app_assoc _ (PutUint32 _)).
    replace (length pre + 12)%nat
      with (length ((pre ++ PutUint64 (Seq e)) ++ PutUint32 (ExpiresAt e)))
      by (rewrite !length_app, length_PutUint64, length_PutUint32; lia).
    rewrite IH by (rewrite length_drop; lia).
    unfold encEntry. by rewrite <- !app_assoc.
Qed.

Lemma getEntries_flat es : forall rest,
  Forall winEntry_wf es ->
  getEntries (flat_map encEntry es ++ rest) (length es) = (es, rest).
Proof.
  induction es as [|e es IH]; intros rest Hwf; [done|].
  inversion Hwf as [|? ? [Hs He] Hwf']; subst.
  cbn [length getEntries].
  change (flat_map encEntry (e :: es)) with (encEntry e ++ flat_map encEntry es).
  rewrite <- app_assoc.
  rewrite (drop_app_length' (encEntry e)) by (rewrite ?length_encEntry; done).
  rewrite IH by exact Hwf'.
  generalize (flat_map encEntry es ++ rest). intros tl.
  unfold sub, encEntry. rewrite <- !app_assoc. rewrite drop_0.
  assert (E1 : Uint64 (take (8 - 0) (PutUint64 (Seq e) ++ PutUint32 (ExpiresAt e) ++ tl))
               = Seq e).
  { rewrite take_app_length' by (rewrite ?length_PutUint64; done). by apply Uint64_Put. }
  assert (E2 : Uint32 (take (12 - 8) (drop 8 (PutUint64 (Seq e) ++
                                               PutUint32 (ExpiresAt e) ++ tl)))
               = ExpiresAt e).
  { rewrite drop_app_length' by (rewrite ?length_PutUint64; done).
    rewrite take_app_length' by (rewrite ?length_PutUint32; done). by apply Uint32_Put. }
  rewrite E1, E2. by destruct e.
Qed.

(** ** Round trip of a whole block *)

Section RoundTrip.
Variable blockSize : nat.
Variable n : nat.   (* seqsPerWindowBlock *)
Hypothesis Hlayout : layout_ok blockSize n.

(** The marshalled block: entries, trailer, zero padding. *)
Lemma MarshalBinary_flat w :
  length (entries w) = n ->
  MarshalBinary blockSize n w
  = Ok (flat_map encEntry (entries w)
        ++ PutUint64 (toUint64 (cutoff w)) ++ PutUint64 (topicHash w)
        ++ PutUint64 (toUint64 (next w)) ++ PutUint16 (entryIdx w)
        ++ make (blockSize - (trailerOff n + 26))).
Proof.
  intros Hn. unfold MarshalBinary. unfold layout_ok in Hlayout.
  destruct (blockSize <? trailerOff n + 26)%nat eqn:E;
    [apply Nat.ltb_lt in E; lia|]. f_equal.
  unfold make.
  replace blockSize
    with (trailerOff n + (8 + (8 + (8 + (2 + (blockSize - (trailerOff n + 26)))))))%nat
    at 1 by lia.
  rewrite !repeat_app.
  set (pad := repeat Byte.x00 (blockSize - (trailerOff n + 26))).
  pose proof (fun post => putEntries_flat (entries w) []
                           (repeat Byte.x00 (trailerOff n)) post) as Hp.
  cbn [app length] in Hp.
  rewrite Hp by (rewrite repeat_length; unfold trailerOff; lia). clear Hp.
  assert (Hf : length (flat_map encEntry (entries w)) = trailerOff n)
    by (rewrite length_flat_encEntry, Hn; done).
  rewrite put_at' by (rewrite ?repeat_length, ?length_PutUint64; done).
  rewrite (app_assoc (flat_map _ _)).
  rewrite put_at' by (rewrite ?length_app, ?repeat_length, ?length_PutUint64; lia).
  rewrite (app_assoc (_ ++ _) (PutUint64 (topicHash w))).
  rewrite put_at' by (rewrite ?length_app, ?repeat_length, ?length_PutUint64; lia).
  rewrite (app_assoc (_ ++ _) (PutUint64 (toUint64 (next w)))).
  rewrite put_at' by (rewrite ?length_app, ?repeat_length, ?length_PutUint64,
                        ?length_PutUint16; lia).
  by rewrite <- !app_assoc.
Qed.

(** Unmarshalling a marshalled block restores every persisted field and
    leaves the receiver's [dirty] and [leased] flags alone. *)
Lemma winBlock_roundtrip w w0 :
  winBlock_wf n w ->
  exists data,
    MarshalBinary blockSize n w = Ok data /\
    length data = blockSize /\
    UnmarshalBinary n w0 data
    = Ok {| topicHash := topicHash w; entries := entries w; next := next w;
            cutoff := cutoff w; entryIdx := entryIdx w;
            dirty := dirty w0; leased := leased w0 |}.
Proof.
  intros (Ht & Hn & He & Hx & Hc & Hi).
  eexists. split; [by apply MarshalBinary_flat|].
  assert (Hf : length (flat_map encEntry (entries w)) = trailerOff n)
    by (rewrite length_flat_encEntry, Hn; done).
  unfold layout_ok in Hlayout.
  split.
  { rewrite !length_app, Hf, !length_PutUint64, length_PutUint16, length_make. lia. }
  unfold UnmarshalBinary.
  rewrite !length_app, Hf, !length_PutUint64, length_PutUint16, length_make.
  destruct (_ <? _)%nat eqn:E; [apply Nat.ltb_lt in E; lia|].
  pose proof (fun rest => getEntries_flat (entries w) rest He) as Hg.
  rewrite Hn in Hg. rewrite Hg. clear Hg.
  f_equal. unfold sub. f_equal.
  - rewrite drop_app_length' by (rewrite ?length_PutUint64; done).
    rewrite take_app_length' by (rewrite ?length_PutUint64; done).
    by apply Uint64_Put.
  - rewrite (app_assoc (PutUint64 _)).
    rewrite drop_app_length' by (rewrite length_app, !length_PutUint64; lia).
    rewrite take_app_length' by (rewrite ?length_PutUint64; done).
    by apply Uint64_Put_int64.
  - rewrite drop_0, take_app_length' by (rewrite ?length_PutUint64; done).
    by apply Uint64_Put_int64.
  - rewrite (app_assoc (PutUint64 _)), (app_assoc (_ ++ _) (PutUint64 _)).
    rewrite drop_app_length' by (rewrite !length_app, !length_PutUint64; lia).
    rewrite take_app_length' by (rewrite ?length_PutUint16; done).
    by apply Uint16_Put.
Qed.
End RoundTrip.

(** ** From bytes to a block and back *)

(** The entries read from [data] encode to the bytes they were read
    from. *)
Lemma getEntries_bytes n : forall data,
  (12 * n <= length data)%nat ->
  flat_map encEntry (getEntries data n).1 = take (12 * n) data /\
  (getEntries data n).2 = drop (12 * n) data /\
  length (getEntries data n).1 = n.
Proof.
  induction n as [|n IH]; intros data Hlen.
  - cbn [getEntries fst snd flat_map]. by rewrite Nat.mul_0_r, take_0, drop_0.
  - cbn [getEntries].
    destruct (IH (drop 12 data)) as (IH1 & IH2 & IH3).
    { rewrite length_drop. lia. }
    destruct (getEntries (drop 12 data) n) as [es rest]. cbn [fst snd] in *.
    change (flat_map encEntry (?e :: es)) with (encEntry e ++ flat_map encEntry es).
    split; [|split].
    + rewrite IH1. unfold encEntry. cbn [Seq ExpiresAt].
      rewrite PutUint64_Uint64, PutUint32_Uint32 by (rewrite length_sub; lia).
      rewrite sub_app by lia. unfold sub. rewrite drop_0.
      rewrite take_take_drop. f_equal. lia.
    + rewrite IH2, drop_drop. f_equal. lia.
    + cbn [length]. by rewrite IH3.
Qed.

(** Marshalling the block read from [data] gives back the entry array
    and the trailer that were read, followed by zero bytes up to the
    block size. *)
Lemma winBlock_bytes_roundtrip blockSize n w0 data :
  layout_ok blockSize n ->
  (trailerOff n + 26 <= length data)%nat ->
  bind (UnmarshalBinary n w0 data) (MarshalBinary blockSize n)
  = Ok (take (trailerOff n + 26) data ++ make (blockSize - (trailerOff n + 26))).
Proof.
  intros Hlayout Hlen. unfold UnmarshalBinary.
  destruct (Nat.ltb_spec (length data) (trailerOff n + 26)) as [?|_]; [lia|].
  destruct (getEntries_bytes n data) as (H1 & H2 & H3).
  { unfold trailerOff in Hlen. lia. }
  destruct (getEntries data n) as [es rest]. cbn [fst snd] in *. cbn [bind].
  rewrite MarshalBinary_flat by done.
  cbn [entries cutoff topicHash next entryIdx].
  assert (Hr : (26 <= length rest)%nat).
  { rewrite H2, length_drop. unfold trailerOff in Hlen. lia. }
  rewrite PutUint64_Uint64, !PutUint64_int64, PutUint16_Uint16
    by (rewrite length_sub; lia).
  f_equal.
  rewrite (sub_app_r rest 16 24 26) by lia.
  rewrite (sub_app_r rest 8 16 26) by lia.
  rewrite (sub_app_r rest 0 8 26) by lia.
  rewrite app_assoc. f_equal.
  rewrite H1, H2. unfold sub. rewrite drop_0.
  unfold trailerOff. by rewrite take_take_drop.
Qed.

(** ** The in-memory time-window bucket *)

(** [windowEntries] is a slice of entries, and a Go map from topic hash
    to such slices is a [gmap Z (list winEntry)]. A nil slice and an empty
    one are both [[]]. *)

(** [timeWindow], one shard. *)
Record timeWindow := {
  freezed : bool;
  tw_entries : gmap Z (list winEntry);
  friezedEntries : gmap Z (list winEntry)
}.

(** [m[h] = append(m[h], es...)]; a missing key reads as the nil slice. *)
Definition appendTo (m : gmap Z (list winEntry)) (h : Z) (es : list winEntry)
  : gmap Z (list winEntry) :=
  <[h := default [] (m !! h) ++ es]> m.

(** [timeWindow.reset], [freeze] and [unFreeze]. The [range] over
    [friezedEntries] is a fold over the map. *)
Definition reset (w : timeWindow) : timeWindow :=
  {| freezed := freezed w; tw_entries := ∅; friezedEntries := friezedEntries w |}.

Definition freeze (w : timeWindow) : timeWindow :=
  {| freezed := true; tw_entries := tw_entries w; friezedEntries := friezedEntries w |}.

Definition unFreeze (w : timeWindow) : timeWindow :=
  {| freezed := false;
     tw_entries := map_fold (fun h fes acc => appendTo acc h fes)
                     (tw_entries w) (friezedEntries w);
     friezedEntries := ∅ |}.

(** The body of [timeWindowBucket.add] on the shard it selected: both
    branches of the [ok] test append to the slice stored under the hash. *)
Definition addShard (wb : timeWindow) (h : Z) (e : winEntry) : timeWindow :=
  if freezed wb
  then {| freezed := freezed wb; tw_entries := tw_entries wb;
          friezedEntries := appendTo (friezedEntries wb) h [e] |}
  else {| freezed := freezed wb; tw_entries := appendTo (tw_entries wb) h [e];
          friezedEntries := friezedEntries wb |}.

Section Bucket.
(** The consistent-hash ring is a collaborator: [FindBlock] maps a key
    to a shard index. [nShards] is the package's shard count. *)
Variable nShards : nat.
Variable FindBlock : Z -> nat.

(** The expiry bucket is a collaborator too: [addExpiry] takes the
    bucket and an entry, and gives the new bucket and whether it failed. *)
Variable expiryBucket : Type.
Variable addExpiry : expiryBucket -> winEntry -> expiryBucket * option error.

(** [windowBlocks.window], the slice of shards. *)
Abbreviation windowBlocks := (list timeWindow).

(** [getWindowBlock]: indexing past the slice panics. *)
Definition getWindowBlock (w : windowBlocks) (key : Z) : res timeWindow :=
  match w !! FindBlock key with
  | Some wb => Ok wb
  | None => Panic
  end.

(** [timeWindowBucket.add]; it always returns a nil error. *)
Definition add (w : windowBlocks) (h : Z) (e : winEntry) : res windowBlocks :=
  bind (getWindowBlock w h) (fun wb =>
  Ok (<[FindBlock h := addShard wb h e]> w)).

(** *** ilookup *)

(** The state threaded through a scan: the result slice, the
    [expiryCount] variable, and the expiry bucket. *)
Record scanSt := {
  winEntries : list winEntry;
  expiryCount : Z;
  expiry : expiryBucket
}.

(** One iteration of a scanning loop. In the first loop of [ilookup] an
    expired entry is counted always ([always = true]); in every other
    loop it is counted only when [addExpiry] fails. *)
Definition scan1 (now : Z) (always : bool) (st : scanSt) (we : winEntry) : scanSt :=
  if isExpired now we then
    let '(eb, err) := addExpiry (expiry st) we in
    let counted := always || notNil err in
    {| winEntries := winEntries st;
       expiryCount := if counted then expiryCount st + 1 else expiryCount st;
       expiry := eb |}
  else
    {| winEntries := winEntries st ++ [we];
       expiryCount := expiryCount st;
       expiry := expiry st |}.

Definition scan (now : Z) (always : bool) (st : scanSt) (wes : list winEntry) : scanSt :=
  fold_left (scan1 now always) wes st.

(** [timeWindowBucket.ilookup], its two [if len(wEntries) > 0] blocks
    first. The first one scans the suffix of the frozen entries and
    sets the local [l]; it starts from [l = 0]. *)
Definition ilookupFrozen (now limit : Z) (st : scanSt) (wEntries : list winEntry)
    : res (Z * scanSt) :=
  let len := Z.of_nat (length wEntries) in
  if 0 <? len then
    let l := if len <? limit then len else limit in
    bind (slice wEntries (len - l) len) (fun s =>
    Ok (l, scan now true st s))
  else Ok (0, st).

(** The second one scans the suffix of the live entries, its length
    bounded by [limit + expiryCount - l]. *)
Definition ilookupEntries (now limit l : Z) (st : scanSt) (wEntries : list winEntry)
    : res scanSt :=
  let len := Z.of_nat (length wEntries) in
  if 0 <? len then
    let l := limit + expiryCount st - l in
    let l := if len <? l then len else l in
    bind (slice wEntries (len - l) len) (fun s =>
    Ok (scan now false st s))
  else Ok st.

(** The pair returned holds the result and the expiry bucket after the
    call. *)
Definition ilookup (w : windowBlocks) (eb : expiryBucket) (now : Z)
    (topicHash : Z) (limit : Z) : res (list winEntry * expiryBucket) :=
  bind (getWindowBlock w topicHash) (fun wb =>
  let st := {| winEntries := []; expiryCount := 0; expiry := eb |} in
  bind (ilookupFrozen now limit st (default [] (friezedEntries wb !! topicHash)))
       (fun '(l, st) =>
  bind (ilookupEntries now limit l st (default [] (tw_entries wb !! topicHash)))
       (fun st =>
  Ok (winEntries st, expiry st)))).

(** *** foreachTimeWindow *)

(** The callback works on the rest of the database, of some type [S];
    it returns the new state, the [stop] flag and the error. While it
    runs the shard is unlocked and other goroutines may call [add]:
    [arrivals i] lists the calls that take effect while the callback
    runs on shard [i]. *)
Section Foreach.
Variable S : Type.
Variable f : gmap Z (list winEntry) -> S -> S * bool * option error.
Variable arrivals : nat -> list (Z * winEntry).

Definition addAll (w : windowBlocks) (adds : list (Z * winEntry)) : res windowBlocks :=
  fold_left (fun r '(h, e) => bind r (fun w => add w h e)) adds (Ok w).

(** One iteration of the loop over the shards; [err] is the named
    result of the function. *)
Definition foreachShard (freeze_ : bool) (i : nat)
    (st : windowBlocks * S * option error) : res (windowBlocks * S * option error) :=
  let '(w, s, err) := st in
  match w !! i with
  | None => Panic
  | Some wb =>
      let wb := if freeze_ then freeze wb else wb in
      let wEntries := tw_entries wb in
      let w := <[i := wb]> w in
      bind (addAll w (arrivals i)) (fun w =>
      let '(s, stop, err1) := f wEntries s in
      match w !! i with
      | None => Panic
      | Some wb =>
          if stop || notNil err1 then
            Ok (if freeze_ then <[i := unFreeze wb]> w else w, s, err1)
          else
            Ok (if freeze_ then <[i := unFreeze (reset wb)]> w else w, s, err)
      end)
  end.

Definition foreachTimeWindow (freeze_ : bool) (w : windowBlocks) (s : S)
    : res (windowBlocks * S * option error) :=
  fold_left (fun r i => bind r (foreachShard freeze_ i)) (seq 0 nShards)
            (Ok (w, s, None)).
End Foreach.

(** *** Counting what a scan appends *)

Lemma slice_Ok {A} (s : list A) lo hi :
  0 <= lo <= hi -> hi <= Z.of_nat (length s) ->
  exists r, slice s lo hi = Ok r /\ Z.of_nat (length r) = hi - lo.
Proof.
  intros [H0 H1] H2. unfold slice.
  rewrite (proj2 (Z.leb_le _ _) H0), (proj2 (Z.leb_le _ _) H1),
    (proj2 (Z.leb_le _ _) H2). cbn.
  eexists. split; [done|]. rewrite length_take, length_drop. lia.
Qed.

(** A scan never shrinks the result and adds at most one entry per
    element scanned. *)
Lemma scan_length_le now always wes : forall st,
  (length (winEntries (scan now always st wes))
   <= length (winEntries st) + length wes)%nat.
Proof.
  induction wes as [|we wes IH]; intros st; cbn [scan fold_left length]; [lia|].
  fold (scan now always (scan1 now always st we) wes).
  etransitivity; [apply IH|].
  unfold scan1. destruct (isExpired now we).
  - destruct (addExpiry (expiry st) we) as [eb err]. cbn. lia.
  - cbn. rewrite length_app. cbn. lia.
Qed.

(** In the first loop every element either lands in the result or
    bumps [expiryCount]. *)
Lemma scan_always_count now wes : forall st,
  Z.of_nat (length (winEntries (scan now true st wes)))
    + (expiryCount (scan now true st wes) - expiryCount st)
  = Z.of_nat (length (winEntries st)) + Z.of_nat (length wes)
  /\ expiryCount st <= expiryCount (scan now true st wes).
Proof.
  induction wes as [|we wes IH]; intros st; cbn [scan fold_left length]; [lia|].
  fold (scan now true (scan1 now true st we) wes).
  destruct (IH (scan1 now true st we)) as [IH1 IH2].
  unfold scan1 in *. destruct (isExpired now we).
  - destruct (addExpiry (expiry st) we) as [eb err]. cbn in *. lia.
  - cbn in *. rewrite length_app in IH1. cbn in IH1. lia.
Qed.

(** The first block: what lands in the result plus what was counted as
    expired is exactly [l], and [l] is at most [limit]. *)
Lemma ilookupFrozen_spec now limit st F :
  0 <= limit -> winEntries st = [] -> expiryCount st = 0 ->
  exists l st',
    ilookupFrozen now limit st F = Ok (l, st') /\
    0 <= l <= limit /\ 0 <= expiryCount st' /\
    Z.of_nat (length (winEntries st')) + expiryCount st' = l.
Proof.
  intros Hlim Hw Hc. unfold ilookupFrozen.
  destruct (0 <? Z.of_nat (length F)) eqn:EF.
  - cbn zeta.
    set (l := if Z.of_nat (length F) <? limit then Z.of_nat (length F) else limit).
    assert (Hl : 0 <= l <= limit /\ l <= Z.of_nat (length F))
      by (subst l; destruct (Z.ltb_spec (Z.of_nat (length F)) limit); lia).
    destruct (slice_Ok F (Z.of_nat (length F) - l) (Z.of_nat (length F)))
      as (s & -> & Hs); [lia | lia |]. cbn [bind].
    exists l, (scan now true st s). split; [done|].
    destruct (scan_always_count now s st) as [Hs1 Hs2].
    rewrite Hw, Hc in *. cbn [length] in Hs1. lia.
  - exists 0, st. split; [done|]. rewrite Hw, Hc. cbn. lia.
Qed.

(** The second block appends at most [limit + expiryCount - l]. *)
Lemma ilookupEntries_spec now limit l st E :
  0 <= limit + expiryCount st - l ->
  exists st',
    ilookupEntries now limit l st E = Ok st' /\
    Z.of_nat (length (winEntries st'))
    <= Z.of_nat (length (winEntries st)) + (limit + expiryCount st - l).
Proof.
  intros Hl. unfold ilookupEntries.
  destruct (0 <? Z.of_nat (length E)) eqn:EE.
  - cbn zeta.
    set (l2 := if Z.of_nat (length E) <? limit + expiryCount st - l
               then Z.of_nat (length E) else limit + expiryCount st - l).
    assert (Hl2 : 0 <= l2 <= limit + expiryCount st - l /\ l2 <= Z.of_nat (length E))
      by (subst l2;
          destruct (Z.ltb_spec (Z.of_nat (length E)) (limit + expiryCount st - l)); lia).
    destruct (slice_Ok E (Z.of_nat (length E) - l2) (Z.of_nat (length E)))
      as (s & -> & Hs); [lia | lia |]. cbn [bind].
    eexists. split; [done|].
    pose proof (scan_length_le now false s st). lia.
  - eexists. split; [done|]. lia.
Qed.

(** [ilookup] returns, and returns at most [limit] entries. *)
Lemma ilookup_bound w eb now topicHash limit :
  0 <= limit -> (FindBlock topicHash < length w)%nat ->
  exists r eb', ilookup w eb now topicHash limit = Ok (r, eb') /\
                Z.of_nat (length r) <= limit.
Proof.
  intros Hlim Hidx. unfold ilookup, getWindowBlock.
  destruct (lookup_lt_is_Some_2 w _ Hidx) as [wb ->]. cbn [bind].
  destruct (ilookupFrozen_spec now limit
              {| winEntries := []; expiryCount := 0; expiry := eb |}
              (default [] (friezedEntries wb !! topicHash)) Hlim eq_refl eq_refl)
    as (l & st & -> & Hl & He & Hsum). cbn [bind].
  destruct (ilookupEntries_spec now limit l st
              (default [] (tw_entries wb !! topicHash)))
    as (st' & -> & Hle); [lia|]. cbn [bind].
  eexists _, _. split; [done|]. lia.
Qed.

(** *** Freeze, callback, unfreeze *)

(** What [unFreeze] leaves under a hash: the old slice with the frozen
    arrivals appended; hashes without arrivals are untouched. *)
Definition merged (es fes : gmap Z (list winEntry)) (h : Z) : option (list winEntry) :=
  match fes !! h with
  | Some f => Some (default [] (es !! h) ++ f)
  | None => es !! h
  end.

Lemma unFreeze_lookup wb h :
  tw_entries (unFreeze wb) !! h = merged (tw_entries wb) (friezedEntries wb) h.
Proof.
  unfold unFreeze, merged. cbn [tw_entries].
  generalize h. clear h.
  apply (map_fold_weak_ind
           (fun r m => forall h, r !! h = match m !! h with
                                          | Some f => Some (default [] (tw_entries wb !! h) ++ f)
                                          | None => tw_entries wb !! h
                                          end)).
  - intros h. by rewrite lookup_empty.
  - intros i x m r Hi IH h. unfold appendTo.
    destruct (decide (i = h)) as [->|Hne].
    + rewrite !lookup_insert_eq. rewrite IH, Hi. done.
    + rewrite !lookup_insert_ne by done. apply IH.
Qed.

Lemma unFreeze_flags wb :
  freezed (unFreeze wb) = false /\ friezedEntries (unFreeze wb) = ∅.
Proof. done. Qed.

(** The arrivals that land in shard [i], and what they make of a
    frozen map. *)
Definition arrivalsAt (i : nat) (adds : list (Z * winEntry)) : list (Z * winEntry) :=
  filter (fun he => FindBlock he.1 = i) adds.

Definition appendAll (m : gmap Z (list winEntry)) (adds : list (Z * winEntry))
  : gmap Z (list winEntry) :=
  fold_left (fun m he => appendTo m he.1 [he.2]) adds m.

(** While shard [i] is frozen, arrivals change nothing of it but its
    [friezedEntries]; arrivals for other shards leave it alone. *)
Lemma addAll_frozen i adds : forall (w : windowBlocks) wb,
  w !! i = Some wb -> freezed wb = true ->
  Forall (fun he => (FindBlock he.1 < length w)%nat) adds ->
  exists w', addAll w adds = Ok w' /\ length w' = length w /\
    w' !! i = Some {| freezed := true; tw_entries := tw_entries wb;
                      friezedEntries := appendAll (friezedEntries wb)
                                                  (arrivalsAt i adds) |}.
Proof.
  induction adds as [|[h e] adds IH]; intros w wb Hi Hfr Hrange.
  - exists w. split; [done|]. split; [done|]. rewrite Hi.
    destruct wb; cbn in *. by subst.
  - inversion Hrange as [|? ? Hh Hrange']; subst. cbn in Hh.
    unfold addAll. cbn [fold_left bind].
    unfold add at 2, getWindowBlock.
    destruct (lookup_lt_is_Some_2 w _ Hh) as [wbh Hwbh]. rewrite Hwbh. cbn [bind].
    fold (addAll (<[FindBlock h:=addShard wbh h e]> w) adds).
    unfold arrivalsAt. rewrite filter_cons. cbn [fst].
    destruct (decide (FindBlock h = i)) as [Heq|Hne].
    + subst i. rewrite Hi in Hwbh. inversion Hwbh; subst wbh.
      destruct (IH (<[FindBlock h:=addShard wb h e]> w) (addShard wb h e))
        as (w' & Hw' & Hlen & Hlk).
      * by apply list_lookup_insert_eq.
      * unfold addShard. by rewrite Hfr.
      * rewrite length_insert. exact Hrange'.
      * exists w'. split; [exact Hw'|]. split; [by rewrite Hlen, length_insert|].
        rewrite Hlk. unfold addShard. rewrite Hfr. done.
    + destruct (IH (<[FindBlock h:=addShard wbh h e]> w) wb) as (w' & Hw' & Hlen & Hlk).
      * by rewrite list_lookup_insert_ne.
      * exact Hfr.
      * rewrite length_insert. exact Hrange'.
      * exists w'. split; [exact Hw'|]. split; [by rewrite Hlen, length_insert|].
        exact Hlk.
Qed.

(** One iteration of [foreachTimeWindow] with [freeze = true]. *)
Lemma foreachShard_freeze {S} (f : gmap Z (list winEntry) -> S -> S * bool * option error)
    (arrivals : nat -> list (Z * winEntry)) i (w : windowBlocks) wb s err :
  w !! i = Some wb ->
  Forall (fun he => (FindBlock he.1 < length w)%nat) (arrivals i) ->
  let '(s', stop, err1) := f (tw_entries wb) s in
  let failed := stop || notNil err1 in
  let arrived := appendAll (friezedEntries wb) (arrivalsAt i (arrivals i)) in
  exists w' wb',
    foreachShard S f arrivals true i (w, s, err)
    = Ok (w', s', if failed then err1 else err) /\
    w' !! i = Some wb' /\
    freezed wb' = false /\
    friezedEntries wb' = ∅ /\
    forall h, tw_entries wb' !! h
              = merged (if failed then tw_entries wb else ∅) arrived h.
Proof.
  intros Hi Hrange.
  destruct (f (tw_entries wb) s) as [[s' stop] err1] eqn:Hf. cbn zeta.
  unfold foreachShard. rewrite Hi.
  destruct (addAll_frozen i (arrivals i) (<[i:=freeze wb]> w) (freeze wb))
    as (w1 & Hadd & Hlen & Hlk).
  { apply list_lookup_insert_eq. by apply lookup_lt_Some in Hi. }
  { done. }
  { by rewrite length_insert. }
  rewrite Hadd. cbn [bind]. cbn [freeze tw_entries]. rewrite Hf. rewrite Hlk.
  assert (Hi1 : (i < length w1)%nat)
    by (rewrite Hlen, length_insert; by apply lookup_lt_Some in Hi).
  destruct (stop || notNil err1) eqn:Hfail.
  - eexists _, _. split; [done|].
    split; [by apply list_lookup_insert_eq|].
    split; [done|]. split; [done|].
    intros h. by rewrite unFreeze_lookup.
  - eexists _, _. split; [done|].
    split; [by apply list_lookup_insert_eq|].
    split; [done|]. split; [done|].
    intros h. by rewrite unFreeze_lookup.
Qed.

(** *** The whole loop leaves every shard unfrozen *)

Definition thawed (w : windowBlocks) (j : nat) : Prop :=
  exists wb, w !! j = Some wb /\ freezed wb = false /\ friezedEntries wb = ∅.

(** Arrivals return, and leave a thawed shard thawed: what arrives for it
    goes to its entries. *)
Lemma addAll_thawed adds : forall (w : windowBlocks),
  Forall (fun he => (FindBlock he.1 < length w)%nat) adds ->
  exists w', addAll w adds = Ok w' /\ length w' = length w /\
             forall j, thawed w j -> thawed w' j.
Proof.
  induction adds as [|[h e] adds IH]; intros w Hrange.
  - exists w. done.
  - inversion Hrange as [|? ? Hh Hrange']; subst. cbn in Hh.
    unfold addAll. cbn [fold_left bind].
    unfold add at 2, getWindowBlock.
    destruct (lookup_lt_is_Some_2 w _ Hh) as [wbh Hwbh]. rewrite Hwbh. cbn [bind].
    fold (addAll (<[FindBlock h:=addShard wbh h e]> w) adds).
    destruct (IH (<[FindBlock h:=addShard wbh h e]> w)) as (w' & Hw' & Hlen & Hth).
    { by rewrite length_insert. }
    exists w'. split; [exact Hw'|]. split; [by rewrite Hlen, length_insert|].
    intros j (wb & Hj & Hf & He). apply Hth.
    destruct (decide (FindBlock h = j)) as [<-|Hne].
    + rewrite Hwbh in Hj. inversion Hj; subst wbh.
      exists (addShard wb h e). split; [by apply list_lookup_insert_eq|].
      unfold addShard. rewrite Hf. done.
    + exists wb. split; [by rewrite list_lookup_insert_ne|done].
Qed.

Lemma foreachShard_thawed {S} (f : gmap Z (list winEntry) -> S -> S * bool * option error)
    (arrivals : nat -> list (Z * winEntry)) k (w : windowBlocks) s err :
  (k < length w)%nat ->
  Forall (fun he => (FindBlock he.1 < length w)%nat) (arrivals k) ->
  (forall j, (j < k)%nat -> thawed w j) ->
  exists w' s' err',
    foreachShard S f arrivals true k (w, s, err) = Ok (w', s', err') /\
    length w' = length w /\
    forall j, (j < Datatypes.S k)%nat -> thawed w' j.
Proof.
  intros Hk Hrange Hinv. unfold foreachShard.
  destruct (lookup_lt_is_Some_2 w _ Hk) as [wb Hwb]. rewrite Hwb.
  destruct (addAll_thawed (arrivals k) (<[k:=freeze wb]> w)) as (w1 & Hadd & Hlen & Hth).
  { by rewrite length_insert. }
  rewrite Hadd. cbn [bind]. rewrite length_insert in Hlen.
  destruct (f (tw_entries (freeze wb)) s) as [[s' stop] err1].
  assert (Hk1 : (k < length w1)%nat) by lia.
  destruct (lookup_lt_is_Some_2 w1 _ Hk1) as [wb1 Hwb1]. rewrite Hwb1.
  assert (Hdone : forall wbk,
             freezed wbk = false -> friezedEntries wbk = ∅ ->
             length (<[k:=wbk]> w1) = length w /\
             forall j, (j < Datatypes.S k)%nat -> thawed (<[k:=wbk]> w1) j).
  { intros wbk Hf He. split; [by rewrite length_insert|].
    intros j Hj. destruct (decide (j = k)) as [->|Hne].
    - exists wbk. split; [by apply list_lookup_insert_eq|done].
    - destruct (Hth j) as (wbj & Hjl & Hjf & Hje).
      { destruct (Hinv j ltac:(lia)) as (wbj & Hjl & Hjf & Hje).
        exists wbj. split; [by rewrite list_lookup_insert_ne|done]. }
      exists wbj. split; [by rewrite list_lookup_insert_ne|done]. }
  destruct (stop || notNil err1); eexists _, _, _; (split; [done|]);
    by apply Hdone.
Qed.

(** [foreachTimeWindow] with [freeze = true] returns, and afterwards every
    shard is unfrozen and has no frozen entries left, whatever the callback
    answered on it. *)
Lemma foreachTimeWindow_thawed {S} (f : gmap Z (list winEntry) -> S -> S * bool * option error)
    (arrivals : nat -> list (Z * winEntry)) (w : windowBlocks) s :
  length w = nShards ->
  (forall k, Forall (fun he => (FindBlock he.1 < nShards)%nat) (arrivals k)) ->
  exists w' s' err',
    foreachTimeWindow S f arrivals true w s = Ok (w', s', err') /\
    length w' = nShards /\
    forall j, (j < nShards)%nat -> thawed w' j.
Proof.
  intros Hlen Hrange. unfold foreachTimeWindow.
  assert (Hpre : forall m, (m <= nShards)%nat ->
             exists w' s' err',
               fold_left (fun r i => bind r (foreachShard S f arrivals true i))
                 (seq 0 m) (Ok (w, s, None)) = Ok (w', s', err') /\
               length w' = nShards /\
               forall j, (j < m)%nat -> thawed w' j).
  { induction m as [|m IH]; intros Hm.
    - exists w, s, None. split; [done|]. split; [done|]. intros j Hj. lia.
    - destruct IH as (w1 & s1 & err1 & Hfold & Hl1 & Hinv); [lia|].
      rewrite seq_S, fold_left_app, Hfold. cbn [fold_left bind Nat.add].
      destruct (foreachShard_thawed f arrivals m w1 s1 err1) as (w2 & s2 & err2 & H2 & Hl2 & Hinv2).
      + lia.
      + rewrite Hl1. apply Hrange.
      + exact Hinv.
      + exists w2, s2, err2. split; [exact H2|]. split; [lia|]. exact Hinv2. }
  apply Hpre. lia.
Qed.
End Bucket.

Arguments Build_scanSt {expiryBucket} _ _ _.
Arguments winEntries {expiryBucket} _.
Arguments expiryCount {expiryBucket} _.
Arguments expiry {expiryBucket} _.
Arguments scan1 {expiryBucket} addExpiry now always st we.
Arguments scan {expiryBucket} addExpiry now always st wes.
Arguments ilookup FindBlock {expiryBucket} addExpiry w eb now topicHash limit.

(** ** The window file and the window writer *)

(** The window file is used through [Slice(start, end)] only, so a file
    is that method. *)
Definition file : Type := Z -> Z -> res (list byte).

(** [windowWriter]: the fields of the embedded [timeWindowBucket] that
    [append] touches ([file], [windowIdx]), the block cache and the lease
    table. *)
Record windowWriter := {
  ww_file : file;
  windowIdx : Z;                   (* int32 *)
  winBlocks : gmap Z winBlock;     (* map[int32]winBlock *)
  leasing : gmap Z (list Z)        (* map[int32][]uint64 *)
}.

(** The locals of [append] that live across loop iterations. *)
Record appendSt := {
  a_ww : windowWriter;
  a_winIdx : Z;                    (* winIdx, int32 *)
  a_w : winBlock                   (* w *)
}.

Definition setCutoff (w : winBlock) (c : Z) : winBlock :=
  {| topicHash := topicHash w; entries := entries w; next := next w; cutoff := c;
     entryIdx := entryIdx w; dirty := dirty w; leased := leased w |}.

Definition setTopicHash (w : winBlock) (h : Z) : winBlock :=
  {| topicHash := h; entries := entries w; next := next w; cutoff := cutoff w;
     entryIdx := entryIdx w; dirty := dirty w; leased := leased w |}.

Definition setLeased (w : winBlock) : winBlock :=
  {| topicHash := topicHash w; entries := entries w; next := next w; cutoff := cutoff w;
     entryIdx := entryIdx w; dirty := dirty w; leased := true |}.

(** [w.entries[w.entryIdx] = e; w.dirty = true; w.entryIdx++]. *)
Definition pushEntry (w : winBlock) (e : winEntry) : winBlock :=
  {| topicHash := topicHash w;
     entries := <[Z.to_nat (entryIdx w) := e]> (entries w);
     next := next w; cutoff := cutoff w;
     entryIdx := toUint16 (entryIdx w + 1);
     dirty := true; leased := leased w |}.

(** The inner loop of [append]: does [seq] occur in the entry array? *)
Definition hasSeq (w : winBlock) (s : Z) : bool :=
  existsb (fun e => Seq e =? s) (entries w).

Section Writer.
Variable blockSize : nat.
Variable seqsPerWindowBlock : nat.

(** [int64(blockSize * uint32(idx))]: the product is taken in [uint32]. *)
Definition blockOff (idx : Z) : Z :=
  toUint32 (Z.of_nat blockSize * toUint32 idx).

(** [winBlockOffset]: the same offset computed in [int64]. *)
Definition winBlockOffset (idx : Z) : Z :=
  toInt64 (Z.of_nat blockSize * idx).

(** [windowHandle.read] for a handle on a fresh (zero) block. *)
Definition read (f : file) (off : Z) : res winBlock :=
  bind (f off (off + Z.of_nat blockSize)) (fun buf =>
  UnmarshalBinary seqsPerWindowBlock (zeroBlock seqsPerWindowBlock) buf).

(** [winBlock{topicHash: topicHash, next: next}]. *)
Definition freshBlock (h nxt : Z) : winBlock :=
  {| topicHash := h; entries := repeat zeroEntry seqsPerWindowBlock;
     next := nxt; cutoff := 0; entryIdx := 0; dirty := false; leased := false |}.

(** The block of code before the loop: pick the block index and the
    working block. [Err] is the early [return off, err]. *)
Definition appendInit (wb : windowWriter) (topicHash off : Z) : res appendSt :=
  let '(wb, winIdx) :=
    if off =? 0 then
      let wb := {| ww_file := ww_file wb; windowIdx := toInt32 (windowIdx wb + 1);
                   winBlocks := winBlocks wb; leasing := leasing wb |} in
      (wb, windowIdx wb)
    else (wb, toInt32 (Z.quot off (Z.of_nat blockSize))) in
  let cached := winBlocks wb !! winIdx in
  let w := default (zeroBlock seqsPerWindowBlock) cached in
  bind (if negb (bool_decide (is_Some cached)) && (0 <? off) && (winIdx <=? windowIdx wb)
        then match read (ww_file wb) off with
             | Ok w' => Ok (setLeased w')
             | Err io_EOF => Ok (setLeased (zeroBlock seqsPerWindowBlock))
             | Err e => Err e
             | Panic => Panic
             end
        else Ok w) (fun w =>
  Ok {| a_ww := wb; a_winIdx := winIdx; a_w := setTopicHash w topicHash |}).

(** Sealing a full block: stamp the cutoff, store it, take the next
    block index and start a block linked to the sealed one. *)
Definition seal (now : Z) (st : appendSt) : appendSt :=
  let w := a_w st in
  let wb := a_ww st in
  let nxt := blockOff (a_winIdx st) in
  let wb := {| ww_file := ww_file wb;
               windowIdx := toInt32 (windowIdx wb + 1);
               winBlocks := <[a_winIdx st := setCutoff w now]> (winBlocks wb);
               leasing := leasing wb |} in
  {| a_ww := wb; a_winIdx := windowIdx wb; a_w := freshBlock (topicHash w) nxt |}.

(** One iteration of the loop over [wEntries]. *)
Definition appendEntry (now : Z) (st : appendSt) (we : winEntry) : res appendSt :=
  if Seq we =? 0 then Ok st
  else if hasSeq (a_w st) (Seq we) then Ok st
  else
    let st := if entryIdx (a_w st) =? Z.of_nat seqsPerWindowBlock
              then seal now st else st in
    let w := a_w st in
    let wb := a_ww st in
    let wb := if leased w
              then {| ww_file := ww_file wb; windowIdx := windowIdx wb;
                      winBlocks := winBlocks wb;
                      leasing := <[a_winIdx st :=
                                     default [] (leasing wb !! a_winIdx st) ++ [Seq we]]>
                                   (leasing wb) |}
              else wb in
    if (Z.to_nat (entryIdx w) <? length (entries w))%nat
    then Ok {| a_ww := wb; a_winIdx := a_winIdx st;
               a_w := pushEntry w {| Seq := Seq we; ExpiresAt := ExpiresAt we |} |}
    else Panic.

Definition appendLoop (now : Z) (st : appendSt) (wEntries : list winEntry) : res appendSt :=
  fold_left (fun r we => bind r (fun st => appendEntry now st we)) wEntries (Ok st).

(** [windowWriter.append]: the writer after the call and [newOff]. *)
Definition append (wb : windowWriter) (now : Z) (topicHash off : Z)
    (wEntries : list winEntry) : res (windowWriter * Z) :=
  bind (appendInit wb topicHash off) (fun st =>
  bind (appendLoop now st wEntries) (fun st =>
  let wb := a_ww st in
  Ok ({| ww_file := ww_file wb; windowIdx := windowIdx wb;
         winBlocks := <[a_winIdx st := a_w st]> (winBlocks wb);
         leasing := leasing wb |},
      blockOff (a_winIdx st)))).
End Writer.

(** ** Properties of [append] *)

Section WriterFacts.
Variable blockSize : nat.
Variable n : nat.   (* seqsPerWindowBlock *)

(** An entry with [seq = 0], or whose [seq] is already in the working
    block, leaves every local and the writer as they were. *)
Lemma appendEntry_skip now st we :
  Seq we = 0 \/ hasSeq (a_w st) (Seq we) = true ->
  appendEntry blockSize n now st we = Ok st.
Proof.
  intros [H0|Hd]; unfold appendEntry.
  - by rewrite H0.
  - rewrite Hd. by destruct (Seq we =? 0).
Qed.

Lemma appendLoop_skip now st wes :
  Forall (fun we => Seq we = 0 \/ hasSeq (a_w st) (Seq we) = true) wes ->
  appendLoop blockSize n now st wes = Ok st.
Proof.
  induction 1 as [|we wes Hwe _ IH]; [done|].
  unfold appendLoop. cbn [fold_left bind].
  rewrite appendEntry_skip by exact Hwe. exact IH.
Qed.

(** A fresh entry with room left in the working block goes into that
    block, at index [entryIdx]; no block index is taken, nothing is
    stored in the cache. *)
Lemma appendEntry_room now st we :
  Seq we <> 0 -> hasSeq (a_w st) (Seq we) = false ->
  entryIdx (a_w st) <> Z.of_nat n ->
  (Z.to_nat (entryIdx (a_w st)) < length (entries (a_w st)))%nat ->
  exists st',
    appendEntry blockSize n now st we = Ok st' /\
    a_winIdx st' = a_winIdx st /\
    windowIdx (a_ww st') = windowIdx (a_ww st) /\
    winBlocks (a_ww st') = winBlocks (a_ww st) /\
    a_w st' = pushEntry (a_w st) we.
Proof.
  intros Hs Hd Hfull Hlt. unfold appendEntry.
  rewrite (proj2 (Z.eqb_neq _ _) Hs), Hd, (proj2 (Z.eqb_neq _ _) Hfull).
  rewrite (proj2 (Nat.ltb_lt _ _) Hlt).
  eexists. split; [done|]. cbn.
  destruct we. by destruct (leased (a_w st)).
Qed.

(** A fresh entry that finds the working block full seals it: the block
    is stored under its index with [cutoff = now], the next block index
    is taken, and the entry opens a block whose [next] is the offset of
    the sealed one. *)
Lemma appendEntry_full now st we :
  Seq we <> 0 -> hasSeq (a_w st) (Seq we) = false ->
  entryIdx (a_w st) = Z.of_nat n -> (0 < n)%nat ->
  exists st',
    appendEntry blockSize n now st we = Ok st' /\
    windowIdx (a_ww st') = toInt32 (windowIdx (a_ww st) + 1) /\
    a_winIdx st' = windowIdx (a_ww st') /\
    winBlocks (a_ww st') = <[a_winIdx st := setCutoff (a_w st) now]> (winBlocks (a_ww st)) /\
    a_w st' = pushEntry (freshBlock n (topicHash (a_w st)) (blockOff blockSize (a_winIdx st)))
                        we.
Proof.
  intros Hs Hd Hfull Hn. unfold appendEntry.
  rewrite (proj2 (Z.eqb_neq _ _) Hs), Hd, (proj2 (Z.eqb_eq _ _) Hfull).
  cbn [seal a_w a_ww a_winIdx freshBlock leased entryIdx entries].
  rewrite repeat_length.
  rewrite (proj2 (Nat.ltb_lt (Z.to_nat 0) n)) by (cbn; lia).
  eexists. split; [done|]. cbn. by destruct we.
Qed.

(** The opened block holds the entry at index 0, counts one entry,
    carries the topic hash on, and has no cutoff yet. *)
Lemma pushEntry_fresh h nxt we :
  (0 < n)%nat ->
  let w := pushEntry (freshBlock n h nxt) we in
  next w = nxt /\ topicHash w = h /\ entryIdx w = 1 /\ cutoff w = 0 /\
  entries w !! 0%nat = Some we /\ length (entries w) = n.
Proof.
  intros Hn. cbn. repeat split.
  - destruct n; [lia|]. done.
  - by rewrite length_insert, repeat_length.
Qed.

(** The working block chosen for a non-zero offset. *)
Lemma appendInit_cached wb h off w :
  off <> 0 ->
  winBlocks wb !! toInt32 (Z.quot off (Z.of_nat blockSize)) = Some w ->
  appendInit blockSize n wb h off
  = Ok {| a_ww := wb; a_winIdx := toInt32 (Z.quot off (Z.of_nat blockSize));
          a_w := setTopicHash w h |}.
Proof.
  intros Hoff Hc. unfold appendInit.
  rewrite (proj2 (Z.eqb_neq _ _) Hoff), Hc.
  rewrite bool_decide_eq_true_2 by eauto. done.
Qed.

Lemma appendInit_read wb h off w :
  0 < off ->
  winBlocks wb !! toInt32 (Z.quot off (Z.of_nat blockSize)) = None ->
  toInt32 (Z.quot off (Z.of_nat blockSize)) <= windowIdx wb ->
  read blockSize n (ww_file wb) off = Ok w ->
  appendInit blockSize n wb h off
  = Ok {| a_ww := wb; a_winIdx := toInt32 (Z.quot off (Z.of_nat blockSize));
          a_w := setTopicHash (setLeased w) h |}.
Proof.
  intros Hoff Hc Hle Hr. unfold appendInit.
  destruct (Z.eqb_spec off 0) as [->|_]; [lia|]. rewrite Hc. cbn [default].
  rewrite bool_decide_eq_false_2 by (intros [? ?]; done).
  rewrite (proj2 (Z.ltb_lt _ _) Hoff), (proj2 (Z.leb_le _ _) Hle). cbn [negb andb].
  by rewrite Hr.
Qed.

(** With offset 0 no block is designated: the next block index is taken,
    and nothing is read from the file. *)
Lemma appendInit_fresh wb h :
  appendInit blockSize n wb h 0
  = Ok {| a_ww := {| ww_file := ww_file wb; windowIdx := toInt32 (windowIdx wb + 1);
                     winBlocks := winBlocks wb; leasing := leasing wb |};
          a_winIdx := toInt32 (windowIdx wb + 1);
          a_w := setTopicHash
                   (default (zeroBlock n) (winBlocks wb !! toInt32 (windowIdx wb + 1))) h |}.
Proof.
  unfold appendInit. cbn [Z.eqb windowIdx winBlocks].
  change (0 <? 0) with false. by rewrite andb_false_r.
Qed.
End WriterFacts.

(** ** lookup: the in-memory entries, then the on-disk chain *)

Section Lookup.
Variable blockSize : nat.
Variable seqsPerWindowBlock : nat.
Variable FindBlock : Z -> nat.
Variable expiryBucket : Type.
Variable addExpiry : expiryBucket -> winEntry -> expiryBucket * option error.

(** The variables that the callback of [lookup] captures and updates:
    [winEntries] and [expiryCount] (with the expiry bucket) and the
    parameter [limit], which the callback overwrites. *)
Record lookupSt := {
  l_scan : scanSt expiryBucket;
  l_limit : Z
}.

(** The callback, applied to the block just read. It returns the
    captured variables and the [stop] flag; its error is always nil. *)
Definition visit (now topicHash_ cutoff_ : Z) (st : lookupSt) (b : winBlock)
    : res (lookupSt * bool) :=
  if negb (topicHash b =? topicHash_) then Ok (st, true)
  else
    let sc := l_scan st in
    let limit := l_limit st in
    let len := Z.of_nat (length (winEntries sc)) in
    bind (if limit - entryIdx b <? len then
            let limit := limit - len in
            bind (slice (entries b) (toUint16 (entryIdx b - toUint16 limit)) (entryIdx b))
              (fun s =>
            let sc := scan addExpiry now false sc s in
            Ok (sc, limit, limit <=? Z.of_nat (length (winEntries sc))))
          else Ok (sc, limit, false)) (fun '(sc, limit, stop) =>
    if stop then Ok ({| l_scan := sc; l_limit := limit |}, true)
    else
      bind (slice (entries b) 0 (entryIdx b)) (fun s =>
      let sc := scan addExpiry now false sc s in
      Ok ({| l_scan := sc; l_limit := limit |}, Cutoff b cutoff_))).

(** The [next] closure: read the block at [off], run the callback, go
    on to [b.next] unless told to stop or the chain ends. A read error
    ends the walk (the caller ignores it). The loop has no bound of its
    own: [fuel] counts the blocks that may still be read, and [None]
    means it ran out. *)
Fixpoint follow (fuel : nat) (f : file) (now topicHash_ cutoff_ : Z)
    (off : Z) (st : lookupSt) : option (res lookupSt) :=
  match fuel with
  | O => None
  | Datatypes.S fuel' =>
      match read blockSize seqsPerWindowBlock f off with
      | Err _ => Some (Ok st)
      | Panic => Some Panic
      | Ok b =>
          match visit now topicHash_ cutoff_ st b with
          | Err e => Some (Err e)
          | Panic => Some Panic
          | Ok (st, stop) =>
              if stop then Some (Ok st)
              else if next b =? 0 then Some (Ok st)
              else follow fuel' f now topicHash_ cutoff_ (next b) st
          end
      end
  end.

(** [timeWindowBucket.lookup]. *)
Definition lookup (fuel : nat) (f : file) (w : list timeWindow) (eb : expiryBucket)
    (now : Z) (topicHash_ off cutoff_ limit : Z)
    : option (res (list winEntry * expiryBucket)) :=
  match ilookup FindBlock addExpiry w eb now topicHash_ limit with
  | Err e => Some (Err e)
  | Panic => Some Panic
  | Ok (winEntries0, eb) =>
      if limit <=? Z.of_nat (length winEntries0) then Some (Ok (winEntries0, eb))
      else
        let st := {| l_scan := {| winEntries := winEntries0; expiryCount := 0;
                                  expiry := eb |};
                     l_limit := limit |} in
        match follow fuel f now topicHash_ cutoff_ off st with
        | None => None
        | Some r => Some (bind r (fun st =>
                      Ok (winEntries (l_scan st), expiry (l_scan st))))
        end
  end.
End Lookup.

Arguments l_scan {expiryBucket} _.
Arguments l_limit {expiryBucket} _.
Arguments Build_lookupSt {expiryBucket} _ _.
Arguments visit {expiryBucket} addExpiry now topicHash_ cutoff_ st b.
Arguments follow blockSize seqsPerWindowBlock {expiryBucket} addExpiry
  fuel f now topicHash_ cutoff_ off st.
Arguments lookup blockSize seqsPerWindowBlock FindBlock {expiryBucket} addExpiry
  fuel f w eb now topicHash_ off cutoff_ limit.

(** ** What [lookup] collects from a chain without expired entries *)

(** The entries of a block that are in use. *)
Definition live (b : winBlock) : list winEntry :=
  take (Z.to_nat (entryIdx b)) (entries b).

(** The last [k] elements of a slice. *)
Definition lastn {A} (k : Z) (l : list A) : list A :=
  drop (length l - Z.to_nat k) l.

(** The walk over the chain, told on the list of its blocks, newest
    first: a block of another topic ends it; a block that holds more than
    is still needed gives its last entries and ends it; any other block
    gives all its entries, and ends the walk if its cutoff is reached. *)
Fixpoint collect (topicHash_ cutoff_ limit : Z) (acc : list winEntry)
    (bs : list winBlock) : list winEntry :=
  match bs with
  | [] => acc
  | b :: bs' =>
      if negb (topicHash b =? topicHash_) then acc
      else if limit - entryIdx b <? Z.of_nat (length acc)
           then acc ++ lastn (limit - Z.of_nat (length acc)) (live b)
           else if Cutoff b cutoff_ then acc ++ live b
                else collect topicHash_ cutoff_ limit (acc ++ live b) bs'
  end.

(** A block as the walk needs it: the entry count is within the array,
    and no entry in use is expired at time [now]. *)
Definition blockOk (now : Z) (b : winBlock) : Prop :=
  0 <= entryIdx b <= Z.of_nat (length (entries b)) /\ entryIdx b < 2 ^ 16 /\
  Forall (fun e => isExpired now e = false) (live b).

Lemma collect_length h cut now limit bs : forall acc,
  Forall (blockOk now) bs -> Z.of_nat (length acc) <= limit ->
  Z.of_nat (length (collect h cut limit acc bs)) <= limit.
Proof.
  induction bs as [|b bs IH]; intros acc Hok Hacc; cbn [collect]; [done|].
  inversion Hok as [|? ? (Hidx & H16 & Hlive) Hok']; subst.
  assert (Hlen : Z.of_nat (length (live b)) = entryIdx b)
    by (unfold live; rewrite length_take; lia).
  destruct (negb (topicHash b =? h)); [done|].
  destruct (Z.ltb_spec (limit - entryIdx b) (Z.of_nat (length acc))) as [Hlt|Hge].
  - unfold lastn. rewrite length_app, length_drop. lia.
  - destruct (Cutoff b cut).
    + rewrite length_app. lia.
    + apply IH; [done|]. rewrite length_app. lia.
Qed.

(** What is collected extends [acc] by a sublist of the chain's entries
    in use, in chain order. *)
Lemma collect_sublist h cut limit bs : forall acc,
  exists d, collect h cut limit acc bs = acc ++ d /\ sublist d (flat_map live bs).
Proof.
  induction bs as [|b bs IH]; intros acc; cbn [collect flat_map].
  - exists []. by rewrite app_nil_r.
  - destruct (negb (topicHash b =? h)).
    { exists []. rewrite app_nil_r. split; [done|]. apply sublist_nil_l. }
    destruct (limit - entryIdx b <? Z.of_nat (length acc)).
    { eexists. split; [done|]. apply sublist_inserts_r.
      unfold lastn. apply sublist_drop. }
    destruct (Cutoff b cut).
    { eexists. split; [done|]. by apply sublist_inserts_r. }
    destruct (IH (acc ++ live b)) as (d & -> & Hd).
    exists (live b ++ d). rewrite app_assoc. split; [done|].
    by apply sublist_app.
Qed.

Section LookupFacts.
Variable blockSize : nat.
Variable n : nat.   (* seqsPerWindowBlock *)
Variable FindBlock : Z -> nat.
Variable expiryBucket : Type.
Variable addExpiry : expiryBucket -> winEntry -> expiryBucket * option error.

(** [chain f off bs]: walking the [next] offsets from [off] in file [f]
    reads the blocks [bs] and then ends, at a block whose [next] is 0
    or at an offset that cannot be read. *)
Inductive chain (f : file) : Z -> list winBlock -> Prop :=
| chain_unreadable off e :
    read blockSize n f off = Err e -> chain f off []
| chain_end off b :
    read blockSize n f off = Ok b -> next b = 0 -> chain f off [b]
| chain_link off b bs :
    read blockSize n f off = Ok b -> next b <> 0 ->
    chain f (next b) bs -> chain f off (b :: bs).

(** Scanning entries none of which is expired appends them all and
    leaves the expiry bucket alone. *)
Lemma scan_live now always s : forall (st : scanSt expiryBucket),
  Forall (fun e => isExpired now e = false) s ->
  scan addExpiry now always st s
  = {| winEntries := winEntries st ++ s; expiryCount := expiryCount st;
       expiry := expiry st |}.
Proof.
  induction s as [|e s IH]; intros st Hs; cbn [scan fold_left].
  - rewrite app_nil_r. by destruct st.
  - inversion Hs as [|? ? He Hs']; subst.
    fold (scan addExpiry now always (scan1 addExpiry now always st e) s).
    rewrite IH by exact Hs'. unfold scan1. rewrite He. cbn.
    by rewrite <- app_assoc.
Qed.

Lemma slice_live b :
  0 <= entryIdx b <= Z.of_nat (length (entries b)) ->
  slice (entries b) 0 (entryIdx b) = Ok (live b).
Proof.
  intros [H0 H1]. unfold slice, live.
  rewrite (proj2 (Z.leb_le _ _) H0), (proj2 (Z.leb_le _ _) H1). cbn.
  by rewrite Z.sub_0_r.
Qed.

(** The partial slice [b.entries[b.entryIdx-uint16(limit) : b.entryIdx]]
    when fewer than [entryIdx] entries are still needed. *)
Lemma slice_lastn b r :
  0 <= r < entryIdx b -> entryIdx b <= Z.of_nat (length (entries b)) ->
  entryIdx b < 2 ^ 16 ->
  slice (entries b) (toUint16 (entryIdx b - toUint16 r)) (entryIdx b)
  = Ok (lastn r (live b)).
Proof.
  intros Hr Hlen H16. unfold toUint16.
  rewrite (Z.mod_small r) by lia.
  rewrite (Z.mod_small (entryIdx b - r)) by lia.
  unfold slice, lastn, live.
  rewrite (proj2 (Z.leb_le 0 _)) by lia.
  rewrite (proj2 (Z.leb_le (entryIdx b - r) _)) by lia.
  rewrite (proj2 (Z.leb_le _ _) Hlen). cbn [andb]. f_equal.
  rewrite length_take.
  rewrite skipn_firstn_comm. f_equal; [lia|]. f_equal. lia.
Qed.

(** The callback on a block of the topic, no entry of it expired. *)
Lemma visit_spec now h cut (st : lookupSt expiryBucket) b :
  blockOk now b -> topicHash b = h ->
  Z.of_nat (length (winEntries (l_scan st))) <= l_limit st ->
  let acc := winEntries (l_scan st) in
  exists st' stop,
    visit addExpiry now h cut st b = Ok (st', stop) /\
    expiry (l_scan st') = expiry (l_scan st) /\
    if l_limit st - entryIdx b <? Z.of_nat (length acc)
    then stop = true /\
         winEntries (l_scan st') = acc ++ lastn (l_limit st - Z.of_nat (length acc)) (live b)
    else stop = Cutoff b cut /\ l_limit st' = l_limit st /\
         winEntries (l_scan st') = acc ++ live b.
Proof.
  intros (Hidx & H16 & Hlive) Hh Hacc acc. unfold visit.
  rewrite Hh, Z.eqb_refl. cbn [negb]. fold acc.
  destruct (Z.ltb_spec (l_limit st - entryIdx b) (Z.of_nat (length acc))) as [Hlt|Hge].
  - rewrite slice_lastn by (subst acc; lia). cbn [bind].
    assert (Hl : Forall (fun e => isExpired now e = false)
                   (lastn (l_limit st - Z.of_nat (length acc)) (live b))).
    { unfold lastn. rewrite <- (take_drop (length (live b) -
                               Z.to_nat (l_limit st - Z.of_nat (length acc))) (live b))
        in Hlive.
      by apply Forall_app in Hlive as [_ ?]. }
    rewrite scan_live by exact Hl. cbn [winEntries].
    assert (HlenX : Z.of_nat (length (lastn (l_limit st - Z.of_nat (length acc)) (live b)))
                    = l_limit st - Z.of_nat (length acc))
      by (unfold lastn, live; rewrite length_drop, length_take; subst acc; lia).
    rewrite (proj2 (Z.leb_le _ _)) by (rewrite length_app; lia).
    eexists _, _. split; [done|]. cbn. done.
  - cbn [bind]. rewrite slice_live by lia. cbn [bind].
    rewrite scan_live by exact Hlive.
    eexists _, _. split; [done|]. cbn. done.
Qed.

(** With fuel for every block of the chain, the walk returns what
    [collect] tells. *)
Lemma follow_spec now h cut f off bs :
  chain f off bs ->
  forall (st : lookupSt expiryBucket) fuel,
  Forall (blockOk now) bs ->
  Z.of_nat (length (winEntries (l_scan st))) <= l_limit st ->
  (length bs < fuel)%nat ->
  exists st',
    follow blockSize n addExpiry fuel f now h cut off st = Some (Ok st') /\
    winEntries (l_scan st') = collect h cut (l_limit st) (winEntries (l_scan st)) bs /\
    expiry (l_scan st') = expiry (l_scan st).
Proof.
  induction 1 as [off e Hr | off b Hr Hn | off b bs Hr Hn Hch IH];
    intros st fuel Hok Hacc Hfuel;
    (destruct fuel as [|fuel]; [cbn in Hfuel; lia|]); cbn [follow]; rewrite Hr.
  - exists st. done.
  - inversion Hok as [|? ? Hb _]; subst. cbn [collect].
    destruct (Z.eqb_spec (topicHash b) h) as [Hh|Hh]; cbn [negb].
    + destruct (visit_spec now h cut st b Hb Hh Hacc) as (st' & stop & -> & He & Hv).
      destruct (l_limit st - entryIdx b <? _).
      * destruct Hv as [-> Hv]. exists st'. done.
      * destruct Hv as (-> & Hl & Hv). rewrite (proj2 (Z.eqb_eq _ _) Hn).
        exists st'. split; [by destruct (Cutoff b cut)|].
        split; [|done]. rewrite Hv. by destruct (Cutoff b cut).
    + unfold visit. rewrite (proj2 (Z.eqb_neq _ _) Hh). cbn. exists st. done.
  - inversion Hok as [|? ? Hb Hok']; subst. cbn [collect].
    destruct (Z.eqb_spec (topicHash b) h) as [Hh|Hh]; cbn [negb].
    + destruct (visit_spec now h cut st b Hb Hh Hacc) as (st' & stop & -> & He & Hv).
      destruct (Z.ltb_spec (l_limit st - entryIdx b)
                  (Z.of_nat (length (winEntries (l_scan st))))) as [Hlt|Hge].
      * destruct Hv as [-> Hv]. exists st'. done.
      * destruct Hv as (-> & Hl & Hv).
        destruct (Cutoff b cut); [exists st'; done|].
        rewrite (proj2 (Z.eqb_neq _ _) Hn).
        destruct (IH st' fuel Hok') as (st'' & Hf & Hw & He').
        { destruct Hb as (Hidx & _ & _).
          rewrite Hv, Hl, length_app. unfold live. rewrite length_take. lia. }
        { cbn in Hfuel. lia. }
        exists st''. split; [exact Hf|]. rewrite Hw, Hv, Hl, He', He. done.
    + unfold visit. rewrite (proj2 (Z.eqb_neq _ _) Hh). cbn. exists st. done.
Qed.
End LookupFacts.

(** ** What [ilookup] returns *)

Section IlookupFacts.
Variable FindBlock : Z -> nat.
Variable expiryBucket : Type.
Variable addExpiry : expiryBucket -> winEntry -> expiryBucket * option error.

Definition notExpired (now : Z) (e : winEntry) : bool := negb (isExpired now e).

(** A scan appends the scanned entries that are not expired, in their
    order. *)
Lemma scan_filter now always s : forall (st : scanSt expiryBucket),
  winEntries (scan addExpiry now always st s)
  = winEntries st ++ List.filter (notExpired now) s.
Proof.
  induction s as [|e s IH]; intros st; cbn [scan fold_left List.filter].
  - by rewrite app_nil_r.
  - fold (scan addExpiry now always (scan1 addExpiry now always st e) s).
    rewrite IH. unfold scan1, notExpired.
    destruct (isExpired now e); cbn [negb].
    + by destruct (addExpiry (expiry st) e).
    + cbn [winEntries]. by rewrite <- app_assoc.
Qed.

Lemma slice_suffix {A} (s r : list A) lo :
  slice s lo (Z.of_nat (length s)) = Ok r ->
  r = drop (Z.to_nat lo) s /\ 0 <= lo <= Z.of_nat (length s).
Proof.
  unfold slice.
  destruct (Z.leb_spec 0 lo); [|discriminate].
  destruct (Z.leb_spec lo (Z.of_nat (length s))); [|discriminate].
  rewrite Z.leb_refl. cbn [andb]. intros Heq; inversion Heq; subst; clear Heq.
  split; [|lia]. apply take_ge. rewrite length_drop. lia.
Qed.

(** The two blocks of [ilookup]: each scans a suffix of its slice. *)
Lemma ilookupFrozen_content now limit (st st' : scanSt expiryBucket) F l :
  ilookupFrozen _ addExpiry now limit st F = Ok (l, st') ->
  exists k, (k <= length F)%nat /\
    winEntries st' = winEntries st ++ List.filter (notExpired now) (drop k F) /\
    (0 <= limit -> Z.of_nat (length F - k) = Z.min (Z.of_nat (length F)) limit).
Proof.
  unfold ilookupFrozen.
  destruct (Z.ltb_spec 0 (Z.of_nat (length F))) as [Hpos|Hzero].
  - cbn zeta.
    set (l0 := if Z.of_nat (length F) <? limit then Z.of_nat (length F) else limit).
    destruct (slice F _ _) as [s| |] eqn:Hs; [|discriminate..]. cbn [bind].
    intros Heq; inversion Heq; subst; clear Heq.
    apply slice_suffix in Hs as [-> Hlo].
    exists (Z.to_nat (Z.of_nat (length F) - l0)). split; [lia|].
    split; [apply scan_filter|].
    intros Hlim. subst l0.
    destruct (Z.ltb_spec (Z.of_nat (length F)) limit); lia.
  - intros Heq; inversion Heq; subst; clear Heq.
    exists (length F). split; [done|]. rewrite drop_all. cbn. rewrite app_nil_r.
    split; [done|]. lia.
Qed.

Lemma ilookupEntries_content now limit l (st st' : scanSt expiryBucket) E :
  ilookupEntries _ addExpiry now limit l st E = Ok st' ->
  exists k, (k <= length E)%nat /\
    winEntries st' = winEntries st ++ List.filter (notExpired now) (drop k E) /\
    expiry st' = expiry (scan addExpiry now false st (drop k E)) /\
    (0 <= limit + expiryCount st - l ->
     Z.of_nat (length E - k) = Z.min (Z.of_nat (length E)) (limit + expiryCount st - l)).
Proof.
  unfold ilookupEntries.
  destruct (Z.ltb_spec 0 (Z.of_nat (length E))) as [Hpos|Hzero].
  - cbn zeta.
    set (l0 := if Z.of_nat (length E) <? limit + expiryCount st - l
               then Z.of_nat (length E) else limit + expiryCount st - l).
    destruct (slice E _ _) as [s| |] eqn:Hs; [|discriminate..]. cbn [bind].
    intros Heq; inversion Heq; subst; clear Heq.
    apply slice_suffix in Hs as [-> Hlo].
    exists (Z.to_nat (Z.of_nat (length E) - l0)). split; [lia|].
    split; [apply scan_filter|]. split; [done|].
    intros Hlim. subst l0.
    destruct (Z.ltb_spec (Z.of_nat (length E)) (limit + expiryCount st - l)); lia.
  - intros Heq; inversion Heq; subst; clear Heq.
    exists (length E). split; [done|]. rewrite drop_all. cbn. rewrite app_nil_r.
    split; [done|]. split; [done|]. lia.
Qed.

(** The result of [ilookup]: the entries not expired of a suffix of the
    frozen slice, then those of a suffix of the live slice. *)
Lemma ilookup_content w eb now h limit r eb' wb :
  getWindowBlock FindBlock w h = Ok wb ->
  ilookup FindBlock addExpiry w eb now h limit = Ok (r, eb') ->
  exists kF kE,
    r = List.filter (notExpired now) (drop kF (default [] (friezedEntries wb !! h)))
        ++ List.filter (notExpired now) (drop kE (default [] (tw_entries wb !! h))).
Proof.
  intros Hwb. unfold ilookup. rewrite Hwb. cbn [bind].
  destruct (ilookupFrozen _ _ _ _ _ _) as [[l st]| |] eqn:HF; [|discriminate..]. cbn [bind].
  destruct (ilookupEntries _ _ _ _ _ _ _) as [st'| |] eqn:HE; [|discriminate..]. cbn [bind].
  intros Heq; inversion Heq; subst; clear Heq.
  apply ilookupFrozen_content in HF as (kF & _ & HF & _).
  apply ilookupEntries_content in HE as (kE & _ & HE & _).
  exists kF, kE. rewrite HE, HF. done.
Qed.

(** Handing entries to the expiry bucket, one after the other. *)
Definition handOver (eb : expiryBucket) (es : list winEntry) : expiryBucket :=
  fold_left (fun eb e => (addExpiry eb e).1) es eb.

(** A scan hands the scanned entries that are expired to the expiry
    bucket, in their order. *)
Lemma scan_expired now always s : forall (st : scanSt expiryBucket),
  expiry (scan addExpiry now always st s)
  = handOver (expiry st) (List.filter (isExpired now) s).
Proof.
  induction s as [|e s IH]; intros st; cbn [scan fold_left List.filter]; [done|].
  fold (scan addExpiry now always (scan1 addExpiry now always st e) s).
  rewrite IH. unfold scan1.
  destruct (isExpired now e); [|done].
  cbn [handOver fold_left]. by destruct (addExpiry (expiry st) e).
Qed.

(** [ilookup] scans a suffix of the frozen slice and a suffix of the
    live slice: the entries not expired are its result, the expired
    ones are handed to the expiry bucket. *)
Lemma ilookup_partition w eb now h limit r eb' wb :
  getWindowBlock FindBlock w h = Ok wb ->
  ilookup FindBlock addExpiry w eb now h limit = Ok (r, eb') ->
  exists sF sE,
    sF `suffix_of` default [] (friezedEntries wb !! h) /\
    sE `suffix_of` default [] (tw_entries wb !! h) /\
    r = List.filter (notExpired now) (sF ++ sE) /\
    eb' = handOver eb (List.filter (isExpired now) (sF ++ sE)).
Proof.
  intros Hwb. unfold ilookup. rewrite Hwb. cbn [bind].
  set (F := default [] (friezedEntries wb !! h)).
  set (E := default [] (tw_entries wb !! h)).
  set (st0 := {| winEntries := []; expiryCount := 0; expiry := eb |}).
  assert (HF : forall l st, ilookupFrozen _ addExpiry now limit st0 F = Ok (l, st) ->
             exists sF, sF `suffix_of` F /\ st = scan addExpiry now true st0 sF).
  { unfold ilookupFrozen. intros l st.
    destruct (0 <? Z.of_nat (length F)).
    - cbn zeta. destruct (slice F _ _) as [sF| |] eqn:Hs; [|discriminate..]. cbn [bind].
      intros Heq; inversion Heq; subst; clear Heq.
      apply slice_suffix in Hs as [-> _]. eexists. split; [apply suffix_drop|done].
    - intros Heq; inversion Heq; subst; clear Heq. exists []. split; [apply suffix_nil|done]. }
  assert (HE : forall l st st', ilookupEntries _ addExpiry now limit l st E = Ok st' ->
             exists sE, sE `suffix_of` E /\ st' = scan addExpiry now false st sE).
  { unfold ilookupEntries. intros l st st'.
    destruct (0 <? Z.of_nat (length E)).
    - cbn zeta. destruct (slice E _ _) as [sE| |] eqn:Hs; [|discriminate..]. cbn [bind].
      intros Heq; inversion Heq; subst; clear Heq.
      apply slice_suffix in Hs as [-> _]. eexists. split; [apply suffix_drop|done].
    - intros Heq; inversion Heq; subst; clear Heq. exists []. split; [apply suffix_nil|done]. }
  destruct (ilookupFrozen _ _ _ _ _ _) as [[l st]| |] eqn:HF'; [|discriminate..]. cbn [bind].
  destruct (ilookupEntries _ _ _ _ _ _ _) as [st'| |] eqn:HE'; [|discriminate..]. cbn [bind].
  intros Heq; inversion Heq; subst; clear Heq.
  destruct (HF l st eq_refl) as (sF & HsF & ->).
  destruct (HE _ _ _ HE') as (sE & HsE & ->).
  exists sF, sE. split; [done|]. split; [done|].
  rewrite !scan_filter, !scan_expired, !List.filter_app. cbn [winEntries expiry st0 app].
  split; [done|]. unfold handOver. by rewrite fold_left_app.
Qed.

Lemma Forall_filter_notExpired now (s : list winEntry) :
  Forall (fun e => isExpired now e = false) (List.filter (notExpired now) s).
Proof.
  apply Forall_forall. intros e He. apply list_elem_of_In, filter_In in He as [_ He].
  unfold notExpired in He. by destruct (isExpired now e).
Qed.

Lemma sublist_filter_drop now k (s : list winEntry) :
  sublist (List.filter (notExpired now) (drop k s)) s.
Proof.
  transitivity (drop k s); [|apply sublist_drop].
  generalize (drop k s). intros l. induction l as [|e l IH]; cbn; [done|].
  destruct (notExpired now e); [by apply sublist_skip | by apply sublist_cons].
Qed.

(** After [add], the entry is among what [ilookup] returns for its
    topic, if it is not expired and at least one entry is asked for;
    on a shard that is not frozen this needs the frozen slice of the
    topic to be empty, as [unFreeze] leaves it. *)
Lemma ilookup_add w eb now h e limit wb :
  1 <= limit -> isExpired now e = false ->
  getWindowBlock FindBlock w h = Ok wb ->
  (freezed wb = false -> default [] (friezedEntries wb !! h) = []) ->
  exists w' r eb',
    add FindBlock w h e = Ok w' /\
    ilookup FindBlock addExpiry w' eb now h limit = Ok (r, eb') /\
    e ∈ r.
Proof.
  intros Hlim He Hwb Hthaw. unfold add. rewrite Hwb. cbn [bind].
  eexists. 
  assert (Hwb' : getWindowBlock FindBlock (<[FindBlock h := addShard wb h e]> w) h
                 = Ok (addShard wb h e)).
  { unfold getWindowBlock in *. destruct (w !! FindBlock h) eqn:E; [|discriminate].
    rewrite list_lookup_insert_eq; [done|]. by apply lookup_lt_Some in E. }
  destruct (ilookup_bound FindBlock _ addExpiry (<[FindBlock h := addShard wb h e]> w)
              eb now h limit) as (r & eb' & Hil & _); [lia| |].
  { rewrite length_insert. unfold getWindowBlock in Hwb.
    destruct (w !! FindBlock h) eqn:E; [|discriminate]. by apply lookup_lt_Some in E. }
  exists r, eb'. split; [done|]. split; [done|].
  revert Hil. unfold ilookup. rewrite Hwb'. cbn [bind].
  destruct (ilookupFrozen _ _ _ _ _ _) as [[l st]| |] eqn:HF; [|discriminate..]. cbn [bind].
  destruct (ilookupEntries _ _ _ _ _ _ _) as [st'| |] eqn:HE; [|discriminate..]. cbn [bind].
  intros Heq; inversion Heq; subst; clear Heq.
  pose proof HF as HF0.
  apply ilookupFrozen_content in HF as (kF & HkF & HFw & HFl).
  apply ilookupEntries_content in HE as (kE & HkE & HEw & _ & HEl).
  specialize (HFl ltac:(lia)).
  cbn [winEntries] in HFw.
  assert (Hin : forall (s : list winEntry) k, (k < length (s ++ [e]))%nat ->
                  e ∈ List.filter (notExpired now) (drop k (s ++ [e]))).
  { intros s k Hk. apply list_elem_of_In, filter_In. split.
    - apply list_elem_of_In.
      destruct (decide (k <= length s)%nat).
      + rewrite drop_app_le by done. apply elem_of_app. right. apply list_elem_of_here.
      + rewrite length_app in Hk. cbn in Hk. lia.
    - unfold notExpired. by rewrite He. }
  unfold addShard in *. destruct (freezed wb) eqn:Hfr.
  - cbn [friezedEntries tw_entries] in *. unfold appendTo in *.
    rewrite lookup_insert_eq in HFw, HFl. cbn [default from_option id] in HFw, HFl.
    rewrite HEw, HFw. apply elem_of_app. left.
    apply Hin. rewrite length_app in *. cbn [length] in *. lia.
  - cbn [friezedEntries tw_entries] in *. unfold appendTo in *.
    rewrite lookup_insert_eq in HEw, HEl. cbn [default from_option id] in HEw, HEl.
    rewrite (Hthaw eq_refl) in HFw, HFl, HF0.
    cbn in HF0. inversion HF0; subst; clear HF0. cbn [expiryCount] in HEl.
    specialize (HEl ltac:(lia)).
    rewrite HEw. apply elem_of_app. right.
    apply Hin. rewrite length_app in *. cbn [length] in *. lia.
Qed.
End IlookupFacts.

(** ** What [lookup] never returns *)

Section LookupSafety.
Variable blockSize : nat.
Variable n : nat.   (* seqsPerWindowBlock *)
Variable FindBlock : Z -> nat.
Variable expiryBucket : Type.
Variable addExpiry : expiryBucket -> winEntry -> expiryBucket * option error.

(** [d] extends [l] by entries that are not expired. *)
Definition extends (now : Z) (l l' : list winEntry) : Prop :=
  exists d, l' = l ++ d /\ Forall (fun e => isExpired now e = false) d.

Lemma extends_refl now l : extends now l l.
Proof. exists []. by rewrite app_nil_r. Qed.

Lemma extends_trans now l1 l2 l3 :
  extends now l1 l2 -> extends now l2 l3 -> extends now l1 l3.
Proof.
  intros (d1 & -> & H1) (d2 & -> & H2). exists (d1 ++ d2).
  rewrite app_assoc. split; [done|]. by apply Forall_app.
Qed.

Lemma extends_scan now always (st : scanSt expiryBucket) s :
  extends now (winEntries st) (winEntries (scan addExpiry now always st s)).
Proof.
  eexists. split; [apply scan_filter|]. apply Forall_filter_notExpired.
Qed.

Lemma visit_extends now h cut (st st' : lookupSt expiryBucket) b stop :
  visit addExpiry now h cut st b = Ok (st', stop) ->
  extends now (winEntries (l_scan st)) (winEntries (l_scan st')).
Proof.
  unfold visit. destruct (negb (topicHash b =? h)).
  { intros Heq; inversion Heq; subst. apply extends_refl. }
  destruct (l_limit st - entryIdx b <? _).
  - destruct (slice (entries b) _ _) as [s| |]; [|discriminate..]. cbn [bind].
    destruct (_ <=? _).
    + intros Heq; inversion Heq; subst; clear Heq. cbn [l_scan]. apply extends_scan.
    + destruct (slice (entries b) 0 _) as [s2| |]; [|discriminate..]. cbn [bind].
      intros Heq; inversion Heq; subst; clear Heq. cbn [l_scan].
      eapply extends_trans; apply extends_scan.
  - cbn [bind].
    destruct (slice (entries b) 0 _) as [s2| |]; [|discriminate..]. cbn [bind].
    intros Heq; inversion Heq; subst; clear Heq. cbn [l_scan]. apply extends_scan.
Qed.

Lemma follow_extends now h cut f fuel : forall off (st st' : lookupSt expiryBucket),
  follow blockSize n addExpiry fuel f now h cut off st = Some (Ok st') ->
  extends now (winEntries (l_scan st)) (winEntries (l_scan st')).
Proof.
  induction fuel as [|fuel IH]; intros off st st'; cbn [follow]; [discriminate|].
  destruct (read blockSize n f off) as [b|e|].
  - destruct (visit addExpiry now h cut st b) as [[st1 stop]| |] eqn:Hv; [|discriminate..].
    apply visit_extends in Hv.
    destruct stop.
    { intros Heq; inversion Heq; by subst. }
    destruct (next b =? 0).
    { intros Heq; inversion Heq; by subst. }
    intros Hf. apply IH in Hf. by eapply extends_trans.
  - intros Heq; inversion Heq; subst. apply extends_refl.
  - discriminate.
Qed.

(** Whenever [lookup] returns entries, they start with the entries that
    [ilookup] returns, and none of them is expired. *)
Lemma lookup_extends fuel f w eb now h off cut limit r eb' :
  lookup blockSize n FindBlock addExpiry fuel f w eb now h off cut limit
  = Some (Ok (r, eb')) ->
  exists r0 eb0,
    ilookup FindBlock addExpiry w eb now h limit = Ok (r0, eb0) /\
    extends now r0 r /\ Forall (fun e => isExpired now e = false) r.
Proof.
  unfold lookup.
  destruct (ilookup FindBlock addExpiry w eb now h limit) as [[r0 eb0]| |] eqn:Hil;
    [|discriminate..].
  assert (H0 : Forall (fun e => isExpired now e = false) r0).
  { pose proof Hil as Hil'. unfold ilookup in Hil'.
    destruct (getWindowBlock FindBlock w h) as [wb| |] eqn:Hwb; [|discriminate..].
    destruct (ilookup_content FindBlock _ addExpiry w eb now h limit r0 eb0 wb Hwb Hil)
      as (kF & kE & ->).
    apply Forall_app. split; apply Forall_filter_notExpired. }
  intros Hl. exists r0, eb0. split; [done|].
  destruct (limit <=? Z.of_nat (length r0)).
  { inversion Hl; subst. split; [apply extends_refl|done]. }
  destruct (follow _ _ _ _ _ _ _ _ _ _) as [[st'| |]|] eqn:Hf; try discriminate.
  cbn [bind] in Hl. inversion Hl; subst; clear Hl.
  apply follow_extends in Hf. cbn [l_scan winEntries] in Hf.
  split; [done|]. destruct Hf as (d & -> & Hd). by apply Forall_app.
Qed.
End LookupSafety.

(** ** What [append] keeps *)

Section AppendInv.
Variable blockSize : nat.
Variable n : nat.   (* seqsPerWindowBlock *)
Hypothesis Hn : (0 < n)%nat /\ Z.of_nat n < 2 ^ 16.

(** A block as [append] leaves it: the array has its size, [entryIdx]
    counts the entries in use, the rest of the array is zero, and the
    entries in use have non-zero, pairwise distinct [seq]s. *)
Definition blockInv (w : winBlock) : Prop :=
  length (entries w) = n /\
  0 <= entryIdx w <= Z.of_nat n /\
  drop (Z.to_nat (entryIdx w)) (entries w)
  = repeat zeroEntry (n - Z.to_nat (entryIdx w)) /\
  Forall (fun e => Seq e <> 0) (live w) /\
  NoDup (map Seq (live w)).

Definition cacheInv (wb : windowWriter) : Prop :=
  forall i b, winBlocks wb !! i = Some b -> blockInv b.

Lemma zeroBlock_inv : blockInv (zeroBlock n).
Proof.
  unfold blockInv, zeroBlock, live. cbn.
  rewrite repeat_length. split; [done|]. split; [lia|]. split.
  - by rewrite Nat.sub_0_r.
  - split; [apply Forall_nil_2 | apply NoDup_nil_2].
Qed.

Lemma freshBlock_inv h nxt : blockInv (freshBlock n h nxt).
Proof. exact zeroBlock_inv. Qed.

Lemma setTopicHash_inv w h : blockInv w -> blockInv (setTopicHash w h).
Proof. done. Qed.

Lemma setLeased_inv w : blockInv w -> blockInv (setLeased w).
Proof. done. Qed.

Lemma setCutoff_inv w c : blockInv w -> blockInv (setCutoff w c).
Proof. done. Qed.

Lemma hasSeq_false w s :
  hasSeq w s = false -> s ∉ map Seq (live w).
Proof.
  unfold hasSeq, live. intros H Hin.
  apply list_elem_of_fmap in Hin as (e & -> & He).
  assert (He' : e ∈ entries w).
  { rewrite <- (take_drop (Z.to_nat (entryIdx w)) (entries w)).
    apply elem_of_app. by left. }
  apply list_elem_of_In in He'.
  assert (existsb (fun e0 => Seq e0 =? Seq e) (entries w) = true).
  { apply existsb_exists. exists e. split; [done|]. apply Z.eqb_refl. }
  congruence.
Qed.

Lemma pushEntry_inv w e :
  blockInv w -> entryIdx w < Z.of_nat n -> Seq e <> 0 -> Seq e ∉ map Seq (live w) ->
  blockInv (pushEntry w e) /\ live (pushEntry w e) = live w ++ [e].
Proof.
  intros (Hlen & Hidx & Hzero & Hnz & Hnd) Hlt Hs Hfresh.
  assert (Hto : toUint16 (entryIdx w + 1) = entryIdx w + 1).
  { unfold toUint16. apply Z.mod_small. lia. }
  assert (Hlive : live (pushEntry w e) = live w ++ [e]).
  { unfold live, pushEntry. cbn [entries entryIdx]. rewrite Hto.
    replace (Z.to_nat (entryIdx w + 1)) with (S (Z.to_nat (entryIdx w))) by lia.
    rewrite (take_S_r _ _ e) by (apply list_lookup_insert_eq; lia).
    by rewrite take_insert_ge by lia. }
  split; [|done]. unfold blockInv. rewrite Hlive.
  cbn [pushEntry entries entryIdx]. rewrite Hto, length_insert.
  split; [done|]. split; [lia|]. split; [|split].
  - rewrite drop_insert_lt by lia.
    replace (Z.to_nat (entryIdx w + 1)) with (Z.to_nat (entryIdx w) + 1)%nat by lia.
    rewrite <- drop_drop, Hzero.
    replace (n - Z.to_nat (entryIdx w))%nat
      with (S (n - (Z.to_nat (entryIdx w) + 1)))%nat by lia.
    done.
  - apply Forall_app. split; [done|]. by apply Forall_singleton.
  - rewrite map_app. apply NoDup_app. split; [done|]. split.
    + intros x Hx Hx'. cbn in Hx'. apply list_elem_of_singleton in Hx'. by subst.
    + apply NoDup_singleton.
Qed.

(** The blocks that a call stores are sealed ones: full, with the time
    of the call as their cutoff, of the topic of the call. *)
Definition sealedOr (now h : Z) (old new : gmap Z winBlock) : Prop :=
  forall i b, new !! i = Some b ->
  old !! i = Some b \/
  (blockInv b /\ entryIdx b = Z.of_nat n /\ cutoff b = now /\ topicHash b = h).

Lemma appendEntry_inv now st we :
  blockInv (a_w st) ->
  exists st',
    appendEntry blockSize n now st we = Ok st' /\
    blockInv (a_w st') /\ topicHash (a_w st') = topicHash (a_w st) /\
    ww_file (a_ww st') = ww_file (a_ww st) /\
    sealedOr now (topicHash (a_w st)) (winBlocks (a_ww st)) (winBlocks (a_ww st')).
Proof.
  intros Hinv. unfold appendEntry.
  assert (Hsame : sealedOr now (topicHash (a_w st)) (winBlocks (a_ww st))
                    (winBlocks (a_ww st))) by (intros i b Hb; by left).
  destruct (Z.eqb_spec (Seq we) 0) as [H0|H0]; [by exists st|].
  destruct (hasSeq (a_w st) (Seq we)) eqn:Hdup; [by exists st|].
  apply hasSeq_false in Hdup.
  set (st1 := if entryIdx (a_w st) =? Z.of_nat n then seal blockSize n now st else st).
  assert (H1 : blockInv (a_w st1) /\ entryIdx (a_w st1) < Z.of_nat n /\
               (Seq we ∉ map Seq (live (a_w st1))) /\
               topicHash (a_w st1) = topicHash (a_w st) /\
               ww_file (a_ww st1) = ww_file (a_ww st) /\
               sealedOr now (topicHash (a_w st)) (winBlocks (a_ww st))
                 (winBlocks (a_ww st1))).
  { subst st1. destruct (Z.eqb_spec (entryIdx (a_w st)) (Z.of_nat n)) as [Hfull|Hroom].
    - cbn [seal a_w a_ww winBlocks ww_file].
      split; [apply freshBlock_inv|]. split; [cbn; lia|].
      split; [cbn; apply not_elem_of_nil|]. split; [done|]. split; [done|].
      intros i b. intros [[<- <-]|[_ Hb]]%lookup_insert_Some; [|by left].
      right. split; [by apply setCutoff_inv|]. done.
    - pose proof Hinv as (_ & Hidx & _).
      split; [done|]. split; [lia|]. split; [done|]. split; [done|]. split; done. }
  destruct H1 as (Hinv1 & Hlt & Hfresh & Hh & Hf & Hsl).
  destruct (Nat.ltb_spec (Z.to_nat (entryIdx (a_w st1))) (length (entries (a_w st1))))
    as [_|Hge].
  2:{ destruct Hinv1 as (Hlen & Hidx & _). lia. }
  eexists. split; [done|]. cbn [a_w a_ww].
  destruct (pushEntry_inv (a_w st1) {| Seq := Seq we; ExpiresAt := ExpiresAt we |}
              Hinv1 Hlt H0 Hfresh) as [Hp _].
  split; [done|]. split; [done|].
  by destruct (leased (a_w st1)).
Qed.

Lemma sealedOr_trans now h m1 m2 m3 :
  sealedOr now h m1 m2 -> sealedOr now h m2 m3 -> sealedOr now h m1 m3.
Proof.
  intros H12 H23 i b Hb. destruct (H23 i b Hb) as [Hb'|Hb']; [by apply H12 | by right].
Qed.

(** The loop of [append] returns on a well-formed working block, and
    leaves a well-formed one. *)
Lemma appendLoop_inv now wes : forall st,
  blockInv (a_w st) ->
  exists st',
    appendLoop blockSize n now st wes = Ok st' /\
    blockInv (a_w st') /\ topicHash (a_w st') = topicHash (a_w st) /\
    ww_file (a_ww st') = ww_file (a_ww st) /\
    sealedOr now (topicHash (a_w st)) (winBlocks (a_ww st)) (winBlocks (a_ww st')).
Proof.
  induction wes as [|we wes IH]; intros st Hinv.
  - exists st. split; [done|]. split; [done|]. split; [done|]. split; [done|].
    intros i b Hb. by left.
  - unfold appendLoop. cbn [fold_left bind].
    destruct (appendEntry_inv now st we Hinv) as (st1 & -> & Hinv1 & Hh1 & Hf1 & Hs1).
    destruct (IH st1 Hinv1) as (st' & Hl & Hinv' & Hh' & Hf' & Hs').
    exists st'. split; [exact Hl|]. split; [done|].
    split; [congruence|]. split; [congruence|].
    eapply sealedOr_trans; [exact Hs1|]. by rewrite <- Hh1.
Qed.

(** [append] on a writer whose cached blocks are well-formed, the block
    on disk being well-formed if it is read: the call does not panic; it
    fails only with the error of the read; and it leaves a cache of
    well-formed blocks. *)
Lemma append_inv wb now h off wes :
  cacheInv wb ->
  (forall b, read blockSize n (ww_file wb) off = Ok b -> blockInv b) ->
  match append blockSize n wb now h off wes with
  | Ok (wb', _) => cacheInv wb' /\ ww_file wb' = ww_file wb
  | Err e => read blockSize n (ww_file wb) off = Err e /\ e <> io_EOF
  | Panic => read blockSize n (ww_file wb) off = Panic
  end.
Proof.
  intros Hc Hr. unfold append, appendInit.
  set (wb1 := if off =? 0 then _ else _).
  assert (Hwb1 : winBlocks wb1.1 = winBlocks wb /\ ww_file wb1.1 = ww_file wb)
    by (subst wb1; by destruct (off =? 0)).
  destruct wb1 as [wb0 winIdx]. cbn [fst] in Hwb1. destruct Hwb1 as [Hwb1 Hf1].
  set (cached := winBlocks wb0 !! winIdx).
  assert (Hcached : blockInv (default (zeroBlock n) cached)).
  { subst cached. rewrite Hwb1. destruct (winBlocks wb !! winIdx) as [b|] eqn:Hb; cbn.
    - by apply (Hc winIdx b).
    - apply zeroBlock_inv. }
  set (init := if _ && _ && _ then _ else _).
  assert (Hinit : match init with
                  | Ok w => blockInv w
                  | Err e => read blockSize n (ww_file wb) off = Err e /\ e <> io_EOF
                  | Panic => read blockSize n (ww_file wb) off = Panic
                  end).
  { subst init. destruct (_ && _ && _); [|done]. rewrite Hf1.
    destruct (read blockSize n (ww_file wb) off) as [b|e|] eqn:Hread; [| |done].
    - apply setLeased_inv. by apply Hr.
    - destruct e; try (split; [done|discriminate]).
      apply setLeased_inv, zeroBlock_inv. }
  destruct init as [w|e|]; cbn [bind]; [|done..].
  destruct (appendLoop_inv now wes
              {| a_ww := wb0; a_winIdx := winIdx; a_w := setTopicHash w h |})
    as (st' & -> & Hinv' & _ & Hf' & Hs').
  { by apply setTopicHash_inv. }
  cbn [bind]. cbn [a_ww a_w] in *. split; [|cbn [ww_file]; congruence].
  intros i b. cbn [winBlocks].
  intros [[<- <-]|[_ Hb]]%lookup_insert_Some; [done|].
  destruct (Hs' i b Hb) as [Hold|[Hb' _]]; [|done].
  rewrite Hwb1 in Hold. by apply (Hc i b).
Qed.

(** Entries that fit in the working block go into it in their order:
    when their [seq]s are non-zero, pairwise distinct and not in the
    block, and the block has room for all of them, the loop adds them
    after the entries in use, takes no block index and stores nothing in
    the cache. *)
Lemma appendLoop_fits now wes : forall st,
  blockInv (a_w st) ->
  Forall (fun e => Seq e <> 0) wes ->
  NoDup (map Seq wes) ->
  (forall e, e ∈ wes -> hasSeq (a_w st) (Seq e) = false) ->
  entryIdx (a_w st) + Z.of_nat (length wes) <= Z.of_nat n ->
  exists st',
    appendLoop blockSize n now st wes = Ok st' /\
    live (a_w st') = live (a_w st) ++ wes /\
    entryIdx (a_w st') = entryIdx (a_w st) + Z.of_nat (length wes) /\
    a_winIdx st' = a_winIdx st /\
    windowIdx (a_ww st') = windowIdx (a_ww st) /\
    winBlocks (a_ww st') = winBlocks (a_ww st).
Proof.
  induction wes as [|we wes IH]; intros st Hinv Hnz Hnd Hfresh Hroom.
  - exists st. rewrite app_nil_r. cbn [length Z.of_nat]. rewrite Z.add_0_r.
    split; [done|]. split; [done|]. split; [done|]. split; [done|]. split; done.
  - inversion Hnz as [|? ? Hwe Hnz']; subst.
    cbn [map] in Hnd. apply NoDup_cons in Hnd as [Hnotin Hnd'].
    cbn [length] in Hroom.
    pose proof Hinv as (Hlen & Hidx & _).
    destruct (appendEntry_room blockSize n now st we) as (st1 & He & H1 & H2 & H3 & H4).
    { done. }
    { apply Hfresh. apply list_elem_of_here. }
    { lia. }
    { lia. }
    destruct (pushEntry_inv (a_w st) we Hinv) as [Hinv1 Hlive1].
    { lia. }
    { done. }
    { apply hasSeq_false, Hfresh, list_elem_of_here. }
    rewrite <- H4 in Hinv1, Hlive1.
    assert (Hidx1 : entryIdx (a_w st1) = entryIdx (a_w st) + 1).
    { rewrite H4. cbn [pushEntry entryIdx]. unfold toUint16. apply Z.mod_small. lia. }
    destruct (IH st1 Hinv1 Hnz' Hnd') as (st' & Hl & Hv & Hi & Hw & Hx & Hb).
    { intros e He'. 
      destruct (hasSeq (a_w st1) (Seq e)) eqn:Hhs; [|done]. exfalso.
      unfold hasSeq in Hhs. apply existsb_exists in Hhs as (x & Hx & Hxe).
      apply Z.eqb_eq in Hxe. rewrite H4 in Hx. cbn [pushEntry entries] in Hx.
      apply list_elem_of_In, list_elem_of_lookup in Hx as [j Hj].
      destruct (decide (j = Z.to_nat (entryIdx (a_w st)))) as [->|Hne].
      - rewrite list_lookup_insert_eq in Hj by lia. inversion Hj; subst x.
        apply Hnotin. rewrite Hxe. apply list_elem_of_fmap. by exists e.
      - rewrite list_lookup_insert_ne in Hj by done.
        assert (Hhs : hasSeq (a_w st) (Seq e) = true).
        { unfold hasSeq. apply existsb_exists. exists x. split.
          - apply list_elem_of_In, list_elem_of_lookup. by exists j.
          - by apply Z.eqb_eq. }
        rewrite Hfresh in Hhs; [discriminate|]. by apply list_elem_of_further. }
    { lia. }
    exists st'. unfold appendLoop in *. cbn [fold_left bind]. rewrite He.
    split; [exact Hl|]. rewrite Hv, Hlive1, <- app_assoc.
    split; [done|]. split; [rewrite Hi, Hidx1; cbn [length]; lia|].
    split; [congruence|]. split; congruence.
Qed.

(** The same for a call of [append] on a cached block. *)
Lemma append_fits wb now h off w wes :
  off <> 0 ->
  winBlocks wb !! toInt32 (Z.quot off (Z.of_nat blockSize)) = Some w ->
  blockInv w ->
  Forall (fun e => Seq e <> 0) wes ->
  NoDup (map Seq wes) ->
  (forall e, e ∈ wes -> hasSeq w (Seq e) = false) ->
  entryIdx w + Z.of_nat (length wes) <= Z.of_nat n ->
  exists wb' w',
    append blockSize n wb now h off wes
    = Ok (wb', blockOff blockSize (toInt32 (Z.quot off (Z.of_nat blockSize)))) /\
    windowIdx wb' = windowIdx wb /\
    winBlocks wb' = <[toInt32 (Z.quot off (Z.of_nat blockSize)) := w']> (winBlocks wb) /\
    topicHash w' = h /\
    live w' = live w ++ wes.
Proof.
  intros Hoff Hc Hinv Hnz Hnd Hfresh Hroom. unfold append.
  rewrite (appendInit_cached blockSize n wb h off w Hoff Hc). cbn [bind].
  set (st := {| a_ww := wb; a_winIdx := _; a_w := setTopicHash w h |}).
  destruct (appendLoop_fits now wes st) as (st' & Hl & Hlive & _ & Hidx & Hwi & Hbl);
    [by apply setTopicHash_inv | done | done | done | done |].
  destruct (appendLoop_inv now wes st) as (st'' & Hl' & _ & Hh & _);
    [by apply setTopicHash_inv|].
  rewrite Hl in Hl'. inversion Hl'; subst st''; clear Hl'.
  rewrite Hl. cbn [bind].
  eexists _, (a_w st'). rewrite Hidx. split; [done|]. cbn [windowIdx winBlocks].
  split; [done|]. split; [by rewrite Hbl|]. split; done.
Qed.
End AppendInv.

(** ** foreachWindowBlock *)

Section ForeachBlock.
Variable blockSize : nat.
Variable n : nat.   (* seqsPerWindowBlock *)
(** The callback works on the rest of the database, of some type [S]; it
    is given the handle, that is the offset and the block read there, and
    returns the new state, the [stop] flag and its error. *)
Variable S : Type.
Variable f : Z -> winBlock -> S -> S * bool * option error.

(** The loop [for winBlockIdx < nWinBlocks], with [k] iterations left. *)
Fixpoint foreachFrom (fl : file) (k : nat) (winBlockIdx : Z) (s : S)
    : res (S * option error) :=
  match k with
  | O => Ok (s, None)
  | Datatypes.S k' =>
      let off := winBlockOffset blockSize winBlockIdx in
      match read blockSize n fl off with
      | Panic => Panic
      | Err io_EOF => Ok (s, None)
      | Err e => Ok (s, Some e)
      | Ok b =>
          let '(s, stop, err) := f off b s in
          if stop || notNil err then Ok (s, err)
          else foreachFrom fl k' (toInt32 (winBlockIdx + 1)) s
      end
  end.

(** [timeWindowBucket.foreachWindowBlock]: the state after the call and
    the error returned. The index starts at 0 and [nWinBlocks] is
    [windowIndex()], so the loop runs at most [windowIdx] times. *)
Definition foreachWindowBlock (fl : file) (windowIdx : Z) (s : S)
    : res (S * option error) :=
  foreachFrom fl (Z.to_nat windowIdx) 0 s.

(** The call reads the blocks of index below [windowIdx] and no other
    part of the file. *)
Lemma foreachFrom_reads (f1 f2 : file) k : forall idx s,
  0 <= idx -> idx + Z.of_nat k < 2 ^ 31 ->
  (forall i, idx <= i < idx + Z.of_nat k ->
     f1 (winBlockOffset blockSize i) (winBlockOffset blockSize i + Z.of_nat blockSize)
     = f2 (winBlockOffset blockSize i) (winBlockOffset blockSize i + Z.of_nat blockSize)) ->
  foreachFrom f1 k idx s = foreachFrom f2 k idx s.
Proof.
  induction k as [|k IH]; intros idx s H0 Hmax Hsame; [done|].
  cbn [foreachFrom]. unfold read. rewrite (Hsame idx) by lia.
  destruct (f2 _ _) as [buf|e|]; cbn [bind]; [|done..].
  destruct (UnmarshalBinary n (zeroBlock n) buf) as [b|e|]; [|done..].
  destruct (f _ b s) as [[s' stop] err].
  destruct (stop || notNil err); [done|].
  assert (Hto : toInt32 (idx + 1) = idx + 1).
  { unfold toInt32. rewrite Z.mod_small; lia. }
  rewrite Hto. apply IH; [lia|lia|]. intros i Hi. apply Hsame. lia.
Qed.

Lemma foreachWindowBlock_reads (f1 f2 : file) windowIdx s :
  windowIdx < 2 ^ 31 ->
  (forall i, 0 <= i < windowIdx ->
     f1 (winBlockOffset blockSize i) (winBlockOffset blockSize i + Z.of_nat blockSize)
     = f2 (winBlockOffset blockSize i) (winBlockOffset blockSize i + Z.of_nat blockSize)) ->
  foreachWindowBlock f1 windowIdx s = foreachWindowBlock f2 windowIdx s.
Proof.
  intros Hmax Hsame. unfold foreachWindowBlock.
  destruct (Z_le_gt_dec windowIdx 0) as [Hle|Hgt].
  - replace (Z.to_nat windowIdx) with 0%nat by lia. done.
  - apply foreachFrom_reads; [lia|lia|]. intros i Hi. apply Hsame. lia.
Qed.

(** With a window index that is not positive, as on a bucket that was
    just made (-1) or holds one block (0), nothing is read and the
    callback is not called. *)
Lemma foreachWindowBlock_none fl windowIdx s :
  windowIdx <= 0 -> foreachWindowBlock fl windowIdx s = Ok (s, None).
Proof.
  intros Hle. unfold foreachWindowBlock.
  replace (Z.to_nat windowIdx) with 0%nat by lia. done.
Qed.
End ForeachBlock.

End window.

(* ===================================================================== *)
(** * trie: the topic trie (package unitdb, trie file)                    *)
(* ===================================================================== *)

Module trie.

(** [topic]: the tuple of a topic hash and the offset of its newest
    window block. *)
Record topic := { hash : Z; offset : Z }.   (* uint64, int64 *)

(** [topics.addUnique]: the slice after the call and [added]. *)
Fixpoint addUnique (top : list topic) (value : topic) : list topic * bool :=
  match top with
  | [] => ([value], true)
  | v :: rest =>
      if hash v =? hash value
      then ({| hash := hash v; offset := offset value |} :: rest, false)
      else let '(rest', added) := addUnique rest value in (v :: rest', added)
  end.

(** [key] is the pair [(query, wildchars)]. *)
Abbreviation key := (Z * Z)%type.

(** [message.Part], as far as the trie reads it. *)
Record Part := { Query : Z; Wildchars : Z }.   (* uint32, uint8 *)

(** [part]. Parts refer to each other through pointers; a pointer is an
    address in a heap of parts, and nil is [None]. *)
Record part := {
  k : key;
  depth : Z;                    (* uint8 *)
  parent : option nat;
  children : gmap key nat;
  topics : list topic
}.

(** [partTrie], with the heap its pointers live in. *)
Record partTrie := {
  summary : gmap Z nat;
  root : nat;
  heap : gmap nat part
}.

(** [newPartTrie]. *)
Definition newPartTrie : partTrie :=
  {| summary := ∅; root := 0%nat;
     heap := {[ 0%nat := {| k := (0, 0); depth := 0; parent := None;
                            children := ∅; topics := [] |} ]} |}.

(** Following a pointer; a pointer into nothing panics. *)
Definition deref (h : gmap nat part) (p : nat) : res part :=
  match h !! p with
  | Some x => Ok x
  | None => Panic
  end.

Definition setChildren (c : part) (ch : gmap key nat) : part :=
  {| k := k c; depth := depth c; parent := parent c; children := ch; topics := topics c |}.

(** The loop of [add] over the parts of the topic: walk to the child
    under each key, creating it when it is missing. *)
Fixpoint walk (h : gmap nat part) (curr : nat) (parts : list Part)
    : res (gmap nat part * nat) :=
  match parts with
  | [] => Ok (h, curr)
  | p :: ps =>
      let k := (Query p, Wildchars p) in
      bind (deref h curr) (fun c =>
      match children c !! k with
      | Some child => walk h child ps
      | None =>
          let child := fresh (dom h) in
          let h := <[child := {| k := k; depth := 0; parent := Some curr;
                                 children := ∅; topics := [] |}]> h in
          let h := <[curr := setChildren c (<[k := child]> (children c))]> h in
          walk h child ps
      end)
  end.

(** [trie.add]: the trie after the call and [added]. *)
Definition add (t : partTrie) (tp : topic) (parts : list Part) (depth_ : Z)
    : res (partTrie * bool) :=
  match summary t !! hash tp with
  | Some _ => Ok (t, true)
  | None =>
      bind (walk (heap t) (root t) parts) (fun '(h, curr) =>
      bind (deref h curr) (fun c =>
      let c := {| k := k c; depth := depth_; parent := parent c;
                  children := children c;
                  topics := (addUnique (topics c) tp).1 |} in
      Ok ({| summary := <[hash tp := curr]> (summary t); root := root t;
             heap := <[curr := c]> h |}, true)))
  end.

(** [trie.setOffset]. *)
Definition setOffset (t : partTrie) (top : topic) : res (partTrie * bool) :=
  match summary t !! hash top with
  | Some curr =>
      bind (deref (heap t) curr) (fun c =>
      let c := {| k := k c; depth := depth c; parent := parent c;
                  children := children c;
                  topics := (addUnique (topics c) top).1 |} in
      Ok ({| summary := summary t; root := root t; heap := <[curr := c]> (heap t) |},
          true))
  | None => Ok (t, false)
  end.

(** [trie.getOffset]. The [ok] of the [if] statement is a variable of its
    own: when the loop over the node's topics finds nothing, the function
    returns its named results, which are still [(0, false)]. *)
Definition getOffset (t : partTrie) (topicHash : Z) : res (Z * bool) :=
  match summary t !! topicHash with
  | Some curr =>
      bind (deref (heap t) curr) (fun c =>
      match find (fun tp => hash tp =? topicHash) (topics c) with
      | Some tp => Ok (offset tp, true)
      | None => Ok (0, false)
      end)
  | None => Ok (0, false)
  end.

(** [trie.Count]: [len(t.partTrie.summary)]. *)
Definition Count (t : partTrie) : Z := Z.of_nat (size (summary t)).

(** ** Lookup *)

(** Conversion to [uint8]. *)
Definition toUint8 (x : Z) : Z := x mod 2 ^ 8.

(** The loop [for _, topic := range currpart.topics { tops.addUnique(topic) }]. *)
Definition addTopics (tops ts : list topic) : list topic :=
  fold_left (fun acc tp => (addUnique acc tp).1) ts tops.

Section Lookup.
(** [message.Wildcard] and [message.TopicStatic], constants of a package
    whose source is not at hand. *)
Variable Wildcard : Z.       (* uint32 *)
Variable TopicStatic : Z.    (* uint8 *)
(** A [range] over a map visits its entries in an order that is not
    fixed: [range m] is the order of one visit. What is proved below
    holds for every order. *)
Variable range : gmap key nat -> list (key * nat).

(** [trie.ilookup]: [tops] after the call. The recursion goes from a part
    to its children and has no bound of its own: [fuel] bounds its depth,
    and [None] means it ran out. In the second case of the [switch] the
    index [k.wildchars+1] is at most [uint8(len(query))], hence at most
    [len(query)], so the slice expression does not panic. *)
Fixpoint ilookup (fuel : nat) (h : gmap nat part) (query : list Part)
    (depth_ topicType : Z) (tops : list topic) (currpart : nat)
    : option (res (list topic)) :=
  match fuel with
  | O => None
  | S fuel' =>
      match h !! currpart with
      | None => Some Panic
      | Some c =>
          let tops :=
            if (depth c =? depth_) || ((topicType =? TopicStatic) && (fst (k c) =? Wildcard))
            then addTopics tops (topics c) else tops in
          match query with
          | [] => Some (Ok tops)
          | q :: rest =>
              fold_left (fun r '(kk, p) =>
                match r with
                | Some (Ok tops) =>
                    if (fst kk =? Query q) && (Wildchars q =? snd kk)
                    then ilookup fuel' h rest depth_ topicType tops p
                    else if (fst kk =? Query q)
                            && (toUint8 (snd kk + 1) <=? toUint8 (Z.of_nat (length query)))
                    then ilookup fuel' h (drop (Z.to_nat (toUint8 (snd kk + 1))) query)
                           depth_ topicType tops p
                    else if fst kk =? Wildcard
                    then ilookup fuel' h query depth_ topicType tops p
                    else r
                | _ => r
                end) (range (children c)) (Some (Ok tops))
          end
      end
  end.

(** [trie.lookup]. *)
Definition lookup (fuel : nat) (t : partTrie) (query : list Part) (depth_ topicType : Z)
    : option (res (list topic)) :=
  ilookup fuel (heap t) query depth_ topicType [] (root t).
End Lookup.

(** ** addUnique *)

(** No two tuples of the slice have the same hash. *)
Definition uniq (top : list topic) : Prop := NoDup (map hash top).

Lemma addUnique_hashes top value :
  map hash (addUnique top value).1
  = if (addUnique top value).2 then map hash top ++ [hash value] else map hash top.
Proof.
  induction top as [|v rest IH]; cbn [addUnique]; [done|].
  destruct (hash v =? hash value); [done|].
  destruct (addUnique rest value) as [rest' added]. cbn [fst snd] in *.
  cbn [map]. rewrite IH. by destruct added.
Qed.

Lemma addUnique_added top value :
  (addUnique top value).2 = true <-> hash value ∉ map hash top.
Proof.
  induction top as [|v rest IH]; cbn [addUnique map].
  - split; [intros _; apply not_elem_of_nil | done].
  - destruct (Z.eqb_spec (hash v) (hash value)) as [Heq|Hne]; cbn [snd].
    + split; [done|]. intros H. exfalso. apply H. rewrite Heq. apply list_elem_of_here.
    + destruct (addUnique rest value) as [rest' added]. cbn [snd] in *.
      rewrite IH, not_elem_of_cons.
      split; [intros ?; split; [congruence|done] | intros [_ ?]; done].
Qed.

(** [addUnique] keeps the hashes of the slice distinct. *)
Lemma addUnique_uniq top value : uniq top -> uniq (addUnique top value).1.
Proof.
  unfold uniq. intros Hnd. rewrite addUnique_hashes.
  destruct (addUnique top value).2 eqn:Ha; [|done].
  apply NoDup_app. split; [done|]. split; [|apply NoDup_singleton].
  intros x Hx Hx'. apply list_elem_of_singleton in Hx'. subst x.
  by apply addUnique_added in Ha.
Qed.

(** When the hash is in the slice, the tuple that carries it gets the
    new offset, and nothing else changes. *)
Lemma addUnique_replace pre v post value :
  hash v = hash value -> hash value ∉ map hash pre ->
  addUnique (pre ++ v :: post) value
  = (pre ++ {| hash := hash v; offset := offset value |} :: post, false).
Proof.
  intros Hv. induction pre as [|u pre IH]; intros Hpre; cbn [app addUnique].
  - by rewrite Hv, Z.eqb_refl.
  - cbn [map] in Hpre. apply not_elem_of_cons in Hpre as [Hu Hpre].
    rewrite (proj2 (Z.eqb_neq (hash u) (hash value))) by done.
    by rewrite IH.
Qed.

(** ** The trie keeps every node's tuples distinct by hash *)

Definition uniqHeap (h : gmap nat part) : Prop :=
  forall p x, h !! p = Some x -> uniq (topics x).

Definition uniqTrie (t : partTrie) : Prop := uniqHeap (heap t).

Lemma newPartTrie_uniq : uniqTrie newPartTrie.
Proof.
  intros p x. unfold newPartTrie. cbn.
  intros [_ <-]%lookup_singleton_Some. cbn. apply NoDup_nil_2.
Qed.

Lemma walk_uniq parts : forall h curr h' curr',
  uniqHeap h -> walk h curr parts = Ok (h', curr') -> uniqHeap h'.
Proof.
  induction parts as [|p ps IH]; intros h curr h' curr' Hu; cbn [walk].
  - intros Heq; inversion Heq; by subst.
  - unfold deref. destruct (h !! curr) as [c|] eqn:Hc; [|discriminate]. cbn [bind].
    destruct (children c !! (Query p, Wildchars p)) as [child|].
    + by apply IH.
    + apply IH. intros q x Hq.
      apply lookup_insert_Some in Hq as [[_ <-]|[_ Hq]].
      { cbn. by apply (Hu curr c). }
      apply lookup_insert_Some in Hq as [[_ <-]|[_ Hq]].
      { cbn. apply NoDup_nil_2. }
      by apply (Hu q x).
Qed.

Lemma add_uniq t tp parts d t' added :
  uniqTrie t -> add t tp parts d = Ok (t', added) -> uniqTrie t'.
Proof.
  unfold uniqTrie, add. intros Hu.
  destruct (summary t !! hash tp).
  { intros Heq; inversion Heq; by subst. }
  destruct (walk (heap t) (root t) parts) as [[h curr]| |] eqn:Hw; [|discriminate..].
  cbn [bind]. unfold deref. destruct (h !! curr) as [c|] eqn:Hc; [|discriminate].
  cbn [bind]. intros Heq; inversion Heq; subst; clear Heq. cbn [heap].
  pose proof (walk_uniq _ _ _ _ _ Hu Hw) as Hu'.
  intros q x Hq. apply lookup_insert_Some in Hq as [[_ <-]|[_ Hq]].
  - cbn. apply addUnique_uniq. by apply (Hu' curr c).
  - by apply (Hu' q x).
Qed.

Lemma setOffset_uniq t top t' ok :
  uniqTrie t -> setOffset t top = Ok (t', ok) -> uniqTrie t'.
Proof.
  unfold uniqTrie, setOffset. intros Hu.
  destruct (summary t !! hash top) as [curr|].
  2:{ intros Heq; inversion Heq; by subst. }
  unfold deref. destruct (heap t !! curr) as [c|] eqn:Hc; [|discriminate].
  cbn [bind]. intros Heq; inversion Heq; subst; clear Heq. cbn [heap].
  intros q x Hq. apply lookup_insert_Some in Hq as [[_ <-]|[_ Hq]].
  - cbn. apply addUnique_uniq. by apply (Hu curr c).
  - by apply (Hu q x).
Qed.

(** ** [add] returns on a trie whose pointers all point into the heap *)

Definition closedHeap (h : gmap nat part) : Prop :=
  forall p x key c, h !! p = Some x -> children x !! key = Some c -> is_Some (h !! c).

Definition wfTrie (t : partTrie) : Prop :=
  closedHeap (heap t) /\ is_Some (heap t !! root t).

Lemma newPartTrie_wf : wfTrie newPartTrie.
Proof.
  split.
  - intros p x key c. unfold newPartTrie. cbn.
    intros [_ <-]%lookup_singleton_Some. cbn. by rewrite lookup_empty.
  - unfold newPartTrie. cbn. rewrite lookup_singleton_eq. eauto.
Qed.

Lemma is_Some_insert (h : gmap nat part) a v c :
  is_Some (h !! c) -> is_Some (<[a := v]> h !! c).
Proof.
  intros H. destruct (decide (a = c)) as [->|Hne].
  - rewrite lookup_insert_eq. eauto.
  - by rewrite lookup_insert_ne.
Qed.

Lemma walk_total parts : forall h curr,
  closedHeap h -> is_Some (h !! curr) ->
  exists h' curr', walk h curr parts = Ok (h', curr') /\
                   closedHeap h' /\ is_Some (h' !! curr').
Proof.
  induction parts as [|p ps IH]; intros h curr Hcl [c Hc]; cbn [walk].
  - exists h, curr. eauto.
  - unfold deref. rewrite Hc. cbn [bind].
    destruct (children c !! (Query p, Wildchars p)) as [child|] eqn:Hch.
    + apply IH; [done|]. by apply (Hcl curr c (Query p, Wildchars p) child).
    + set (child := fresh (dom h)).
      assert (Hfresh : h !! child = None)
        by (apply not_elem_of_dom; apply is_fresh).
      assert (Hne : child <> curr) by (intros E; rewrite E in Hfresh; congruence).
      apply IH.
      * intros q x key c0 Hq Hx.
        apply lookup_insert_Some in Hq as [[_ <-]|[Hq1 Hq]].
        { cbn in Hx. apply lookup_insert_Some in Hx as [[_ <-]|[_ Hx]].
          - rewrite lookup_insert_ne by done. rewrite lookup_insert_eq. eauto.
          - do 2 apply is_Some_insert. by apply (Hcl curr c key c0). }
        apply lookup_insert_Some in Hq as [[_ <-]|[_ Hq]].
        { cbn in Hx. by rewrite lookup_empty in Hx. }
        do 2 apply is_Some_insert. by apply (Hcl q x key c0).
      * rewrite lookup_insert_ne by done. rewrite lookup_insert_eq. eauto.
  Qed.

Lemma add_total t tp parts d :
  wfTrie t -> exists t', add t tp parts d = Ok (t', true).
Proof.
  intros [Hcl Hroot]. unfold add.
  destruct (summary t !! hash tp); [eauto|].
  destruct (walk_total parts (heap t) (root t) Hcl Hroot) as (h & curr & -> & _ & [c Hc]).
  cbn [bind]. unfold deref. rewrite Hc. cbn [bind]. eauto.
Qed.

(** After an [add] of a hash, the hash is in the summary map, so that a
    second [add] of it, with whatever offset, parts and depth, returns
    [true] and changes nothing. *)
Lemma add_summary t tp parts d t' added :
  add t tp parts d = Ok (t', added) -> is_Some (summary t' !! hash tp).
Proof.
  unfold add. destruct (summary t !! hash tp) eqn:Hs.
  - intros Heq; inversion Heq; subst. rewrite Hs. eauto.
  - destruct (walk (heap t) (root t) parts) as [[h curr]| |]; [|discriminate..].
    cbn [bind]. destruct (deref h curr); [|discriminate..]. cbn [bind].
    intros Heq; inversion Heq; subst. cbn [summary]. rewrite lookup_insert_eq. eauto.
Qed.

Lemma add_add t tp parts d t' added tp2 parts2 d2 :
  add t tp parts d = Ok (t', added) -> hash tp2 = hash tp ->
  add t' tp2 parts2 d2 = Ok (t', true).
Proof.
  intros [p Hp]%add_summary Hh. unfold add. by rewrite Hh, Hp.
Qed.

(** ** Offsets: what [getOffset] reads after [add] and [setOffset] *)

Lemma find_addUnique top value :
  find (fun tp => hash tp =? hash value) (addUnique top value).1
  = Some {| hash := hash value; offset := offset value |}.
Proof.
  induction top as [|v rest IH]; cbn [addUnique fst find].
  - rewrite Z.eqb_refl. by destruct value.
  - destruct (Z.eqb_spec (hash v) (hash value)) as [Heq|Hne]; cbn [fst find].
    + cbn [hash]. rewrite Heq, Z.eqb_refl. done.
    + destruct (addUnique rest value) as [rest' added]. cbn [fst find] in *.
      by rewrite (proj2 (Z.eqb_neq _ _) Hne).
Qed.

Lemma find_addUnique_ne top value h :
  h <> hash value ->
  find (fun tp => hash tp =? h) (addUnique top value).1
  = find (fun tp => hash tp =? h) top.
Proof.
  intros Hne. induction top as [|v rest IH]; cbn [addUnique fst find].
  - by rewrite (proj2 (Z.eqb_neq (hash value) h)) by congruence.
  - destruct (Z.eqb_spec (hash v) (hash value)) as [Heq|Hne']; cbn [fst find].
    + cbn [hash]. rewrite (proj2 (Z.eqb_neq (hash v) h)) by congruence. done.
    + destruct (addUnique rest value) as [rest' added]. cbn [fst find] in *.
      by rewrite IH.
Qed.

(** Every hash of the summary map points at a part of the heap. *)
Definition summaryValid (t : partTrie) : Prop :=
  forall h p, summary t !! h = Some p -> is_Some (heap t !! p).

(** Every hash of the summary map points at a part that carries a tuple
    of that hash. *)
Definition indexed (t : partTrie) : Prop :=
  forall h p, summary t !! h = Some p ->
  exists x, heap t !! p = Some x /\ h ∈ map hash (topics x).

Lemma indexed_summaryValid t : indexed t -> summaryValid t.
Proof. intros Hi h p Hp. destruct (Hi h p Hp) as (x & -> & _). eauto. Qed.

Lemma newPartTrie_indexed : indexed newPartTrie.
Proof. intros h p. unfold newPartTrie. cbn. by rewrite lookup_empty. Qed.

(** The walk of [add] leaves the tuples, the depth and the key of every
    part that was there. *)
Lemma walk_keeps parts : forall h curr h' curr',
  walk h curr parts = Ok (h', curr') ->
  forall p x, h !! p = Some x ->
  exists x', h' !! p = Some x' /\ topics x' = topics x.
Proof.
  induction parts as [|q ps IH]; intros h curr h' curr'; cbn [walk].
  - intros Heq; inversion Heq; subst. eauto.
  - unfold deref. destruct (h !! curr) as [c|] eqn:Hc; [|discriminate]. cbn [bind].
    destruct (children c !! (Query q, Wildchars q)) as [child|].
    + apply IH.
    + intros Hw p x Hp.
      assert (Hfresh : h !! fresh (dom h) = None)
        by (apply not_elem_of_dom; apply is_fresh).
      destruct (decide (p = curr)) as [->|Hne].
      * rewrite Hc in Hp. inversion Hp; subst x.
        destruct (IH _ _ _ _ Hw curr (setChildren c (<[(Query q, Wildchars q) := fresh (dom h)]> (children c))))
          as (x' & Hx' & Ht).
        { by rewrite lookup_insert_eq. }
        exists x'. split; [done|]. by rewrite Ht.
      * apply (IH _ _ _ _ Hw p x).
        rewrite lookup_insert_ne by done.
        rewrite lookup_insert_ne by (intros E; rewrite E in Hfresh; congruence).
        done.
Qed.

Lemma in_addUnique top value h :
  h ∈ map hash top -> h ∈ map hash (addUnique top value).1.
Proof.
  rewrite addUnique_hashes. destruct (addUnique top value).2; [|done].
  intros H. apply elem_of_app. by left.
Qed.

Lemma in_addUnique_self top value : hash value ∈ map hash (addUnique top value).1.
Proof.
  rewrite addUnique_hashes. destruct (addUnique top value).2 eqn:Ha.
  - apply elem_of_app. right. apply list_elem_of_here.
  - destruct (decide (hash value ∈ map hash top)) as [H|H]; [done|].
    apply addUnique_added in H. congruence.
Qed.

Lemma add_indexed t tp parts d t' added :
  indexed t -> add t tp parts d = Ok (t', added) -> indexed t'.
Proof.
  unfold add. intros Hi.
  destruct (summary t !! hash tp) eqn:Hs.
  { intros Heq; inversion Heq; by subst. }
  destruct (walk (heap t) (root t) parts) as [[h curr]| |] eqn:Hw; [|discriminate..].
  cbn [bind]. unfold deref. destruct (h !! curr) as [c|] eqn:Hc; [|discriminate].
  cbn [bind]. intros Heq; inversion Heq; subst; clear Heq.
  intros h0 p. cbn [summary heap].
  intros [[<- <-]|[Hne Hp]]%lookup_insert_Some.
  - eexists. rewrite lookup_insert_eq. split; [done|]. cbn [topics].
    apply in_addUnique_self.
  - destruct (Hi h0 p Hp) as (x & Hx & Hin).
    destruct (walk_keeps _ _ _ _ _ Hw p x Hx) as (x' & Hx' & Ht).
    destruct (decide (p = curr)) as [->|Hpc].
    + eexists. rewrite lookup_insert_eq. split; [done|]. cbn [topics].
      apply in_addUnique. rewrite Hc in Hx'. inversion Hx'; subst x'. by rewrite Ht.
    + exists x'. rewrite lookup_insert_ne by done. split; [done|]. by rewrite Ht.
Qed.

Lemma setOffset_indexed t top t' ok :
  indexed t -> setOffset t top = Ok (t', ok) -> indexed t'.
Proof.
  unfold setOffset. intros Hi.
  destruct (summary t !! hash top) as [curr|] eqn:Hs.
  2:{ intros Heq; inversion Heq; by subst. }
  unfold deref. destruct (heap t !! curr) as [c|] eqn:Hc; [|discriminate].
  cbn [bind]. intros Heq; inversion Heq; subst; clear Heq.
  intros h0 p. cbn [summary heap]. intros Hp.
  destruct (Hi h0 p Hp) as (x & Hx & Hin).
  destruct (decide (p = curr)) as [->|Hpc].
  - eexists. rewrite lookup_insert_eq. split; [done|]. cbn [topics].
    apply in_addUnique. rewrite Hc in Hx. by inversion Hx; subst x.
  - exists x. by rewrite lookup_insert_ne.
Qed.

Lemma find_hash_Some top h :
  h ∈ map hash top ->
  exists tp, find (fun tp => hash tp =? h) top = Some tp /\ hash tp = h.
Proof.
  induction top as [|v rest IH]; cbn [map find].
  - intros H. by apply elem_of_nil in H.
  - intros H. destruct (Z.eqb_spec (hash v) h) as [Heq|Hne]; [eauto|].
    apply elem_of_cons in H as [H|H]; [congruence|]. by apply IH.
Qed.

(** [getOffset] after [setOffset] and after [add]. *)
Lemma getOffset_setOffset t top t' ok :
  setOffset t top = Ok (t', ok) ->
  getOffset t' (hash top) = Ok (if ok then offset top else 0, ok) /\
  (ok = false -> t' = t) /\
  forall h, h <> hash top -> getOffset t' h = getOffset t h.
Proof.
  unfold setOffset.
  destruct (summary t !! hash top) as [curr|] eqn:Hs.
  2:{ intros Heq; inversion Heq; subst; clear Heq.
      split; [|done]. unfold getOffset. by rewrite Hs. }
  unfold deref. destruct (heap t !! curr) as [c|] eqn:Hc; [|discriminate].
  cbn [bind]. intros Heq; inversion Heq; subst; clear Heq.
  split; [|split; [discriminate|]].
  - unfold getOffset, deref. cbn [summary heap]. rewrite Hs, lookup_insert_eq.
    cbn [bind topics]. by rewrite find_addUnique.
  - intros h Hne. unfold getOffset, deref. cbn [summary heap].
    destruct (summary t !! h) as [p|]; [|done].
    destruct (decide (p = curr)) as [->|Hp].
    + rewrite lookup_insert_eq, Hc. cbn [bind topics].
      by rewrite find_addUnique_ne.
    + by rewrite lookup_insert_ne.
Qed.

Lemma getOffset_add t tp parts d t' added :
  add t tp parts d = Ok (t', added) ->
  getOffset t' (hash tp)
  = match summary t !! hash tp with
    | Some _ => getOffset t (hash tp)
    | None => Ok (offset tp, true)
    end /\
  (is_Some (summary t !! hash tp) -> t' = t) /\
  (summaryValid t -> forall h, h <> hash tp -> getOffset t' h = getOffset t h).
Proof.
  unfold add.
  destruct (summary t !! hash tp) as [p0|] eqn:Hs.
  { intros Heq; inversion Heq; subst; clear Heq. done. }
  destruct (walk (heap t) (root t) parts) as [[hw curr]| |] eqn:Hw; [|discriminate..].
  cbn [bind]. unfold deref. destruct (hw !! curr) as [c|] eqn:Hc; [|discriminate].
  cbn [bind]. intros Heq; inversion Heq; subst; clear Heq.
  split; [|split].
  - unfold getOffset, deref. cbn [summary heap]. rewrite !lookup_insert_eq.
    cbn [bind topics]. by rewrite find_addUnique.
  - intros [? ?]. discriminate.
  - intros Hv h Hne. unfold getOffset, deref. cbn [summary heap].
    rewrite lookup_insert_ne by done.
    destruct (summary t !! h) as [p|] eqn:Hp; [|done].
    destruct (Hv h p Hp) as [x Hx]. rewrite Hx. cbn [bind].
    destruct (walk_keeps _ _ _ _ _ Hw p x Hx) as (x' & Hx' & Ht).
    destruct (decide (p = curr)) as [->|Hpc].
    + rewrite lookup_insert_eq. cbn [bind topics].
      rewrite Hc in Hx'. inversion Hx'; subst x'.
      rewrite find_addUnique_ne by done. by rewrite Ht.
    + rewrite lookup_insert_ne by done. rewrite Hx'. cbn [bind]. by rewrite Ht.
Qed.

(** In an indexed trie [getOffset] knows exactly the hashes of the
    summary map. *)
Lemma getOffset_known t h :
  indexed t -> (exists o, getOffset t h = Ok (o, true)) <-> is_Some (summary t !! h).
Proof.
  intros Hi. unfold getOffset, deref. split.
  - intros [o Ho]. destruct (summary t !! h); [eauto|discriminate].
  - intros [p Hp]. rewrite Hp. destruct (Hi h p Hp) as (x & -> & Hin). cbn [bind].
    destruct (find_hash_Some _ _ Hin) as (tp & -> & _). eauto.
Qed.

Lemma Count_add t tp parts d t' added :
  add t tp parts d = Ok (t', added) ->
  Count t' = Count t + match summary t !! hash tp with Some _ => 0 | None => 1 end.
Proof.
  unfold add, Count.
  destruct (summary t !! hash tp) as [p0|] eqn:Hs.
  { intros Heq; inversion Heq; subst; clear Heq. lia. }
  destruct (walk (heap t) (root t) parts) as [[hw curr]| |] eqn:Hw; [|discriminate..].
  cbn [bind]. destruct (deref hw curr) as [c| |]; [|discriminate..].
  cbn [bind]. intros Heq; inversion Heq; subst; clear Heq. cbn [summary].
  rewrite map_size_insert_None by done. lia.
Qed.

(** ** Lookup finds what was added *)

Lemma addTopics_keeps tops ts h :
  h ∈ map hash tops -> h ∈ map hash (addTopics tops ts).
Proof.
  revert tops. induction ts as [|tp ts IH]; intros tops Hin; [done|].
  cbn [addTopics fold_left]. apply IH. by apply in_addUnique.
Qed.

Lemma addTopics_adds tops ts h :
  h ∈ map hash ts -> h ∈ map hash (addTopics tops ts).
Proof.
  revert tops. induction ts as [|tp ts IH]; intros tops Hin.
  { by apply elem_of_nil in Hin. }
  cbn [map] in Hin. apply elem_of_cons in Hin as [->|Hin].
  - cbn [addTopics fold_left]. apply addTopics_keeps, in_addUnique_self.
  - cbn [addTopics fold_left]. by apply IH.
Qed.


(** [c] is the child of [p] under [kk]. *)
Definition childOf (h : gmap nat part) (p : nat) (kk : key) (c : nat) : Prop :=
  exists x, h !! p = Some x /\ children x !! kk = Some c.

(** The parts of the heap form a forest of bounded height: a level
    grows from every part to its children, and stays below a bound. *)
Definition ranked (h : gmap nat part) (lvl : nat -> nat) (H : nat) : Prop :=
  (forall p kk c, childOf h p kk c -> (lvl p < lvl c)%nat) /\
  (forall p, is_Some (h !! p) -> (lvl p <= H)%nat).

Definition treeInv (h : gmap nat part) : Prop :=
  closedHeap h /\ exists lvl H, ranked h lvl H.

Lemma newPartTrie_tree : treeInv (heap newPartTrie).
Proof.
  split; [apply newPartTrie_wf|].
  exists (fun _ => 0%nat), 0%nat. split.
  - intros p kk c (x & Hx & Hc). unfold newPartTrie in Hx. cbn in Hx.
    apply lookup_singleton_Some in Hx as [_ <-]. cbn in Hc. by rewrite lookup_empty in Hc.
  - intros p _. lia.
Qed.

(** [walk] keeps the links that were there. *)
Lemma walk_childOf parts : forall h curr h' curr',
  walk h curr parts = Ok (h', curr') ->
  forall p kk c, childOf h p kk c -> childOf h' p kk c.
Proof.
  induction parts as [|q ps IH]; intros h curr h' curr'; cbn [walk].
  - intros Heq; inversion Heq; by subst.
  - unfold deref. destruct (h !! curr) as [x|] eqn:Hx; [|discriminate]. cbn [bind].
    destruct (children x !! (Query q, Wildchars q)) as [child|] eqn:Hch.
    + apply IH.
    + intros Hw p kk c (y & Hy & Hc). apply (IH _ _ _ _ Hw).
      assert (Hfresh : h !! fresh (dom h) = None)
        by (apply not_elem_of_dom; apply is_fresh).
      destruct (decide (p = curr)) as [->|Hne].
      * rewrite Hx in Hy. inversion Hy; subst y.
        eexists. rewrite lookup_insert_eq. split; [done|]. cbn [setChildren children].
        rewrite lookup_insert_ne; [done|]. intros <-. congruence.
      * exists y. rewrite lookup_insert_ne by done.
        rewrite lookup_insert_ne by (intros E; rewrite E in Hfresh; congruence).
        done.
Qed.

(** [path h p parts c]: following the keys of [parts] from [p] leads to
    [c]. *)
Inductive path (h : gmap nat part) : nat -> list Part -> nat -> Prop :=
| path_nil p : path h p [] p
| path_cons p q ps c c' :
    childOf h p (Query q, Wildchars q) c -> path h c ps c' -> path h p (q :: ps) c'.

Lemma path_impl h h' p parts c :
  (forall p kk c, childOf h p kk c -> childOf h' p kk c) ->
  path h p parts c -> path h' p parts c.
Proof.
  intros Hc. induction 1 as [p|p q ps c c' Hpc _ IH].
  - apply path_nil.
  - eapply path_cons; [by apply Hc | exact IH].
Qed.

Lemma walk_path parts : forall h curr h' curr',
  walk h curr parts = Ok (h', curr') -> path h' curr parts curr'.
Proof.
  induction parts as [|q ps IH]; intros h curr h' curr'; cbn [walk].
  - intros Heq; inversion Heq; subst. apply path_nil.
  - unfold deref. destruct (h !! curr) as [x|] eqn:Hx; [|discriminate]. cbn [bind].
    destruct (children x !! (Query q, Wildchars q)) as [child|] eqn:Hch.
    + intros Hw. eapply path_cons; [|by eapply IH].
      apply (walk_childOf _ _ _ _ _ Hw). by exists x.
    + intros Hw. eapply path_cons; [|by eapply IH].
      apply (walk_childOf _ _ _ _ _ Hw).
      eexists. rewrite lookup_insert_eq. split; [done|]. cbn [setChildren children].
      by rewrite lookup_insert_eq.
Qed.

Lemma walk_tree parts : forall h curr h' curr',
  treeInv h -> is_Some (h !! curr) ->
  walk h curr parts = Ok (h', curr') -> treeInv h' /\ is_Some (h' !! curr').
Proof.
  induction parts as [|q ps IH]; intros h curr h' curr' Ht Hcurr; cbn [walk].
  - intros Heq; inversion Heq; by subst.
  - unfold deref. destruct (h !! curr) as [x|] eqn:Hx; [|discriminate]. cbn [bind].
    destruct Ht as (Hcl & lvl & H & Hlt & Hle).
    destruct (children x !! (Query q, Wildchars q)) as [child|] eqn:Hch.
    + apply IH.
      * split; [done|]. by exists lvl, H.
      * by apply (Hcl curr x (Query q, Wildchars q) child).
    + set (child := fresh (dom h)).
      assert (Hfresh : h !! child = None)
        by (apply not_elem_of_dom; apply is_fresh).
      assert (Hne : child <> curr) by (intros E; rewrite E in Hfresh; congruence).
      apply IH.
      * split.
        -- intros p y kk c Hp Hy.
           apply lookup_insert_Some in Hp as [[_ <-]|[Hp1 Hp]].
           { cbn in Hy. apply lookup_insert_Some in Hy as [[_ <-]|[_ Hy]].
             - rewrite lookup_insert_ne by done. rewrite lookup_insert_eq. eauto.
             - do 2 apply is_Some_insert. by apply (Hcl curr x kk c). }
           apply lookup_insert_Some in Hp as [[_ <-]|[_ Hp]].
           { cbn in Hy. by rewrite lookup_empty in Hy. }
           do 2 apply is_Some_insert. by apply (Hcl p y kk c).
        -- exists (fun p => if decide (p = child) then S (lvl curr) else lvl p),
                  (S H).
           split.
           ++ intros p kk c (y & Hp & Hy).
              apply lookup_insert_Some in Hp as [[<- <-]|[Hp1 Hp]].
              { cbn in Hy. rewrite decide_False by done.
                apply lookup_insert_Some in Hy as [[_ <-]|[_ Hy]].
                - rewrite decide_True by done. lia.
                - assert (c <> child).
                  { intros ->. destruct (Hcl curr x kk child Hx Hy) as [? ?]. congruence. }
                  rewrite decide_False by done. apply (Hlt curr kk c). by exists x. }
              apply lookup_insert_Some in Hp as [[<- <-]|[Hp2 Hp]].
              { cbn in Hy. by rewrite lookup_empty in Hy. }
              rewrite decide_False by done.
              assert (c <> child).
              { intros ->. destruct (Hcl p y kk child Hp Hy) as [? ?]. congruence. }
              rewrite decide_False by done. apply (Hlt p kk c). by exists y.
           ++ intros p Hp. destruct (decide (p = child)) as [->|Hpc].
              ** assert (lvl curr <= H)%nat by (apply Hle; eauto). lia.
              ** destruct (decide (p = curr)) as [->|Hpcurr].
                 { assert (lvl curr <= H)%nat by (apply Hle; eauto). lia. }
                 rewrite lookup_insert_ne in Hp by done.
                 rewrite lookup_insert_ne in Hp by done.
                 specialize (Hle p Hp). lia.
      * rewrite lookup_insert_ne by done. rewrite lookup_insert_eq. eauto.
Qed.

(** Writing a part back with its children unchanged keeps the links. *)
Lemma update_childOf h curr c c' p kk x :
  h !! curr = Some c -> children c' = children c ->
  childOf (<[curr := c']> h) p kk x <-> childOf h p kk x.
Proof.
  intros Hc Hch. unfold childOf. destruct (decide (p = curr)) as [->|Hne].
  - rewrite lookup_insert_eq. split.
    + intros (y & Hy & Hx). inversion Hy; subst y. exists c. by rewrite <- Hch.
    + intros (y & Hy & Hx). rewrite Hc in Hy. inversion Hy; subst y.
      exists c'. by rewrite Hch.
  - by rewrite lookup_insert_ne.
Qed.

Lemma update_tree h curr c c' :
  h !! curr = Some c -> children c' = children c ->
  treeInv h -> treeInv (<[curr := c']> h).
Proof.
  intros Hc Hch (Hcl & lvl & H & Hlt & Hle). split.
  - intros p y kk x Hp Hy. apply is_Some_insert.
    destruct (decide (p = curr)) as [->|Hne].
    + rewrite lookup_insert_eq in Hp. inversion Hp; subst y. rewrite Hch in Hy.
      by apply (Hcl curr c kk x).
    + rewrite lookup_insert_ne in Hp by done. by apply (Hcl p y kk x).
  - exists lvl, H. split.
    + intros p kk x Hx. apply (Hlt p kk x). by eapply update_childOf.
    + intros p Hp. apply Hle. destruct (decide (p = curr)) as [->|Hne]; [eauto|].
      by rewrite lookup_insert_ne in Hp.
Qed.

(** ** The tuples that [lookup] returns carry the offsets of the trie *)

(** Every tuple of a part is indexed by the summary map under its hash,
    and no part carries a hash twice. *)
Definition owned (t : partTrie) : Prop :=
  forall p x tp, heap t !! p = Some x -> tp ∈ topics x -> summary t !! hash tp = Some p.

Definition offsetsInv (t : partTrie) : Prop := uniqTrie t /\ owned t.

Lemma newPartTrie_offsetsInv : offsetsInv newPartTrie.
Proof.
  split; [apply newPartTrie_uniq|].
  intros p x tp. unfold newPartTrie. cbn.
  intros [_ <-]%lookup_singleton_Some. cbn. intros H. by apply elem_of_nil in H.
Qed.

Lemma addUnique_elems top value tp :
  tp ∈ (addUnique top value).1 -> tp ∈ top \/ tp = value.
Proof.
  induction top as [|v rest IH]; cbn [addUnique fst].
  - intros H. apply list_elem_of_singleton in H. by right.
  - destruct (Z.eqb_spec (hash v) (hash value)) as [Heq|Hne]; cbn [fst].
    + intros H. apply elem_of_cons in H as [->|H].
      * right. rewrite Heq. by destruct value.
      * left. by apply list_elem_of_further.
    + destruct (addUnique rest value) as [rest' added]. cbn [fst] in *.
      intros H. apply elem_of_cons in H as [->|H].
      * left. apply list_elem_of_here.
      * destruct (IH H) as [H'|H']; [left; by apply list_elem_of_further | by right].
Qed.

(** The walk of [add] makes parts without tuples and leaves the tuples
    of the others. *)
Lemma walk_topics parts : forall h curr h' curr',
  walk h curr parts = Ok (h', curr') ->
  forall p x', h' !! p = Some x' ->
  topics x' = [] \/ exists x, h !! p = Some x /\ topics x = topics x'.
Proof.
  induction parts as [|q ps IH]; intros h curr h' curr'; cbn [walk].
  - intros Heq; inversion Heq; subst. intros p x' Hp. right. by exists x'.
  - unfold deref. destruct (h !! curr) as [c|] eqn:Hc; [|discriminate]. cbn [bind].
    destruct (children c !! (Query q, Wildchars q)) as [child|].
    + apply IH.
    + intros Hw p x' Hp. destruct (IH _ _ _ _ Hw p x' Hp) as [He|(x & Hx & Ht)]; [by left|].
      apply lookup_insert_Some in Hx as [[<- <-]|[_ Hx]].
      { right. exists c. split; [done|]. by rewrite <- Ht. }
      apply lookup_insert_Some in Hx as [[<- <-]|[_ Hx]].
      { left. by rewrite <- Ht. }
      right. by exists x.
Qed.

Lemma add_offsetsInv t tp parts d t' added :
  offsetsInv t -> add t tp parts d = Ok (t', added) -> offsetsInv t'.
Proof.
  intros [Hu Ho] Hadd. split; [by eapply add_uniq|].
  revert Hadd. unfold add.
  destruct (summary t !! hash tp) eqn:Hs.
  { intros Heq; inversion Heq; by subst. }
  destruct (walk (heap t) (root t) parts) as [[hw curr]| |] eqn:Hw; [|discriminate..].
  cbn [bind]. unfold deref. destruct (hw !! curr) as [c|] eqn:Hc; [|discriminate].
  cbn [bind]. intros Heq; inversion Heq; subst; clear Heq.
  assert (Hold : forall p x' tp', hw !! p = Some x' -> tp' ∈ topics x' ->
                   summary t !! hash tp' = Some p /\ hash tp' <> hash tp).
  { intros p x' tp' Hp Hin.
    destruct (walk_topics _ _ _ _ _ Hw p x' Hp) as [He|(x & Hx & Ht)].
    { rewrite He in Hin. by apply elem_of_nil in Hin. }
    rewrite <- Ht in Hin. pose proof (Ho p x tp' Hx Hin) as Hsum.
    split; [done|]. intros E. rewrite E in Hsum. congruence. }
  intros p x tp' Hp Hin. cbn [summary heap] in *.
  apply lookup_insert_Some in Hp as [[<- <-]|[Hne Hp]].
  - cbn [topics] in Hin. apply addUnique_elems in Hin as [Hin| ->].
    + destruct (Hold curr c tp' Hc Hin) as [Hsum Hh].
      by rewrite lookup_insert_ne.
    + by rewrite lookup_insert_eq.
  - destruct (Hold p x tp' Hp Hin) as [Hsum Hh]. by rewrite lookup_insert_ne.
Qed.

Lemma setOffset_offsetsInv t top t' ok :
  offsetsInv t -> setOffset t top = Ok (t', ok) -> offsetsInv t'.
Proof.
  intros [Hu Ho] Hset. split; [by eapply setOffset_uniq|].
  revert Hset. unfold setOffset.
  destruct (summary t !! hash top) as [curr|] eqn:Hs.
  2:{ intros Heq; inversion Heq; by subst. }
  unfold deref. destruct (heap t !! curr) as [c|] eqn:Hc; [|discriminate].
  cbn [bind]. intros Heq; inversion Heq; subst; clear Heq.
  intros p x tp' Hp Hin. cbn [summary heap] in *.
  apply lookup_insert_Some in Hp as [[<- <-]|[Hne Hp]].
  - cbn [topics] in Hin. apply addUnique_elems in Hin as [Hin| ->]; [|done].
    by apply (Ho curr c).
  - by apply (Ho p x).
Qed.

Lemma find_uniq top tp :
  uniq top -> tp ∈ top -> find (fun u => hash u =? hash tp) top = Some tp.
Proof.
  unfold uniq. induction top as [|v rest IH]; intros Hnd Hin.
  { by apply elem_of_nil in Hin. }
  cbn [map] in Hnd. apply NoDup_cons in Hnd as [Hv Hnd].
  cbn [find]. apply elem_of_cons in Hin as [->|Hin].
  - by rewrite Z.eqb_refl.
  - destruct (Z.eqb_spec (hash v) (hash tp)) as [Heq|Hne]; [|by apply IH].
    exfalso. apply Hv. rewrite Heq. apply list_elem_of_fmap. by exists tp.
Qed.

(** A tuple of a part is what [getOffset] returns for its hash. *)
Lemma getOffset_owned t p x tp :
  offsetsInv t -> heap t !! p = Some x -> tp ∈ topics x ->
  getOffset t (hash tp) = Ok (offset tp, true).
Proof.
  intros [Hu Ho] Hp Hin. unfold getOffset, deref.
  rewrite (Ho p x tp Hp Hin), Hp. cbn [bind].
  by rewrite (find_uniq (topics x) tp (Hu p x Hp) Hin).
Qed.

(** Every tuple of [tops] is a tuple of some part. *)
Definition fromParts (h : gmap nat part) (tops : list topic) : Prop :=
  forall tp, tp ∈ tops -> exists p x, h !! p = Some x /\ tp ∈ topics x.

Lemma addTopics_fromParts h p x tops :
  h !! p = Some x -> fromParts h tops -> fromParts h (addTopics tops (topics x)).
Proof.
  intros Hp. unfold addTopics.
  assert (Hsub : forall tp, tp ∈ topics x -> exists p x, h !! p = Some x /\ tp ∈ topics x)
    by (intros tp Htp; by exists p, x).
  revert tops Hsub. generalize (topics x). intros ts.
  induction ts as [|v ts IH]; intros tops Hsub Hf; [done|].
  cbn [fold_left]. apply IH.
  - intros tp Htp. apply Hsub. by apply list_elem_of_further.
  - intros tp Htp. apply addUnique_elems in Htp as [Htp| ->]; [by apply Hf|].
    apply Hsub. apply list_elem_of_here.
Qed.

(** The invariants of a trie on which [lookup] returns. *)
Definition lookupInv (t : partTrie) : Prop := wfTrie t /\ treeInv (heap t).

Lemma newPartTrie_lookupInv : lookupInv newPartTrie.
Proof. split; [apply newPartTrie_wf | apply newPartTrie_tree]. Qed.

Lemma add_lookupInv t tp parts d t' added :
  lookupInv t -> add t tp parts d = Ok (t', added) -> lookupInv t'.
Proof.
  intros [[Hcl Hroot] Ht]. unfold add.
  destruct (summary t !! hash tp).
  { intros Heq; inversion Heq; by subst. }
  destruct (walk (heap t) (root t) parts) as [[hw curr]| |] eqn:Hw; [|discriminate..].
  cbn [bind]. unfold deref. destruct (hw !! curr) as [c|] eqn:Hc; [|discriminate].
  cbn [bind]. intros Heq; inversion Heq; subst; clear Heq.
  destruct (walk_tree _ _ _ _ _ Ht Hroot Hw) as [Htw _].
  assert (Ht' : treeInv (<[curr := {| k := k c; depth := d; parent := parent c;
                                      children := children c;
                                      topics := (addUnique (topics c) tp).1 |}]> hw))
    by (by apply (update_tree hw curr c)).
  split; [|exact Ht'].
  split; [apply Ht'|]. cbn [heap root]. apply is_Some_insert.
  destruct Hroot as [r Hr].
  destruct (walk_keeps _ _ _ _ _ Hw (root t) r Hr) as (r' & -> & _). eauto.
Qed.

Section LookupFacts.
Variable Wildcard : Z.
Variable TopicStatic : Z.
Variable range : gmap key nat -> list (key * nat).
(** A visit of a map meets each of its entries once. *)
Hypothesis range_perm : forall m, range m ≡ₚ map_to_list m.

Lemma range_child h p x kk c :
  h !! p = Some x -> (kk, c) ∈ range (children x) -> childOf h p kk c.
Proof.
  intros Hx Hin. exists x. split; [done|].
  rewrite range_perm in Hin. by apply elem_of_map_to_list in Hin.
Qed.

(** With fuel for the height of the forest below it, [ilookup] returns
    on every part of the heap, and what it returns holds the hashes it
    was given. *)
Lemma ilookup_returns h lvl H d tt :
  closedHeap h -> ranked h lvl H ->
  forall fuel p query tops,
    is_Some (h !! p) -> (H - lvl p < fuel)%nat ->
    exists tops',
      ilookup Wildcard TopicStatic range fuel h query d tt tops p = Some (Ok tops') /\
      forall hs, hs ∈ map hash tops -> hs ∈ map hash tops'.
Proof.
  intros Hcl [Hlt Hle].
  induction fuel as [|fuel IH]; intros p query tops [x Hx] Hfuel; [lia|].
  cbn [ilookup]. rewrite Hx.
  set (tops1 := if _ || _ then addTopics tops (topics x) else tops).
  assert (H1 : forall hs, hs ∈ map hash tops -> hs ∈ map hash tops1).
  { intros hs Hhs. subst tops1. destruct (_ || _); [by apply addTopics_keeps|done]. }
  clearbody tops1.
  destruct query as [|q rest]; [by exists tops1|].
  assert (Hall : forall kk c, (kk, c) ∈ range (children x) ->
                   is_Some (h !! c) /\ (H - lvl c < fuel)%nat).
  { intros kk c Hin. pose proof (range_child h p x kk c Hx Hin) as Hch.
    assert (Hc : is_Some (h !! c)).
    { destruct Hch as (y & Hy & Hc). rewrite Hx in Hy. inversion Hy; subst y.
      by apply (Hcl p x kk c). }
    split; [done|].
    specialize (Hlt p kk c Hch). specialize (Hle c Hc). lia. }
  revert Hall H1. generalize tops1. generalize (range (children x)).
  intros l. induction l as [|[kk c] l IHl]; intros t1 Hall H1.
  - exists t1. done.
  - cbn [fold_left].
    destruct (Hall kk c (list_elem_of_here _ _)) as [Hc Hf].
    assert (Hstep : exists t2,
              (if (fst kk =? Query q) && (Wildchars q =? snd kk)
               then ilookup Wildcard TopicStatic range fuel h rest d tt t1 c
               else if (fst kk =? Query q)
                       && (toUint8 (snd kk + 1) <=? toUint8 (Z.of_nat (length (q :: rest))))
               then ilookup Wildcard TopicStatic range fuel h
                      (drop (Z.to_nat (toUint8 (snd kk + 1))) (q :: rest)) d tt t1 c
               else if fst kk =? Wildcard
               then ilookup Wildcard TopicStatic range fuel h (q :: rest) d tt t1 c
               else Some (Ok t1)) = Some (Ok t2) /\
              forall hs, hs ∈ map hash t1 -> hs ∈ map hash t2).
    { destruct (_ && _); [by apply IH|].
      destruct (_ && _); [by apply IH|].
      destruct (_ =? _); [by apply IH|]. by exists t1. }
    destruct Hstep as (t2 & -> & H2).
    apply IHl.
    + intros kk' c' Hin. apply (Hall kk' c'). by apply list_elem_of_further.
    + intros hs Hhs. by apply H2, H1.
Qed.

(** Along a path that ends at a part of the wanted depth, [ilookup]
    with the keys of the path collects the hashes of that part. *)
Lemma ilookup_finds h lvl H d tt hs :
  closedHeap h -> ranked h lvl H ->
  forall parts p target, path h p parts target ->
  forall x, h !! target = Some x -> depth x = d -> hs ∈ map hash (topics x) ->
  forall fuel tops, is_Some (h !! p) -> (H - lvl p < fuel)%nat ->
  exists tops',
    ilookup Wildcard TopicStatic range fuel h parts d tt tops p = Some (Ok tops') /\
    hs ∈ map hash tops'.
Proof.
  intros Hcl Hr parts p target Hpath.
  induction Hpath as [p|p q ps c c' Hpc Hpath IH];
    intros x Hx Hd Hin fuel tops Hp Hfuel.
  - destruct fuel as [|fuel]; [lia|]. cbn [ilookup]. rewrite Hx, Hd, Z.eqb_refl.
    cbn [orb]. eexists. split; [done|]. by apply addTopics_adds.
  - destruct fuel as [|fuel]; [lia|]. cbn [ilookup].
    destruct Hpc as (y & Hy & Hc). rewrite Hy.
    set (tops1 := if _ || _ then addTopics tops (topics y) else tops).
    clearbody tops1.
    assert (Hcin : ((Query q, Wildchars q), c) ∈ range (children y)).
    { rewrite range_perm. by apply elem_of_map_to_list. }
    assert (Hall : forall kk c0, (kk, c0) ∈ range (children y) ->
                     is_Some (h !! c0) /\ (H - lvl c0 < fuel)%nat).
    { intros kk c0 Hin0. pose proof (range_child h p y kk c0 Hy Hin0) as Hch.
      destruct Hr as [Hlt Hle].
      assert (Hc0 : is_Some (h !! c0)).
      { destruct Hch as (y' & Hy' & Hc'). rewrite Hy in Hy'. inversion Hy'; subst y'.
        by apply (Hcl p y kk c0). }
      split; [done|].
      specialize (Hlt p kk c0 Hch). specialize (Hle c0 Hc0). lia. }
    apply list_elem_of_split in Hcin as (l1 & l2 & Hl).
    revert Hall. rewrite Hl. intros Hall. rewrite fold_left_app. cbn [fold_left].
    (* the children visited before the one of the path *)
    assert (Hpre : forall l t0,
              (forall kk c0, (kk, c0) ∈ l -> is_Some (h !! c0) /\ (H - lvl c0 < fuel)%nat) ->
              exists t1,
                fold_left (fun r '(kk, p0) =>
                  match r with
                  | Some (Ok tops0) =>
                      if (fst kk =? Query q) && (Wildchars q =? snd kk)
                      then ilookup Wildcard TopicStatic range fuel h ps d tt tops0 p0
                      else if (fst kk =? Query q)
                              && (toUint8 (snd kk + 1) <=? toUint8 (Z.of_nat (length (q :: ps))))
                      then ilookup Wildcard TopicStatic range fuel h
                             (drop (Z.to_nat (toUint8 (snd kk + 1))) (q :: ps)) d tt tops0 p0
                      else if fst kk =? Wildcard
                      then ilookup Wildcard TopicStatic range fuel h (q :: ps) d tt tops0 p0
                      else r
                  | _ => r
                  end) l (Some (Ok t0)) = Some (Ok t1) /\
                forall hs0, hs0 ∈ map hash t0 -> hs0 ∈ map hash t1).
    { intros l. induction l as [|[kk c0] l IHl]; intros t0 Hl0.
      - exists t0. done.
      - cbn [fold_left].
        destruct (Hl0 kk c0 (list_elem_of_here _ _)) as [Hc0 Hf0].
        assert (Hstep : exists t2,
                  (if (fst kk =? Query q) && (Wildchars q =? snd kk)
                   then ilookup Wildcard TopicStatic range fuel h ps d tt t0 c0
                   else if (fst kk =? Query q)
                           && (toUint8 (snd kk + 1) <=? toUint8 (Z.of_nat (length (q :: ps))))
                   then ilookup Wildcard TopicStatic range fuel h
                          (drop (Z.to_nat (toUint8 (snd kk + 1))) (q :: ps)) d tt t0 c0
                   else if fst kk =? Wildcard
                   then ilookup Wildcard TopicStatic range fuel h (q :: ps) d tt t0 c0
                   else Some (Ok t0)) = Some (Ok t2) /\
                  forall hs0, hs0 ∈ map hash t0 -> hs0 ∈ map hash t2).
        { destruct (_ && _); [by eapply ilookup_returns|].
          destruct (_ && _); [by eapply ilookup_returns|].
          destruct (_ =? _); [by eapply ilookup_returns|]. by exists t0. }
        destruct Hstep as (t2 & -> & H2).
        destruct (IHl t2) as (t3 & -> & H3).
        { intros kk' c1 Hin'. apply (Hl0 kk' c1). by apply list_elem_of_further. }
        exists t3. split; [done|]. intros hs0 Hhs0. by apply H3, H2. }
    destruct (Hpre l1 tops1) as (t1 & -> & _).
    { intros kk c0 Hin0. apply (Hall kk c0). apply elem_of_app. by left. }
    cbn [fst snd]. rewrite !Z.eqb_refl. cbn [andb].
    destruct (Hall (Query q, Wildchars q) c) as [Hc' Hf'].
    { apply elem_of_app. right. apply list_elem_of_here. }
    destruct (IH x Hx Hd Hin fuel t1 Hc' Hf') as (t2 & -> & Ht2).
    destruct (Hpre l2 t2) as (t3 & -> & H3).
    { intros kk c0 Hin0. apply (Hall kk c0). apply elem_of_app. right.
      by apply list_elem_of_further. }
    exists t3. split; [done|]. by apply H3.
Qed.






Lemma ilookup_fromParts h d tt fuel : forall query tops p tops',
  ilookup Wildcard TopicStatic range fuel h query d tt tops p = Some (Ok tops') ->
  fromParts h tops -> fromParts h tops'.
Proof.
  induction fuel as [|fuel IH]; intros query tops p tops'; cbn [ilookup]; [discriminate|].
  destruct (h !! p) as [x|] eqn:Hx; [|discriminate].
  intros Hl Hf. revert Hl.
  set (tops1 := if _ || _ then addTopics tops (topics x) else tops).
  assert (H1 : fromParts h tops1).
  { subst tops1. destruct (_ || _); [|done]. by apply (addTopics_fromParts h p x). }
  clearbody tops1.
  destruct query as [|q rest].
  { intros Heq; inversion Heq; by subst. }
  enough (Hfold : forall l r,
            (forall t0, r = Some (Ok t0) -> fromParts h t0) ->
            fold_left (fun r '(kk, p0) =>
              match r with
              | Some (Ok tops0) =>
                  if (fst kk =? Query q) && (Wildchars q =? snd kk)
                  then ilookup Wildcard TopicStatic range fuel h rest d tt tops0 p0
                  else if (fst kk =? Query q)
                          && (toUint8 (snd kk + 1) <=? toUint8 (Z.of_nat (length (q :: rest))))
                  then ilookup Wildcard TopicStatic range fuel h
                         (drop (Z.to_nat (toUint8 (snd kk + 1))) (q :: rest)) d tt tops0 p0
                  else if fst kk =? Wildcard
                  then ilookup Wildcard TopicStatic range fuel h (q :: rest) d tt tops0 p0
                  else r
              | _ => r
              end) l r = Some (Ok tops') ->
            fromParts h tops').
  { apply Hfold. intros t0 Heq. inversion Heq; by subst. }
  intros l. induction l as [|[kk c] l IHl]; intros r Hr.
  - cbn [fold_left]. intros ->. by apply Hr.
  - cbn [fold_left]. apply IHl. intros t1.
    destruct r as [[t0| |]|]; try done.
    specialize (Hr t0 eq_refl).
    destruct (_ && _); [intros Hi; by eapply IH|].
    destruct (_ && _); [intros Hi; by eapply IH|].
    destruct (_ =? _); [intros Hi; by eapply IH|].
    intros Heq. inversion Heq; by subst.
Qed.

(** Each tuple that [lookup] returns carries the offset that [getOffset]
    returns for its hash. *)
Lemma lookup_offsets t query d tt fuel tops :
  offsetsInv t ->
  lookup Wildcard TopicStatic range fuel t query d tt = Some (Ok tops) ->
  forall tp, tp ∈ tops -> getOffset t (hash tp) = Ok (offset tp, true).
Proof.
  intros Hinv Hl tp Htp. unfold lookup in Hl.
  apply ilookup_fromParts in Hl.
  - destruct (Hl tp Htp) as (p & x & Hp & Hin). by eapply getOffset_owned.
  - intros tp' H. by apply elem_of_nil in H.
Qed.


(** A topic that was added is found by a lookup with its own parts and
    depth. *)
Lemma lookup_add t tp parts d t' added tt :
  lookupInv t -> summary t !! hash tp = None ->
  add t tp parts d = Ok (t', added) ->
  exists fuel0, forall fuel, (fuel0 <= fuel)%nat ->
  exists tops,
    lookup Wildcard TopicStatic range fuel t' parts d tt = Some (Ok tops) /\
    hash tp ∈ map hash tops.
Proof.
  intros Hinv Hs Hadd.
  destruct (add_lookupInv _ _ _ _ _ _ Hinv Hadd) as [[_ Hroot'] (Hcl' & lvl & H & Hr')].
  revert Hadd Hroot' Hcl' Hr'. unfold add. rewrite Hs.
  destruct (walk (heap t) (root t) parts) as [[hw curr]| |] eqn:Hw; [|discriminate..].
  cbn [bind]. unfold deref. destruct (hw !! curr) as [c|] eqn:Hc; [|discriminate].
  cbn [bind]. intros Heq; inversion Heq; subst; clear Heq.
  cbn [heap root]. intros Hroot' Hcl' Hr'.
  exists (S (H - lvl (root t))). intros fuel Hfuel.
  set (c' := {| k := k c; depth := d; parent := parent c; children := children c;
                topics := (addUnique (topics c) tp).1 |}) in *.
  assert (Hpath : path (<[curr := c']> hw) (root t) parts curr).
  { apply (path_impl hw); [|by eapply walk_path].
    intros p kk x Hx. by apply (update_childOf hw curr c c'). }
  assert (Hx : <[curr := c']> hw !! curr = Some c') by (by rewrite lookup_insert_eq).
  assert (Hin : hash tp ∈ map hash (topics c')) by apply in_addUnique_self.
  assert (Hf : (H - lvl (root t) < fuel)%nat) by lia.
  destruct (ilookup_finds (<[curr := c']> hw) lvl H d tt (hash tp) Hcl' Hr'
              parts (root t) curr Hpath c' Hx eq_refl Hin fuel [] Hroot' Hf)
    as (tops & Hl & Hin').
  exists tops. split; [exact Hl|exact Hin'].
Qed.
End LookupFacts.

End trie.

(* ===================================================================== *)
(** * syncer: the sync handle (package tracedb, sync file)                *)
(* ===================================================================== *)

Module syncer.

Section Sync.
(** What the pipeline of [Sync] reads and writes (index, data and
    window files, trie, memdb, WAL, filter, counters, buffer pool) is
    kept abstract, and so are the buffers and writers of a handle. *)
Variable Store : Type.
Variable Writers : Type.

(** [DB], as far as the sync handle looks into it. [syncLockC] is a
    channel of capacity one: [true] when it holds a token. [closeW] is
    the counter of the wait group. *)
Record DB := {
  seq : Z;               (* uint64, read by db.Seq() *)
  syncLockC : bool;
  closeW : Z;
  store : Store
}.

(** [syncHandle]: the embedded [internal] and [*DB], and the writers
    ([rawBlock], [rawData], [blockWriter], [dataWriter]). *)
Record syncHandle := {
  upperSeq : Z;
  lastSyncSeq : Z;
  syncStatusOk : bool;
  writers : Writers;
  db : DB
}.

(** [bufPool.Get] twice with [newBlockWriter] and [newDataWriter], and
    [bufPool.Put] twice: collaborators working on the store. *)
Variable getWriters : Store -> Store * Writers.
Variable putWriters : Store -> Writers -> Store.

(** The body of [Sync] after [startSync]: [foreachTimeWindow] with its
    callback, and [startRecovery] if that failed. [Panic] is the panic
    after a failed recovery. *)
Variable pipeline : syncHandle -> res syncHandle.

Definition Seq (d : DB) : Z := seq d.

Definition setStore (d : DB) (s : Store) : DB :=
  {| seq := seq d; syncLockC := syncLockC d; closeW := closeW d; store := s |}.

(** [syncHandle.startSync]. *)
Definition startSync (h : syncHandle) : syncHandle * bool :=
  if lastSyncSeq h =? Seq (db h) then
    ({| upperSeq := upperSeq h; lastSyncSeq := lastSyncSeq h; syncStatusOk := false;
        writers := writers h; db := db h |}, false)
  else
    let '(s, w) := getWriters (store (db h)) in
    ({| upperSeq := upperSeq h; lastSyncSeq := Seq (db h); syncStatusOk := true;
        writers := w; db := setStore (db h) s |}, true).

(** [syncHandle.finish]. *)
Definition finish (h : syncHandle) : syncHandle :=
  if negb (syncStatusOk h) then h
  else {| upperSeq := upperSeq h; lastSyncSeq := lastSyncSeq h;
          syncStatusOk := syncStatusOk h; writers := writers h;
          db := setStore (db h) (putWriters (store (db h)) (writers h)) |}.

(** Taking and giving back the sync lock, with the wait group. *)
Definition acquire (h : syncHandle) : syncHandle :=
  {| upperSeq := upperSeq h; lastSyncSeq := lastSyncSeq h;
     syncStatusOk := syncStatusOk h; writers := writers h;
     db := {| seq := seq (db h); syncLockC := true; closeW := closeW (db h) + 1;
              store := store (db h) |} |}.

Definition release (h : syncHandle) : syncHandle :=
  {| upperSeq := upperSeq h; lastSyncSeq := lastSyncSeq h;
     syncStatusOk := syncStatusOk h; writers := writers h;
     db := {| seq := seq (db h); syncLockC := false; closeW := closeW (db h) - 1;
              store := store (db h) |} |}.

(** [syncHandle.Sync]. The send on [syncLockC] blocks while the channel
    is full: [None] is a call that does not get past it. Otherwise the
    handle after the call and the error returned, which is always nil. *)
Definition Sync (h : syncHandle) : option (res (syncHandle * option error)) :=
  if syncLockC (db h) then None
  else
    let h := acquire h in
    let '(h, ok) := startSync h in
    if negb ok then Some (Ok (release h, None))
    else
      Some (bind (pipeline h) (fun h => Ok (release (finish h), None))).

(** Either way out of [startSync], the handle has caught up with the
    sequence of the database. *)
Lemma startSync_caught_up h :
  lastSyncSeq (startSync h).1 = Seq (db (startSync h).1).
Proof.
  unfold startSync. destruct (Z.eqb_spec (lastSyncSeq h) (Seq (db h))) as [E|E].
  - exact E.
  - destruct (getWriters (store (db h))) as [s w]. done.
Qed.

(** With nothing new to sync, [Sync] only clears [syncStatusOk]. *)
Lemma Sync_nothing_to_do h :
  syncLockC (db h) = false -> lastSyncSeq h = Seq (db h) ->
  Sync h = Some (Ok ({| upperSeq := upperSeq h; lastSyncSeq := lastSyncSeq h;
                        syncStatusOk := false; writers := writers h; db := db h |},
                     None)).
Proof.
  destruct h as [u l ok w [q lk c st]]. cbn [db syncLockC lastSyncSeq Seq seq].
  intros -> ->. unfold Sync, startSync, acquire, release, Seq.
  cbn [db syncLockC lastSyncSeq seq upperSeq writers closeW store syncStatusOk].
  rewrite Z.eqb_refl. cbn [negb].
  cbn [db syncLockC lastSyncSeq seq upperSeq writers closeW store syncStatusOk].
  replace (c + 1 - 1) with c by lia. done.
Qed.

(** A pipeline that puts no entry and leaves [lastSyncSeq] alone. *)
Definition quiet : Prop :=
  forall h h', pipeline h = Ok h' ->
    lastSyncSeq h' = lastSyncSeq h /\ Seq (db h') = Seq (db h).

(** After a [Sync] that returned, the lock is free again and the handle
    has caught up with the sequence. *)
Lemma Sync_caught_up h h' e :
  quiet -> Sync h = Some (Ok (h', e)) ->
  e = None /\ syncLockC (db h') = false /\ lastSyncSeq h' = Seq (db h').
Proof.
  intros Hq. unfold Sync. destruct (syncLockC (db h)); [discriminate|].
  pose proof (startSync_caught_up (acquire h)) as Hs.
  destruct (startSync (acquire h)) as [h1 ok]. cbn [fst] in Hs.
  destruct ok; cbn [negb].
  - destruct (pipeline h1) as [h2| |] eqn:Hp; cbn [bind]; [|discriminate..].
    destruct (Hq h1 h2 Hp) as [Hl Hseq].
    intros Heq; inversion Heq; subst; clear Heq. split; [done|]. split; [done|].
    unfold finish. destruct (negb (syncStatusOk h2)); cbn; unfold Seq in *; congruence.
  - intros Heq; inversion Heq; subst; clear Heq. done.
Qed.
End Sync.

End syncer.

(* ===================================================================== *)
(** * utp: the length prefix of a packet (package utp, packet file)       *)
(* ===================================================================== *)

Module utp.
Import Bytes.

(** [encodeLength]: the loop, with the slice built so far. Each round
    divides [length] by 128, and Go's [int] has 64 bits, so the loop ends
    within ten rounds; [fuel] counts the rounds left and [None] means
    they ran out. [%] and [/] truncate towards zero. *)
Fixpoint encodeLoop (fuel : nat) (length : Z) (encLength : list byte)
    : option (list byte) :=
  match fuel with
  | O => None
  | S fuel' =>
      let digit := Z.rem length 128 in
      let length := Z.quot length 128 in
      let digit := if 0 <? length then Z.lor digit 128 else digit in
      let encLength := encLength ++ [byte.of_Z digit] in
      if length =? 0 then Some encLength else encodeLoop fuel' length encLength
  end.

Definition encodeLength (length : Z) : option (list byte) := encodeLoop 10 length [].

(** [decodeLength] on a reader that holds the bytes [r]: the length and
    the reader after the call, or the error of [io.ReadFull], which is
    [io.EOF] on a reader at its end. [multiplier] takes the values 0, 7,
    14 and 21, so the loop of the source runs at most four times; the
    fifth round of the model finds [multiplier] at 28 and returns. *)
Fixpoint decodeLoop (fuel : nat) (multiplier rLength : Z) (r : list byte)
    : res (Z * list byte) :=
  match fuel with
  | O => Ok (rLength, r)
  | S fuel' =>
      if multiplier <? 27 then
        match r with
        | [] => Err io_EOF
        | b :: r' =>
            let digit := byte.unsigned b in
            let rLength :=
              Z.lor rLength (toUint32 (Z.shiftl (Z.land digit 127) multiplier)) in
            if Z.land digit 128 =? 0 then Ok (rLength, r')
            else decodeLoop fuel' (toUint32 (multiplier + 7)) rLength r'
        end
      else Ok (rLength, r)
  end.

Definition decodeLength (r : list byte) : res (Z * list byte) := decodeLoop 5 0 0 r.

(** ** Facts about seven-bit digits *)

Lemma digit_cases (P : Z -> bool) :
  forallb P (map Z.of_nat (seq 0 256)) = true ->
  forall d, 0 <= d < 256 -> P d = true.
Proof.
  intros Hall d Hd. rewrite forallb_forall in Hall. apply Hall.
  apply in_map_iff. exists (Z.to_nat d). split; [lia|]. apply in_seq. lia.
Qed.

Lemma digit_bits d :
  0 <= d < 128 ->
  Z.lor d 128 = d + 128 /\ Z.land d 127 = d /\ Z.land (d + 128) 127 = d /\
  Z.land d 128 = 0 /\ Z.land (d + 128) 128 = 128.
Proof.
  intros Hd.
  pose proof (digit_cases
    (fun d => (128 <=? d)
              || ((Z.lor d 128 =? d + 128) && (Z.land d 127 =? d)
                  && (Z.land (d + 128) 127 =? d) && (Z.land d 128 =? 0)
                  && (Z.land (d + 128) 128 =? 128))) eq_refl d) as H.
  cbv beta in H. specialize (H ltac:(lia)).
  destruct (Z.leb_spec 128 d); [lia|]. cbn [orb] in H.
  repeat (apply andb_prop in H as [H ?]).
  repeat split; by apply Z.eqb_eq.
Qed.

(** Bits above what is set can be added instead of or-ed. *)
Lemma lor_shifted rl d m :
  0 <= m -> 0 <= rl < 2 ^ m -> Z.lor rl (d * 2 ^ m) = rl + d * 2 ^ m.
Proof.
  intros Hm Hrl.
  assert (Hland : Z.land rl (d * 2 ^ m) = 0).
  { rewrite <- (Z.mod_small rl (2 ^ m)) by lia.
    rewrite <- Z.land_ones by lia.
    rewrite <- Z.land_assoc, (Z.land_comm (Z.ones m)), Z.land_ones by lia.
    rewrite Z.mod_mul by lia. apply Z.land_0_r. }
  pose proof (Z.add_lor_land rl (d * 2 ^ m)) as H. rewrite Hland in H. lia.
Qed.

(** ** The loops *)

(** The loop of [encodeLength] ends within the rounds that the size of
    [length] asks for. *)
Lemma encodeLoop_total fuel : forall length acc,
  (1 <= fuel)%nat -> Z.abs length < 128 ^ Z.of_nat fuel ->
  exists ds, encodeLoop fuel length acc = Some (acc ++ ds) /\
             (1 <= List.length ds <= fuel)%nat.
Proof.
  induction fuel as [|fuel IH]; intros len acc Hf Hlen; [lia|].
  cbn [encodeLoop].
  destruct (Z.eqb_spec (Z.quot len 128) 0) as [Hq|Hq].
  - eexists. split; [done|]. cbn. lia.
  - assert (Hbig : 128 <= Z.abs len).
    { destruct (Z_lt_le_dec (Z.abs len) 128) as [Hlt|]; [|done].
      exfalso. apply Hq. apply Z.quot_small_iff; lia. }
    assert (Hf' : (1 <= fuel)%nat).
    { destruct fuel; [|lia]. cbn in Hlen. lia. }
    destruct (IH (Z.quot len 128)
                (acc ++ [byte.of_Z (if 0 <? Z.quot len 128
                                    then Z.lor (Z.rem len 128) 128
                                    else Z.rem len 128)]) Hf') as (ds & -> & Hds).
    + rewrite Nat2Z.inj_succ, Z.pow_succ_r in Hlen by lia.
      rewrite <- Z.quot_abs by lia.
      apply Z.quot_lt_upper_bound; lia.
    + eexists. rewrite <- app_assoc. split; [done|]. cbn [List.length app]. lia.
Qed.

(** Encoding [n] and decoding what was encoded, from digit [i] on. *)
Lemma encode_decode k : forall n i acc rl rest fuelE fuelD,
  (1 <= k)%nat -> 0 <= n < 128 ^ Z.of_nat k -> (i + k <= 4)%nat ->
  0 <= rl < 2 ^ (7 * Z.of_nat i) ->
  (k <= fuelE)%nat -> (k < fuelD)%nat ->
  exists ds,
    encodeLoop fuelE n acc = Some (acc ++ ds) /\
    (1 <= List.length ds <= k)%nat /\
    decodeLoop fuelD (7 * Z.of_nat i) rl (ds ++ rest)
    = Ok (rl + n * 2 ^ (7 * Z.of_nat i), rest).
Proof.
  induction k as [|k IH]; intros n i acc rl rest fuelE fuelD Hk Hn Hi Hrl HfE HfD; [lia|].
  destruct fuelE as [|fuelE]; [lia|]. destruct fuelD as [|fuelD]; [lia|].
  cbn [encodeLoop].
  assert (Hrem : Z.rem n 128 = n mod 128) by (apply Z.rem_mod_nonneg; lia).
  assert (Hquot : Z.quot n 128 = n / 128) by (apply Z.quot_div_nonneg; lia).
  rewrite Hrem, Hquot.
  assert (Hd : 0 <= n mod 128 < 128) by (apply Z.mod_pos_bound; lia).
  destruct (digit_bits (n mod 128) Hd) as (B1 & B2 & B3 & B4 & B5).
  assert (Hm : (7 * Z.of_nat i <? 27) = true) by (apply Z.ltb_lt; lia).
  assert (Hsh : forall d, 0 <= d < 128 ->
            toUint32 (Z.shiftl d (7 * Z.of_nat i)) = d * 2 ^ (7 * Z.of_nat i)).
  { intros d Hd'. rewrite Z.shiftl_mul_pow2 by lia. unfold toUint32.
    apply Z.mod_small. split; [apply Z.mul_nonneg_nonneg; lia|].
    assert (2 ^ (7 * Z.of_nat i) <= 2 ^ 21) by (apply Z.pow_le_mono_r; lia).
    nia. }
  destruct (Z.eqb_spec (n / 128) 0) as [Hq|Hq].
  - (* the last digit *)
    assert (Hsmall : n mod 128 = n).
    { apply Z.mod_small. apply Z.div_small_iff in Hq; lia. }
    rewrite Hq. cbn [Z.ltb Z.compare]. rewrite Hsmall in *.
    exists [byte.of_Z n]. split; [done|]. split; [cbn; lia|].
    cbn [app decodeLoop]. rewrite Hm, byte.unsigned_of_Z.
    unfold byte.wrap. rewrite (Z.mod_small n) by lia.
    rewrite B2, B4, Hsh by lia. cbn [Z.eqb].
    by rewrite lor_shifted by lia.
  - (* a digit with more to come *)
    assert (Hqpos : 0 < n / 128).
    { pose proof (Z.div_pos n 128). lia. }
    rewrite (proj2 (Z.ltb_lt _ _) Hqpos), B1.
    assert (Hk2 : (1 <= k)%nat).
    { destruct k; [|lia]. cbn in Hn. assert (n / 128 = 0) by (apply Z.div_small; lia). lia. }
    set (rl' := rl + n mod 128 * 2 ^ (7 * Z.of_nat i)).
    destruct (IH (n / 128) (S i) (acc ++ [byte.of_Z (n mod 128 + 128)]) rl' rest
                fuelE fuelD) as (ds & -> & Hds & Hdec); try lia.
    + split; [lia|]. apply Z.div_lt_upper_bound; [lia|].
      rewrite Nat2Z.inj_succ, Z.pow_succ_r in Hn by lia. lia.
    + subst rl'. split; [nia|].
      replace (7 * Z.of_nat (S i)) with (7 * Z.of_nat i + 7) by lia.
      rewrite Z.pow_add_r by lia. nia.
    + exists (byte.of_Z (n mod 128 + 128) :: ds). rewrite <- app_assoc.
      split; [done|]. split; [cbn [List.length]; lia|].
      cbn [app decodeLoop]. rewrite Hm, byte.unsigned_of_Z.
      unfold byte.wrap. rewrite (Z.mod_small (n mod 128 + 128)) by lia.
      rewrite B3, B5, Hsh by lia. cbn [Z.eqb].
      rewrite lor_shifted by lia. fold rl'.
      assert (Hmul : toUint32 (7 * Z.of_nat i + 7) = 7 * Z.of_nat (S i)).
      { unfold toUint32. rewrite Z.mod_small; lia. }
      rewrite Hmul, Hdec. f_equal. f_equal. subst rl'.
      replace (7 * Z.of_nat (S i)) with (7 * Z.of_nat i + 7) by lia.
      rewrite Z.pow_add_r by lia.
      rewrite (Z.div_mod n 128) at 3 by lia. lia.
Qed.

(** [decodeLength] reads between one and four bytes and returns less than
    [2^28]; its only error is the end of the reader, within four bytes
    that all ask for more. *)
Lemma decodeLoop_reads fuel : forall i rl r,
  (i + fuel = 5)%nat -> (1 <= fuel)%nat -> 0 <= rl < 2 ^ (7 * Z.of_nat i) ->
  match decodeLoop fuel (7 * Z.of_nat i) rl r with
  | Ok (v, rest) =>
      0 <= v < 2 ^ 28 /\
      exists k, (k <= 4 - i)%nat /\ (i = 4%nat \/ 1 <= k)%nat /\ rest = drop k r
  | Err e => e = io_EOF /\ (List.length r < 4 - i)%nat
  | Panic => False
  end.
Proof.
  induction fuel as [|fuel IH]; intros i rl r Hi Hf Hrl; [lia|].
  cbn [decodeLoop].
  destruct (Z.ltb_spec (7 * Z.of_nat i) 27) as [Hlt|Hge].
  - assert (Hi3 : (i <= 3)%nat) by lia.
    destruct r as [|b r]; [split; [done|cbn; lia]|].
    pose proof (byte.unsigned_range b) as Hb.
    set (d := Z.land (byte.unsigned b) 127).
    assert (Hd : 0 <= d < 128).
    { subst d. change 127 with (Z.ones 7). rewrite Z.land_ones by lia.
      apply Z.mod_pos_bound. lia. }
    assert (Hsh : toUint32 (Z.shiftl d (7 * Z.of_nat i)) = d * 2 ^ (7 * Z.of_nat i)).
    { rewrite Z.shiftl_mul_pow2 by lia. unfold toUint32.
      apply Z.mod_small. split; [apply Z.mul_nonneg_nonneg; lia|].
      assert (2 ^ (7 * Z.of_nat i) <= 2 ^ 21) by (apply Z.pow_le_mono_r; lia).
      nia. }
    rewrite Hsh, lor_shifted by lia.
    assert (Hrl' : 0 <= rl + d * 2 ^ (7 * Z.of_nat i) < 2 ^ (7 * Z.of_nat (S i))).
    { split; [nia|].
      replace (7 * Z.of_nat (S i)) with (7 * Z.of_nat i + 7) by lia.
      rewrite Z.pow_add_r by lia. nia. }
    assert (Hle28 : 2 ^ (7 * Z.of_nat (S i)) <= 2 ^ 28)
      by (apply Z.pow_le_mono_r; lia).
    destruct (Z.land (byte.unsigned b) 128 =? 0).
    + split; [lia|]. exists 1%nat. split; [lia|]. split; [lia|]. done.
    + assert (Hmul : toUint32 (7 * Z.of_nat i + 7) = 7 * Z.of_nat (S i)).
      { unfold toUint32. rewrite Z.mod_small; lia. }
      rewrite Hmul.
      specialize (IH (S i) (rl + d * 2 ^ (7 * Z.of_nat i)) r ltac:(lia)).
      destruct fuel as [|fuel']; [lia|]. specialize (IH ltac:(lia) Hrl').
      destruct (decodeLoop (S fuel') _ _ r) as [[v rest]|e|]; [| |done].
      * destruct IH as (Hv & k & Hk & Hk1 & ->). split; [done|].
        exists (S k). split; [lia|]. split; [lia|]. done.
      * destruct IH as [-> Hlen]. split; [done|]. cbn [List.length]. lia.
  - assert (i = 4%nat) by lia. subst i.
    split; [change (7 * Z.of_nat 4) with 28 in Hrl; lia|].
    exists 0%nat. split; [lia|]. split; [by left|]. done.
Qed.

End utp.

(* ===================================================================== *)
(** * Concrete databases, files and tries                                 *)
(* ===================================================================== *)

Module Examples.
Import Bytes.

(** A ring that spreads keys over 32 shards. *)
Definition ring (key : Z) : nat := Z.to_nat (key mod 32).

(** *** memdb *)

Definition emptyCache : memdb.memCache :=
  {| memdb.data := {| memdb.buf := [] |}; memdb.freeOffset := 0; memdb.m := ∅ |}.

Definition db0 : memdb.DB :=
  {| memdb.targetSize := 65536; memdb.FindBlock := ring;
     memdb.blockCache := repeat emptyCache memdb.nShards |}.

Definition payload : list byte := [Byte.x6d; Byte.x73; Byte.x67].   (* "msg" *)

Definition after {A B} (r : res (A * B)) (d : A) : A :=
  match r with Ok (a, _) => a | _ => d end.

Definition value {A} (r : res A) (d : A) : A :=
  match r with Ok a => a | _ => d end.

(** [Set(5, 7, "msg")], then calls on other keys and other shards. *)
Definition db1 : memdb.DB := after (memdb.Set_ db0 5 7 payload) db0.

Definition others : list memdb.call :=
  [memdb.CallSet 5 8 [Byte.x61]; memdb.CallRemove 37 8; memdb.CallSet 6 7 [Byte.x62];
   memdb.CallGet 5 7].

Definition db2 : memdb.DB := value (memdb.run db1 others) db1.

(** The shard of block 5 after a [Set] and a [Remove] of key 7. *)
Definition db3 : memdb.DB := value (memdb.Remove db1 5 7) db1.
Definition cache3 : memdb.memCache := value (memdb.getCache db3 5) emptyCache.

(** *** wal *)

Definition info : wal.logInfo :=
  {| wal.li_version := 1; wal.li_status := 2; wal.li_entryCount := 100;
     wal.li_seq := 4711; wal.li_size := 8192; wal.li_offset := -1 |}.

Definition hdr : wal.header :=
  {| wal.h_signature := wal.signature; wal.h_version := 1; wal.h_seq := 4711;
     wal.h_fb0 := {| wal.fb_size := 64; wal.fb_offset := 4096 |};
     wal.h_fb1 := {| wal.fb_size := 0; wal.fb_offset := 0 |};
     wal.h_fb2 := {| wal.fb_size := -1; wal.fb_offset := 2 ^ 62 |} |}.

(** *** window *)

(** The layout used in the examples: 4 KiB blocks of 335 entries
    (335 * 12 + 26 = 4046 bytes in use). *)
Definition blockSize : nat := 4096.
Definition seqsPerWindowBlock : nat := 335.

(** A block holding [es], zero-padded. *)
Definition mkBlock (h : Z) (es : list window.winEntry) (nxt cut : Z) : window.winBlock :=
  {| window.topicHash := h;
     window.entries := es ++ repeat window.zeroEntry (seqsPerWindowBlock - length es);
     window.next := nxt; window.cutoff := cut;
     window.entryIdx := Z.of_nat (length es);
     window.dirty := false; window.leased := false |}.

(** A file held in memory; reading past its end is [io.EOF]. *)
Definition memFile (content : list byte) : window.file :=
  fun start end_ =>
    if (0 <=? start) && (start <=? end_) && (end_ <=? Z.of_nat (length content))
    then Ok (take (Z.to_nat (end_ - start)) (drop (Z.to_nat start) content))
    else Err io_EOF.

Definition e1000 : window.winEntry := {| window.Seq := 1000; window.ExpiresAt := 0 |}.
Definition e1 : window.winEntry := {| window.Seq := 1; window.ExpiresAt := 0 |}.
Definition e2 : window.winEntry := {| window.Seq := 2; window.ExpiresAt := 500 |}.
Definition e3 : window.winEntry := {| window.Seq := 3; window.ExpiresAt := 0 |}.

(** Block 0 is unused; block 1, at offset 4096, holds three entries of
    topic 7, the second of which expired at time 500. *)
Definition block1 : window.winBlock := mkBlock 7 [e1; e2; e3] 0 0.

Definition disk : list byte :=
  make blockSize ++ value (window.MarshalBinary blockSize seqsPerWindowBlock block1) [].

(** A second file: block 1, at offset 4096, holds two live entries of
    topic 7; block 2, at offset 8192, is newer, holds one, and links to
    block 1. *)
Definition older : window.winBlock := mkBlock 7 [e1; e3] 0 0.
Definition newer : window.winBlock := mkBlock 7 [e1000] 4096 0.

Definition disk2 : list byte :=
  make blockSize
  ++ value (window.MarshalBinary blockSize seqsPerWindowBlock older) []
  ++ value (window.MarshalBinary blockSize seqsPerWindowBlock newer) [].

Definition emptyShard : window.timeWindow :=
  {| window.freezed := false; window.tw_entries := ∅; window.friezedEntries := ∅ |}.

Definition shards : list window.timeWindow := repeat emptyShard 32.

(** An expiry bucket that records what it is handed and never fails. *)
Definition addExpiry (eb : list window.winEntry) (e : window.winEntry)
  : list window.winEntry * option error := (eb ++ [e], None).

(** A shard with entries of topics 7 and 8 (both in shard 7 and 8 of the
    ring), and arrivals for both while shard 7 is frozen. *)
Definition shards1 : list window.timeWindow :=
  <[7%nat := {| window.freezed := false;
                window.tw_entries := {[ 7 := [e1; e3] ]};
                window.friezedEntries := ∅ |}]> shards.

(** Shard 7 with frozen and live entries of topic 7, one of them
    expired at time 1000. *)
Definition shards2 : list window.timeWindow :=
  <[7%nat := {| window.freezed := true;
                window.tw_entries := {[ 7 := [e1; e2; e3] ]};
                window.friezedEntries := {[ 7 := [e2; e1000] ]} |}]> shards.

(** The first two blocks of the second file. *)
Definition disk2Short : list byte := take (blockSize + blockSize) disk2.

(** A callback that notes the topic hash of each block it is given. *)
Definition hashes (off : Z) (b : window.winBlock) (s : list Z)
  : list Z * bool * option error := (s ++ [window.topicHash b], false, None).

Definition frozenShard : window.timeWindow :=
  value (window.getWindowBlock ring shards2 7) emptyShard.

Definition arrivals (i : nat) : list (Z * window.winEntry) :=
  if (i =? 7)%nat then [(7, e2); (8, e1); (39, e3)] else [].

(** A writer whose cache holds block 1 of topic 7, full in one example
    and with room in the other. *)
Definition fullBlock : window.winBlock :=
  mkBlock 7 (map (fun i => {| window.Seq := Z.of_nat i; window.ExpiresAt := 0 |})
                 (seq 1 seqsPerWindowBlock)) 0 0.

Definition writer (w : window.winBlock) : window.windowWriter :=
  {| window.ww_file := memFile disk; window.windowIdx := 1;
     window.winBlocks := {[ 1 := w ]}; window.leasing := ∅ |}.

(** The locals of [append] when the loop meets [e1000] with the full
    block of index 1 as working block. *)
Definition fullSt : window.appendSt :=
  {| window.a_ww := writer fullBlock; window.a_winIdx := 1; window.a_w := fullBlock |}.

(** *** trie *)

Definition parts : list trie.Part :=
  [{| trie.Query := 11; trie.Wildchars := 0 |}; {| trie.Query := 12; trie.Wildchars := 0 |}].

Definition trie1 : trie.partTrie :=
  after (trie.add trie.newPartTrie {| trie.hash := 7; trie.offset := 0 |} parts 2)
        trie.newPartTrie.

(** The offset of hash 7 moved to 8192; and hash 9 added under another
    path. *)
Definition trie2 : trie.partTrie :=
  after (trie.setOffset trie1 {| trie.hash := 7; trie.offset := 8192 |}) trie1.

Definition parts3 : list trie.Part :=
  [{| trie.Query := 11; trie.Wildchars := 0 |}; {| trie.Query := 13; trie.Wildchars := 1 |};
   {| trie.Query := 14; trie.Wildchars := 0 |}].

Definition trie3 : trie.partTrie :=
  after (trie.add trie1 {| trie.hash := 9; trie.offset := 12288 |} parts3 3) trie1.

(** Values for the two constants of package message, and the order of
    [map_to_list] as the order of a [range]. *)
Definition wildcard : Z := 857445537.
Definition topicStatic : Z := 1.
Definition rangeOf (m : gmap trie.key nat) : list (trie.key * nat) := map_to_list m.

(** *** syncer *)

(** A handle that last synced at sequence 40 on a database at sequence
    42; the store is a counter of the operations done on it, and the
    pipeline raises [upperSeq] to the sequence and touches the store. *)
Definition handle : syncer.syncHandle nat nat :=
  {| syncer.upperSeq := 40; syncer.lastSyncSeq := 40; syncer.syncStatusOk := false;
     syncer.writers := 0%nat;
     syncer.db := {| syncer.seq := 42; syncer.syncLockC := false; syncer.closeW := 0;
                     syncer.store := 0%nat |} |}.

Definition pipeline (h : syncer.syncHandle nat nat) : res (syncer.syncHandle nat nat) :=
  Ok {| syncer.upperSeq := syncer.seq _ (syncer.db _ _ h);
        syncer.lastSyncSeq := syncer.lastSyncSeq _ _ h;
        syncer.syncStatusOk := syncer.syncStatusOk _ _ h;
        syncer.writers := syncer.writers _ _ h;
        syncer.db := syncer.setStore _ (syncer.db _ _ h)
                       (S (syncer.store _ (syncer.db _ _ h))) |}.

(** The handle after the first [Sync]. *)
Definition synced : syncer.syncHandle nat nat :=
  {| syncer.upperSeq := 42; syncer.lastSyncSeq := 42; syncer.syncStatusOk := true;
     syncer.writers := 0%nat;
     syncer.db := {| syncer.seq := 42; syncer.syncLockC := false; syncer.closeW := 0;
                     syncer.store := 3%nat |} |}.

(** *** wal: raw bytes, a buffer that takes every write, and a writer *)

(** [n] bytes that follow no layout: 1, 4, 7, ... *)
Definition raw (n : nat) : list byte :=
  map (fun i => byte.of_Z (Z.of_nat (3 * i + 1))) (seq 0 n).

Definition bufWrite (b p : list byte) : list byte * option error := (b ++ p, None).

Definition newWriter : wal.Writer :=
  {| wal.writeComplete := false; wal.releaseComplete := false; wal.count := 0;
     wal.buffer := []; wal.logSize := 0 |}.


Definition records : list (list byte) := [payload; []; [Byte.x61; Byte.x62]].
Definition written : wal.Writer := fst (wal.appendAll bufWrite newWriter records).

(** *** memdb: a shard with a cutoff *)

(** Key 8 is set after key 7 in the shard of block 5, at offset 7; then
    the cutoff of the shard is put at that offset. *)
Definition cache1 : memdb.memCache := value (memdb.getCache db1 5) emptyCache.
Definition db4 : memdb.DB := after (memdb.Set_ db1 5 8 [Byte.x61]) db1.
Definition cache4 : memdb.memCache := value (memdb.getCache db4 5) emptyCache.
Definition cache5 : memdb.memCache :=
  {| memdb.data := memdb.data cache4; memdb.freeOffset := 7; memdb.m := memdb.m cache4 |}.
Definition db5 : memdb.DB := memdb.setCache db4 5 cache5.
Definition db6 : memdb.DB := after (memdb.shrinkDataTable db5) db5.

(** Key 7 removed, and no cutoff. *)
Definition db7 : memdb.DB := after (memdb.shrinkDataTable db3) db3.

(** *** The model at work *)

(** A block survives the trip through its 4096 bytes. *)
Example block1_roundtrip :
  bind (window.MarshalBinary blockSize seqsPerWindowBlock block1)
       (window.UnmarshalBinary seqsPerWindowBlock (window.zeroBlock seqsPerWindowBlock))
  = Ok block1.
Proof. vm_compute. reflexivity. Qed.

(** [ilookup] with [limit = 2] at time 1000: of the frozen suffix
    [e2; e1000] the first is expired, so one more entry is taken from the
    live ones. *)
Example ilookup_shards2 :
  window.ilookup ring addExpiry shards2 [] 1000 7 2 = Ok ([e1000; e3], [e2]).
Proof. vm_compute. reflexivity. Qed.

(** [lookup] over the chain of two blocks, newest first. *)
Example lookup_disk2 :
  window.lookup blockSize seqsPerWindowBlock ring addExpiry 3 (memFile disk2) shards []
    1000 7 8192 0 2
  = Some (Ok ([e1000; e3], [])).
Proof. vm_compute. reflexivity. Qed.

(** Appending to a block with room returns its own offset; appending to a
    full block returns the offset of the block opened after it. *)
Example append_room :
  window.append blockSize seqsPerWindowBlock (writer block1) 1600000000 7 4096 [e1000]
  = Ok ({| window.ww_file := memFile disk; window.windowIdx := 1;
           window.winBlocks :=
             {[ 1 := window.pushEntry block1 e1000 ]};
           window.leasing := ∅ |}, 4096).
Proof. vm_compute. reflexivity. Qed.

Example append_full :
  snd <$> (match window.append blockSize seqsPerWindowBlock (writer fullBlock)
                   1600000000 7 4096 [e1000] with
           | Ok r => Some r | _ => None end)
  = Some 8192.
Proof. vm_compute. reflexivity. Qed.

(** [Get] after [Set], after [Remove], and of a key never set. *)
Example get_after_set : memdb.Get db1 5 7 = Ok (Some payload).
Proof. vm_compute. reflexivity. Qed.

Example get_after_remove : memdb.Get db3 5 7 = Err ErrEntryDeleted.
Proof. vm_compute. reflexivity. Qed.

Example get_never_set : memdb.Get db1 5 9 = Ok None.
Proof. vm_compute. reflexivity. Qed.

(** A lookup with the parts of hash 9 finds it, with its offset. *)
Example lookup_trie3 :
  trie.lookup wildcard topicStatic rangeOf 4 trie3 parts3 3 0
  = Some (Ok [{| trie.hash := 9; trie.offset := 12288 |}]).
Proof. vm_compute. reflexivity. Qed.

(** The length 321 is the two bytes [0xc1 0x02], and back. *)
Example encode_321 : utp.encodeLength 321 = Some [Byte.xc1; Byte.x02].
Proof. vm_compute. reflexivity. Qed.

Example decode_321 :
  utp.decodeLength [Byte.xc1; Byte.x02; Byte.x6d] = Ok (321, [Byte.x6d]).
Proof. vm_compute. reflexivity. Qed.

(** Two records appended to a new writer are two frames in its buffer. *)
Example written_buffer :
  wal.buffer written
  = [Byte.x07; Byte.x00; Byte.x00; Byte.x00; Byte.x6d; Byte.x73; Byte.x67;
     Byte.x06; Byte.x00; Byte.x00; Byte.x00; Byte.x61; Byte.x62].
Proof. vm_compute. reflexivity. Qed.

(** A second [add] of hash 7 reports success and changes nothing. *)
Example add_twice :
  trie.add trie1 {| trie.hash := 7; trie.offset := 4096 |} parts 2 = Ok (trie1, true).
Proof. vm_compute. reflexivity. Qed.

End Examples.

(* ===================================================================== *)
(** * The properties                                                      *)
(* ===================================================================== *)

(** C1. If memdb [Set(blockID, key, data)] succeeds, the shard holds at the
    offset recorded for [key] the 4-byte little-endian value [len(data)+4]
    followed by [data], and a later [Get(blockID, key)] returns exactly
    [data], whatever calls were made in between that are neither a
    [Remove] nor a [Set] of that key in that shard. *)
Theorem memdb_set_then_get (db : memdb.DB) (blockID key : Z) (d : list byte)
    (db1 : memdb.DB) (cs : list memdb.call) (db2 : memdb.DB) :
  memdb.Set_ db blockID key d = Ok (db1, None) ->
  Forall (fun c => ~ memdb.interferes db blockID key c) cs ->
  memdb.run db1 cs = Ok db2 ->
  memdb.storedDB db1 blockID key d /\
  memdb.Get db1 blockID key = Ok (Some d) /\
  memdb.Get db2 blockID key = Ok (Some d).
Proof.
  intros Hset Hcs Hrun.
  destruct (memdb.Set_storedDB _ _ _ _ _ Hset) as [Hst HF].
  split; [exact Hst|]. split; [by apply memdb.storedDB_Get|].
  apply memdb.storedDB_Get.
  apply (memdb.run_storedDB cs db1 blockID key d db2 Hst); [|exact Hrun].
  eapply Forall_impl; [exact Hcs|]. intros c Hc.
  by destruct c; cbn [memdb.interferes] in *; rewrite ?HF.
Qed.

Lemma memdb_set_then_get_witness :
  memdb.storedDB Examples.db1 5 7 Examples.payload /\
  memdb.Get Examples.db1 5 7 = Ok (Some Examples.payload) /\
  memdb.Get Examples.db2 5 7 = Ok (Some Examples.payload).
Proof.
  apply (memdb_set_then_get Examples.db0 5 7 Examples.payload Examples.db1
           Examples.others Examples.db2).
  - vm_compute. reflexivity.
  - unfold Examples.others.
    repeat (apply Forall_cons_2;
            [cbn [memdb.interferes];
             first [ intros [H1 H2];
                     first [discriminate H2 | vm_compute in H1; discriminate H1]
                   | intros [] ] |]).
    apply Forall_nil_2.
  - vm_compute. reflexivity.
Defined.

(** C4. memdb [Get(blockID, key)] returns the entry-deleted error exactly
    when the offset stored for [key] is the tombstone -1; [Remove] of a key
    that is present installs the tombstone; for a key that is not in the
    map [Get] returns nil data and a nil error, and [Remove] returns nil and
    leaves the database as it was. *)
Theorem memdb_get_deleted_iff_tombstone (db : memdb.DB) (blockID key : Z)
    (c : memdb.memCache) :
  memdb.getCache db blockID = Ok c ->
  (memdb.Get db blockID key = Err ErrEntryDeleted <-> memdb.m c !! key = Some (-1)) /\
  (is_Some (memdb.m c !! key) ->
   exists db' c',
     memdb.Remove db blockID key = Ok db' /\
     memdb.getCache db' blockID = Ok c' /\
     memdb.m c' !! key = Some (-1) /\
     (forall k, k <> key -> memdb.m c' !! k = memdb.m c !! k) /\
     memdb.Get db' blockID key = Err ErrEntryDeleted) /\
  (memdb.m c !! key = None ->
   memdb.Get db blockID key = Ok None /\ memdb.Remove db blockID key = Ok db).
Proof.
  intros Hc. unfold memdb.Get, memdb.Remove. rewrite Hc. cbn [bind].
  split; [apply memdb.getShard_deleted|]. split.
  - intros Hk. eexists _, _. split; [done|].
    split; [by eapply memdb.getCache_setCache|].
    split; [by apply memdb.removeShard_present|].
    split.
    + intros k Hne. unfold memdb.removeShard.
      rewrite bool_decide_eq_true_2 by done. cbn. by rewrite lookup_insert_ne.
    + erewrite memdb.getCache_setCache by done. cbn [bind].
      apply memdb.getShard_deleted. by apply memdb.removeShard_present.
  - intros Hk. split; [by apply memdb.getShard_absent|].
    rewrite memdb.removeShard_absent by done. f_equal. by apply memdb.setCache_same.
Qed.

Lemma memdb_get_deleted_iff_tombstone_witness :
  memdb.Get Examples.db3 5 7 = Err ErrEntryDeleted /\
  memdb.Get Examples.db3 5 8 = Ok None /\
  memdb.Remove Examples.db3 5 8 = Ok Examples.db3.
Proof.
  assert (Hc : memdb.getCache Examples.db3 5 = Ok Examples.cache3)
    by (vm_compute; reflexivity).
  split.
  - apply (memdb_get_deleted_iff_tombstone Examples.db3 5 7 Examples.cache3 Hc).
    vm_compute. reflexivity.
  - apply (memdb_get_deleted_iff_tombstone Examples.db3 5 8 Examples.cache3 Hc).
    vm_compute. reflexivity.
Defined.

(** C2. [UnmarshalBinary] after [MarshalBinary] is the identity on every
    persisted field: for a window block (entries, cutoff, topicHash, next,
    entryIdx; the flags [dirty] and [leased] of the receiver are not
    touched), for a WAL log-info record (version, status, entryCount, seq,
    size, offset) and for a WAL header (signature, version, seq and the
    three free-block ranges). The values are those of the Go types: every
    field within the range of its integer type, the entry array of length
    [seqsPerWindowBlock], the signature of length 8; and a block of
    [blockSize] bytes has room for the entry array and the trailer. *)
Theorem marshal_unmarshal_identity (blockSize seqsPerWindowBlock : nat)
    (w w0 : window.winBlock) (l : wal.logInfo) (h : wal.header) :
  window.layout_ok blockSize seqsPerWindowBlock ->
  window.winBlock_wf seqsPerWindowBlock w ->
  wal.logInfo_wf l ->
  wal.header_wf h ->
  (exists data,
     window.MarshalBinary blockSize seqsPerWindowBlock w = Ok data /\
     length data = blockSize /\
     window.UnmarshalBinary seqsPerWindowBlock w0 data
     = Ok {| window.topicHash := window.topicHash w;
             window.entries := window.entries w;
             window.next := window.next w;
             window.cutoff := window.cutoff w;
             window.entryIdx := window.entryIdx w;
             window.dirty := window.dirty w0;
             window.leased := window.leased w0 |}) /\
  wal.logInfo_UnmarshalBinary (wal.logInfo_MarshalBinary l) = Ok l /\
  wal.header_UnmarshalBinary (wal.header_MarshalBinary h) = Ok h.
Proof.
  intros Hlay Hw Hl Hh. split; [|split].
  - by apply window.winBlock_roundtrip.
  - by apply wal.logInfo_roundtrip.
  - by apply wal.header_roundtrip.
Qed.

Lemma marshal_unmarshal_identity_witness :
  (exists data,
     window.MarshalBinary Examples.blockSize Examples.seqsPerWindowBlock Examples.block1
     = Ok data /\
     length data = Examples.blockSize /\
     window.UnmarshalBinary Examples.seqsPerWindowBlock
       (window.setLeased (window.zeroBlock Examples.seqsPerWindowBlock)) data
     = Ok (window.setLeased Examples.block1)) /\
  wal.logInfo_UnmarshalBinary (wal.logInfo_MarshalBinary Examples.info) = Ok Examples.info /\
  wal.header_UnmarshalBinary (wal.header_MarshalBinary Examples.hdr) = Ok Examples.hdr.
Proof.
  apply (marshal_unmarshal_identity Examples.blockSize Examples.seqsPerWindowBlock
           Examples.block1 (window.setLeased (window.zeroBlock Examples.seqsPerWindowBlock))
           Examples.info Examples.hdr).
  - unfold window.layout_ok, window.trailerOff, Examples.blockSize,
      Examples.seqsPerWindowBlock. lia.
  - unfold window.winBlock_wf, Bytes.uint64, Bytes.int64, Bytes.uint16.
    cbn [Examples.block1 Examples.mkBlock window.topicHash window.entries window.next
         window.cutoff window.entryIdx].
    split; [lia|]. split; [vm_compute; reflexivity|].
    split; [|cbn; lia].
    apply Forall_app. split.
    + repeat apply Forall_cons_2; try apply Forall_nil_2;
        unfold window.winEntry_wf, Bytes.uint64, Bytes.uint32; cbn; lia.
    + apply Forall_forall. intros e He. apply list_elem_of_In, repeat_spec in He. subst e.
      unfold window.winEntry_wf, Bytes.uint64, Bytes.uint32. cbn. lia.
  - unfold wal.logInfo_wf, Bytes.uint16, Bytes.uint32, Bytes.uint64, Bytes.int64. cbn. lia.
  - unfold wal.header_wf, wal.freeBlock_wf, Bytes.uint32, Bytes.uint64, Bytes.int64.
    cbn. lia.
Defined.

(** C3. [Sync] called twice in succession: if the first call returns and
    its pipeline has put no entry (it leaves [db.Seq()] and [lastSyncSeq]
    as [startSync] set them, so that [lastSyncSeq] equals the current
    sequence), the second call returns nil without running the pipeline.
    The database (its store of window, index and data files included, the
    sync lock and the wait group) is afterwards what it was before the
    second call, and so are [lastSyncSeq], [upperSeq] and the writers of
    the handle. The handle's own [syncStatusOk] flag is cleared. *)
Theorem sync_again_is_noop (Store Writers : Type)
    (getWriters : Store -> Store * Writers) (putWriters : Store -> Writers -> Store)
    (pipeline : syncer.syncHandle Store Writers -> res (syncer.syncHandle Store Writers))
    (h0 h1 : syncer.syncHandle Store Writers) (e1 : option error) :
  syncer.quiet Store Writers pipeline ->
  syncer.Sync Store Writers getWriters putWriters pipeline h0 = Some (Ok (h1, e1)) ->
  e1 = None /\
  syncer.lastSyncSeq _ _ h1 = syncer.Seq _ (syncer.db _ _ h1) /\
  exists h2,
    syncer.Sync Store Writers getWriters putWriters pipeline h1 = Some (Ok (h2, None)) /\
    syncer.db _ _ h2 = syncer.db _ _ h1 /\
    syncer.lastSyncSeq _ _ h2 = syncer.lastSyncSeq _ _ h1 /\
    syncer.upperSeq _ _ h2 = syncer.upperSeq _ _ h1 /\
    syncer.writers _ _ h2 = syncer.writers _ _ h1 /\
    syncer.syncStatusOk _ _ h2 = false.
Proof.
  intros Hq H1.
  destruct (syncer.Sync_caught_up _ _ getWriters putWriters pipeline h0 h1 e1 Hq H1)
    as (He & Hlock & Hseq).
  split; [exact He|]. split; [exact Hseq|].
  eexists. split.
  - by apply syncer.Sync_nothing_to_do.
  - done.
Qed.

Lemma sync_again_is_noop_witness :
  syncer.lastSyncSeq _ _ Examples.synced = syncer.Seq _ (syncer.db _ _ Examples.synced) /\
  exists h2,
    syncer.Sync nat nat (fun s => (S s, s)) (fun s _ => S s) Examples.pipeline
      Examples.synced = Some (Ok (h2, None)) /\
    syncer.db _ _ h2 = syncer.db _ _ Examples.synced /\
    syncer.lastSyncSeq _ _ h2 = syncer.lastSyncSeq _ _ Examples.synced /\
    syncer.upperSeq _ _ h2 = syncer.upperSeq _ _ Examples.synced /\
    syncer.writers _ _ h2 = syncer.writers _ _ Examples.synced /\
    syncer.syncStatusOk _ _ h2 = false.
Proof.
  apply (sync_again_is_noop nat nat (fun s => (S s, s)) (fun s _ => S s)
           Examples.pipeline Examples.handle Examples.synced None).
  - intros h h' Heq. unfold Examples.pipeline in Heq. inversion Heq; subst. done.
  - reflexivity.
Defined.

(** C5. [windowWriter.append(topicHash, prevOffset, entries)]: offset zero
    stands for "no block yet" and makes the call take the next block index;
    for a non-zero [prevOffset], the block that it designates, cached or
    read from the file, is the working block; an entry that finds room in the working block is written into it
    at index [entryIdx], under the same block index; an entry that finds
    the working block holding [seqsPerWindowBlock] entries seals it, which
    stores it under its index with [cutoff = now], takes the next block
    index, and opens a block of the same topic hash whose [next] is the
    offset of the sealed block. The call stores the working block under its
    index and returns the offset of that index. *)
Theorem window_append_reuses_or_seals (blockSize n : nat) (now : Z) :
  (forall wb h,
     window.appendInit blockSize n wb h 0
     = Ok {| window.a_ww :=
               {| window.ww_file := window.ww_file wb;
                  window.windowIdx := Bytes.toInt32 (window.windowIdx wb + 1);
                  window.winBlocks := window.winBlocks wb;
                  window.leasing := window.leasing wb |};
             window.a_winIdx := Bytes.toInt32 (window.windowIdx wb + 1);
             window.a_w :=
               window.setTopicHash
                 (default (window.zeroBlock n)
                    (window.winBlocks wb !! Bytes.toInt32 (window.windowIdx wb + 1))) h |}) /\
  (forall wb h off w,
     off <> 0 ->
     window.winBlocks wb !! Bytes.toInt32 (Z.quot off (Z.of_nat blockSize)) = Some w ->
     window.appendInit blockSize n wb h off
     = Ok {| window.a_ww := wb;
             window.a_winIdx := Bytes.toInt32 (Z.quot off (Z.of_nat blockSize));
             window.a_w := window.setTopicHash w h |}) /\
  (forall wb h off w,
     0 < off ->
     window.winBlocks wb !! Bytes.toInt32 (Z.quot off (Z.of_nat blockSize)) = None ->
     Bytes.toInt32 (Z.quot off (Z.of_nat blockSize)) <= window.windowIdx wb ->
     window.read blockSize n (window.ww_file wb) off = Ok w ->
     window.appendInit blockSize n wb h off
     = Ok {| window.a_ww := wb;
             window.a_winIdx := Bytes.toInt32 (Z.quot off (Z.of_nat blockSize));
             window.a_w := window.setTopicHash (window.setLeased w) h |}) /\
  (forall st we,
     window.Seq we <> 0 -> window.hasSeq (window.a_w st) (window.Seq we) = false ->
     window.entryIdx (window.a_w st) <> Z.of_nat n ->
     (Z.to_nat (window.entryIdx (window.a_w st))
      < length (window.entries (window.a_w st)))%nat ->
     exists st',
       window.appendEntry blockSize n now st we = Ok st' /\
       window.a_winIdx st' = window.a_winIdx st /\
       window.windowIdx (window.a_ww st') = window.windowIdx (window.a_ww st) /\
       window.winBlocks (window.a_ww st') = window.winBlocks (window.a_ww st) /\
       window.a_w st' = window.pushEntry (window.a_w st) we) /\
  (forall st we,
     window.Seq we <> 0 -> window.hasSeq (window.a_w st) (window.Seq we) = false ->
     window.entryIdx (window.a_w st) = Z.of_nat n -> (0 < n)%nat ->
     exists st',
       window.appendEntry blockSize n now st we = Ok st' /\
       window.windowIdx (window.a_ww st')
       = Bytes.toInt32 (window.windowIdx (window.a_ww st) + 1) /\
       window.a_winIdx st' = window.windowIdx (window.a_ww st') /\
       window.winBlocks (window.a_ww st') !! window.a_winIdx st
       = Some (window.setCutoff (window.a_w st) now) /\
       window.next (window.a_w st') = window.blockOff blockSize (window.a_winIdx st) /\
       window.topicHash (window.a_w st') = window.topicHash (window.a_w st) /\
       window.cutoff (window.a_w st') = 0 /\
       window.entryIdx (window.a_w st') = 1 /\
       window.entries (window.a_w st') !! 0%nat = Some we) /\
  (forall wb h off wes st0 st1,
     window.appendInit blockSize n wb h off = Ok st0 ->
     window.appendLoop blockSize n now st0 wes = Ok st1 ->
     exists wb',
       window.append blockSize n wb now h off wes
       = Ok (wb', window.blockOff blockSize (window.a_winIdx st1)) /\
       window.winBlocks wb' !! window.a_winIdx st1 = Some (window.a_w st1) /\
       window.windowIdx wb' = window.windowIdx (window.a_ww st1)).
Proof.
  split; [|split; [|split; [|split; [|split]]]].
  - intros. apply window.appendInit_fresh.
  - intros. by apply window.appendInit_cached.
  - intros. by apply window.appendInit_read.
  - intros st we. apply window.appendEntry_room.
  - intros st we Hs Hd Hfull Hn.
    destruct (window.appendEntry_full blockSize n now st we Hs Hd Hfull Hn)
      as (st' & Ha & Hi & Hw & Hb & Hw').
    destruct (window.pushEntry_fresh n (window.topicHash (window.a_w st))
                (window.blockOff blockSize (window.a_winIdx st)) we Hn)
      as (P1 & P2 & P3 & P4 & P5 & _).
    exists st'. rewrite Hw', Hb, lookup_insert_eq. done.
  - intros wb h off wes st0 st1 Hi Hl. unfold window.append. rewrite Hi. cbn [bind].
    rewrite Hl. cbn [bind]. eexists. split; [done|]. cbn.
    by rewrite lookup_insert_eq.
Qed.

Lemma window_append_reuses_or_seals_witness :
  exists st',
    window.appendEntry Examples.blockSize Examples.seqsPerWindowBlock 1600000000
      Examples.fullSt Examples.e1000 = Ok st' /\
    window.windowIdx (window.a_ww st')
    = Bytes.toInt32 (window.windowIdx (window.a_ww Examples.fullSt) + 1) /\
    window.a_winIdx st' = window.windowIdx (window.a_ww st') /\
    window.winBlocks (window.a_ww st') !! window.a_winIdx Examples.fullSt
    = Some (window.setCutoff (window.a_w Examples.fullSt) 1600000000) /\
    window.next (window.a_w st')
    = window.blockOff Examples.blockSize (window.a_winIdx Examples.fullSt) /\
    window.topicHash (window.a_w st') = window.topicHash (window.a_w Examples.fullSt) /\
    window.cutoff (window.a_w st') = 0 /\
    window.entryIdx (window.a_w st') = 1 /\
    window.entries (window.a_w st') !! 0%nat = Some Examples.e1000.
Proof.
  apply (proj1 (proj2 (proj2 (proj2 (proj2
           (window_append_reuses_or_seals Examples.blockSize
              Examples.seqsPerWindowBlock 1600000000)))))).
  - cbn. lia.
  - vm_compute. reflexivity.
  - vm_compute. reflexivity.
  - unfold Examples.seqsPerWindowBlock. lia.
Defined.

(** C6. In [windowWriter.append], an entry whose [seq] is 0, or whose
    [seq] already occurs in the entry array of the working block, is
    skipped: the iteration changes nothing and returns no error. A call all
    of whose entries are such stores the target block with its entry array
    and [entryIdx] as they were, takes no block index, records no lease and
    returns a nil error. *)
Theorem window_append_skips_duplicates (blockSize n : nat) (now : Z) :
  (forall st we,
     window.Seq we = 0 \/ window.hasSeq (window.a_w st) (window.Seq we) = true ->
     window.appendEntry blockSize n now st we = Ok st) /\
  (forall wb h off w wes,
     off <> 0 ->
     window.winBlocks wb !! Bytes.toInt32 (Z.quot off (Z.of_nat blockSize)) = Some w ->
     Forall (fun we => window.Seq we = 0 \/ window.hasSeq w (window.Seq we) = true) wes ->
     exists wb' w',
       window.append blockSize n wb now h off wes
       = Ok (wb', window.blockOff blockSize
                    (Bytes.toInt32 (Z.quot off (Z.of_nat blockSize)))) /\
       window.windowIdx wb' = window.windowIdx wb /\
       window.leasing wb' = window.leasing wb /\
       window.winBlocks wb' !! Bytes.toInt32 (Z.quot off (Z.of_nat blockSize)) = Some w' /\
       (forall i, i <> Bytes.toInt32 (Z.quot off (Z.of_nat blockSize)) ->
                  window.winBlocks wb' !! i = window.winBlocks wb !! i) /\
       window.entries w' = window.entries w /\
       window.entryIdx w' = window.entryIdx w /\
       window.next w' = window.next w /\
       window.cutoff w' = window.cutoff w /\
       window.dirty w' = window.dirty w).
Proof.
  split.
  - intros st we. apply window.appendEntry_skip.
  - intros wb h off w wes Hoff Hc Hwes. unfold window.append.
    rewrite (window.appendInit_cached blockSize n wb h off w Hoff Hc). cbn [bind].
    rewrite window.appendLoop_skip by exact Hwes. cbn [bind].
    eexists _, _. split; [done|]. cbn.
    rewrite lookup_insert_eq. repeat split; try done.
    intros i Hi. by rewrite lookup_insert_ne.
Qed.

Lemma window_append_skips_duplicates_witness :
  exists wb' w',
    window.append Examples.blockSize Examples.seqsPerWindowBlock
      (Examples.writer Examples.block1) 1600000000 7 4096
      [Examples.e3; {| window.Seq := 0; window.ExpiresAt := 9 |}; Examples.e1]
    = Ok (wb', window.blockOff Examples.blockSize
                 (Bytes.toInt32 (Z.quot 4096 (Z.of_nat Examples.blockSize)))) /\
    window.windowIdx wb' = window.windowIdx (Examples.writer Examples.block1) /\
    window.leasing wb' = window.leasing (Examples.writer Examples.block1) /\
    window.winBlocks wb' !! Bytes.toInt32 (Z.quot 4096 (Z.of_nat Examples.blockSize))
    = Some w' /\
    (forall i, i <> Bytes.toInt32 (Z.quot 4096 (Z.of_nat Examples.blockSize)) ->
               window.winBlocks wb' !! i
               = window.winBlocks (Examples.writer Examples.block1) !! i) /\
    window.entries w' = window.entries Examples.block1 /\
    window.entryIdx w' = window.entryIdx Examples.block1 /\
    window.next w' = window.next Examples.block1 /\
    window.cutoff w' = window.cutoff Examples.block1 /\
    window.dirty w' = window.dirty Examples.block1.
Proof.
  apply (proj2 (window_append_skips_duplicates Examples.blockSize
                  Examples.seqsPerWindowBlock 1600000000)).
  - lia.
  - vm_compute. reflexivity.
  - repeat apply Forall_cons_2; try apply Forall_nil_2.
    + right. vm_compute. reflexivity.
    + left. reflexivity.
    + right. vm_compute. reflexivity.
Defined.

(** C10. For every topic hash and every [limit >= 0],
    [timeWindowBucket.ilookup(topicHash, limit)] returns, and returns at
    most [limit] entries over its two passes, whichever entries are expired
    and whatever the expiry bucket answers. *)
Theorem ilookup_at_most_limit (FindBlock : Z -> nat) (expiryBucket : Type)
    (addExpiry : expiryBucket -> window.winEntry -> expiryBucket * option error)
    (w : list window.timeWindow) (eb : expiryBucket) (now topicHash limit : Z) :
  0 <= limit -> (FindBlock topicHash < length w)%nat ->
  exists r eb',
    window.ilookup FindBlock addExpiry w eb now topicHash limit = Ok (r, eb') /\
    Z.of_nat (length r) <= limit.
Proof. apply window.ilookup_bound. Qed.

Lemma ilookup_at_most_limit_witness :
  exists r eb',
    window.ilookup Examples.ring Examples.addExpiry Examples.shards2 [] 1000 7 2
    = Ok (r, eb') /\
    Z.of_nat (length r) <= 2.
Proof.
  apply (ilookup_at_most_limit Examples.ring _ Examples.addExpiry Examples.shards2 []
           1000 7 2).
  - lia.
  - vm_compute. lia.
Defined.

(** C9. [foreachTimeWindow] with [freeze = true]. In the iteration on
    shard [i] the callback gets the entries of the shard as they are when
    it is frozen; entries that arrive for the shard while the callback runs
    go to [friezedEntries]. If the callback succeeds the entries are reset
    and the frozen arrivals become the entries; if it returns an error or
    asks to stop, the entries are not reset and the frozen arrivals are
    appended to them, and the error is what the loop will return. In both
    cases the shard ends up unfrozen with [friezedEntries] empty, and so
    does every shard when the loop is over. *)
Theorem foreach_freeze_then_unfreeze (nShards : nat) (FindBlock : Z -> nat) (S : Type)
    (f : gmap Z (list window.winEntry) -> S -> S * bool * option error)
    (arrivals : nat -> list (Z * window.winEntry))
    (w : list window.timeWindow) (s : S) :
  (forall i wb err,
     w !! i = Some wb ->
     Forall (fun he => (FindBlock he.1 < length w)%nat) (arrivals i) ->
     let '(s', stop, err1) := f (window.tw_entries wb) s in
     let failed := stop || notNil err1 in
     let arrived := window.appendAll (window.friezedEntries wb)
                      (window.arrivalsAt FindBlock i (arrivals i)) in
     exists w' wb',
       window.foreachShard FindBlock S f arrivals true i (w, s, err)
       = Ok (w', s', if failed then err1 else err) /\
       w' !! i = Some wb' /\
       window.freezed wb' = false /\
       window.friezedEntries wb' = ∅ /\
       forall h, window.tw_entries wb' !! h
                 = window.merged (if failed then window.tw_entries wb else ∅) arrived h) /\
  (length w = nShards ->
   (forall k, Forall (fun he => (FindBlock he.1 < nShards)%nat) (arrivals k)) ->
   exists w' s' err',
     window.foreachTimeWindow nShards FindBlock S f arrivals true w s = Ok (w', s', err') /\
     length w' = nShards /\
     forall j, (j < nShards)%nat ->
       exists wb', w' !! j = Some wb' /\ window.freezed wb' = false /\
                   window.friezedEntries wb' = ∅).
Proof.
  split.
  - intros i wb err. apply window.foreachShard_freeze.
  - apply window.foreachTimeWindow_thawed.
Qed.

Lemma foreach_freeze_then_unfreeze_witness :
  exists w' wb',
    window.foreachShard Examples.ring nat (fun _ s => (S s, false, Some (ErrIO 5)))
      Examples.arrivals true 7 (Examples.shards1, 0%nat, None)
    = Ok (w', 1%nat, Some (ErrIO 5)) /\
    w' !! 7%nat = Some wb' /\
    window.freezed wb' = false /\
    window.friezedEntries wb' = ∅ /\
    forall h, window.tw_entries wb' !! h
              = window.merged {[ 7 := [Examples.e1; Examples.e3] ]}
                  (window.appendAll ∅ (window.arrivalsAt Examples.ring 7
                                         (Examples.arrivals 7))) h.
Proof.
  assert (H1 : Examples.shards1 !! 7%nat
               = Some {| window.freezed := false;
                         window.tw_entries := {[ 7 := [Examples.e1; Examples.e3] ]};
                         window.friezedEntries := ∅ |}) by reflexivity.
  assert (H2 : Forall (fun he => (Examples.ring he.1 < length Examples.shards1)%nat)
                 (Examples.arrivals 7)).
  { unfold Examples.arrivals. cbn [Nat.eqb].
    repeat apply Forall_cons_2; try apply Forall_nil_2; vm_compute; lia. }
  exact (proj1 (foreach_freeze_then_unfreeze 32 Examples.ring nat
                  (fun _ s => (S s, false, Some (ErrIO 5))) Examples.arrivals
                  Examples.shards1 0%nat) 7%nat _ None H1 H2).
Defined.

(** C8. [trie.add] is idempotent on the topic hash: for a hash that is in
    the summary map, as it is after an [add] of it, it returns [true] and
    leaves the trie as it is.
    [addUnique] on a slice that holds the hash gives the tuple of that hash
    the new offset and changes nothing else, and it never makes two tuples
    of one hash: on a trie whose pointers are sound, [add] returns, and
    after [add] and after [setOffset] no node's topics hold two tuples with
    equal hash if none did before. *)
Theorem trie_add_idempotent_unique :
  (forall t tp parts d p,
     trie.summary t !! trie.hash tp = Some p ->
     trie.add t tp parts d = Ok (t, true)) /\
  (forall t tp parts d t' added tp2 parts2 d2,
     trie.add t tp parts d = Ok (t', added) -> trie.hash tp2 = trie.hash tp ->
     trie.add t' tp2 parts2 d2 = Ok (t', true)) /\
  (forall pre v post value,
     trie.hash v = trie.hash value -> trie.hash value ∉ map trie.hash pre ->
     trie.addUnique (pre ++ v :: post) value
     = (pre ++ {| trie.hash := trie.hash v; trie.offset := trie.offset value |} :: post,
        false)) /\
  (forall top value, trie.uniq top -> trie.uniq (trie.addUnique top value).1) /\
  (forall t tp parts d,
     trie.wfTrie t -> trie.uniqTrie t ->
     exists t', trie.add t tp parts d = Ok (t', true) /\ trie.uniqTrie t') /\
  (forall t top t' ok,
     trie.uniqTrie t -> trie.setOffset t top = Ok (t', ok) -> trie.uniqTrie t').
Proof.
  split; [|split; [|split; [|split; [|split]]]].
  - intros t tp parts d p H. unfold trie.add. by rewrite H.
  - apply trie.add_add.
  - apply trie.addUnique_replace.
  - apply trie.addUnique_uniq.
  - intros t tp parts d Hwf Hu.
    destruct (trie.add_total t tp parts d Hwf) as [t' Ht'].
    exists t'. split; [done|]. by eapply trie.add_uniq.
  - intros t top t' ok. apply trie.setOffset_uniq.
Qed.

Lemma trie_add_idempotent_unique_witness :
  trie.add Examples.trie1 {| trie.hash := 7; trie.offset := 4096 |} Examples.parts 2
  = Ok (Examples.trie1, true) /\
  trie.addUnique ([{| trie.hash := 5; trie.offset := 0 |}]
                    ++ {| trie.hash := 7; trie.offset := 0 |}
                    :: [{| trie.hash := 9; trie.offset := 8192 |}])
                 {| trie.hash := 7; trie.offset := 4096 |}
  = ([{| trie.hash := 5; trie.offset := 0 |}]
       ++ {| trie.hash := 7; trie.offset := 4096 |}
       :: [{| trie.hash := 9; trie.offset := 8192 |}], false) /\
  exists t', trie.add trie.newPartTrie {| trie.hash := 7; trie.offset := 0 |}
               Examples.parts 2 = Ok (t', true) /\ trie.uniqTrie t'.
Proof.
  pose proof trie_add_idempotent_unique as (Hidem & _ & Hrepl & _ & Hadd & _).
  split; [|split].
  - apply (Hidem Examples.trie1 _ Examples.parts 2 2%nat). vm_compute. reflexivity.
  - apply Hrepl; [reflexivity|].
    cbn. intros H. apply list_elem_of_singleton in H. discriminate.
  - apply Hadd; [apply trie.newPartTrie_wf | apply trie.newPartTrie_uniq].
Defined.

(** C7, as the code has it. [timeWindowBucket.lookup(topicHash, off,
    cutoff, limit)] first takes the in-memory entries from [ilookup]; if
    they are fewer than [limit] it follows the on-disk [next] chain from
    [off]. From each block of the topic it appends the entries in use in
    ascending index order: all of them when they fit in what is still
    needed, otherwise only the last ones still needed. It stops after such
    a partial block, at a block whose [topicHash] differs, after a block
    whose cutoff is non-zero and less than the [cutoff] argument, where the
    chain ends ([next = 0]) and at an offset that cannot be read. When the
    chain is finite and none of the entries in use in it is expired, the
    call returns at most [limit] entries, and what it adds to the in-memory
    entries is a sublist of the entries in use along the chain: no stored
    entry is returned twice. *)
Theorem lookup_follows_chain (blockSize n : nat) (FindBlock : Z -> nat)
    (expiryBucket : Type)
    (addExpiry : expiryBucket -> window.winEntry -> expiryBucket * option error)
    (f : window.file) (w : list window.timeWindow) (eb : expiryBucket)
    (now topicHash off cutoff limit : Z) (bs : list window.winBlock) (fuel : nat) :
  0 <= limit -> (FindBlock topicHash < length w)%nat ->
  window.chain blockSize n f off bs ->
  Forall (window.blockOk now) bs ->
  (length bs < fuel)%nat ->
  exists mem eb1 r,
    window.ilookup FindBlock addExpiry w eb now topicHash limit = Ok (mem, eb1) /\
    window.lookup blockSize n FindBlock addExpiry fuel f w eb now topicHash off cutoff limit
    = Some (Ok (r, eb1)) /\
    r = (if limit <=? Z.of_nat (length mem) then mem
         else window.collect topicHash cutoff limit mem bs) /\
    Z.of_nat (length r) <= limit /\
    (exists d, r = mem ++ d /\ sublist d (flat_map window.live bs)) /\
    (NoDup (map window.Seq (mem ++ flat_map window.live bs)) -> NoDup (map window.Seq r)).
Proof.
  intros Hlim Hidx Hch Hok Hfuel.
  destruct (window.ilookup_bound FindBlock expiryBucket addExpiry w eb now topicHash limit
              Hlim Hidx) as (mem & eb1 & Hil & Hmem).
  assert (Hcol : forall r, (exists d, r = mem ++ d /\ sublist d (flat_map window.live bs)) ->
                 NoDup (map window.Seq (mem ++ flat_map window.live bs)) ->
                 NoDup (map window.Seq r)).
  { intros r (d & -> & Hd) Hnd.
    eapply sublist_NoDup; [exact Hnd|].
    apply (fmap_sublist window.Seq). apply sublist_app; [done|exact Hd]. }
  exists mem, eb1. unfold window.lookup. rewrite Hil.
  destruct (Z.leb_spec limit (Z.of_nat (length mem))) as [Hge|Hlt].
  - exists mem. split; [done|]. split; [done|]. split; [done|]. split; [lia|].
    assert (Hex : exists d, mem = mem ++ d /\ sublist d (flat_map window.live bs))
      by (exists []; rewrite app_nil_r; split; [done | apply sublist_nil_l]).
    split; [exact Hex | by apply Hcol].
  - destruct (window.follow_spec blockSize n expiryBucket addExpiry now topicHash cutoff
                f off bs Hch
                {| window.l_scan := {| window.winEntries := mem; window.expiryCount := 0;
                                       window.expiry := eb1 |};
                   window.l_limit := limit |} fuel Hok)
      as (st' & Hf & Hw & He); [cbn; lia | exact Hfuel |].
    cbn [window.l_scan window.l_limit window.winEntries window.expiry] in Hw, He.
    rewrite Hf. cbn [bind]. rewrite Hw, He.
    eexists. split; [done|]. split; [done|]. split; [done|].
    split; [apply (window.collect_length _ _ now); [done|lia]|].
    pose proof (window.collect_sublist topicHash cutoff limit bs mem) as Hex.
    split; [exact Hex | by apply Hcol].
Qed.

Lemma lookup_follows_chain_witness :
  exists mem eb1 r,
    window.ilookup Examples.ring Examples.addExpiry Examples.shards [] 1000 7 2
    = Ok (mem, eb1) /\
    window.lookup Examples.blockSize Examples.seqsPerWindowBlock Examples.ring
      Examples.addExpiry 3 (Examples.memFile Examples.disk2) Examples.shards [] 1000
      7 8192 0 2 = Some (Ok (r, eb1)) /\
    r = (if 2 <=? Z.of_nat (length mem) then mem
         else window.collect 7 0 2 mem [Examples.newer; Examples.older]) /\
    Z.of_nat (length r) <= 2 /\
    (exists d, r = mem ++ d /\
               sublist d (flat_map window.live [Examples.newer; Examples.older])) /\
    (NoDup (map window.Seq (mem ++ flat_map window.live [Examples.newer; Examples.older]))
     -> NoDup (map window.Seq r)).
Proof.
  apply (lookup_follows_chain Examples.blockSize Examples.seqsPerWindowBlock
           Examples.ring _ Examples.addExpiry (Examples.memFile Examples.disk2)
           Examples.shards [] 1000 7 8192 0 2 [Examples.newer; Examples.older] 3).
  - lia.
  - vm_compute. lia.
  - apply window.chain_link; [vm_compute; reflexivity | discriminate |].
    apply window.chain_end; vm_compute; reflexivity.
  - repeat apply Forall_cons_2; try apply Forall_nil_2;
      (split; [vm_compute; split; discriminate
              | split; [vm_compute; reflexivity|]]).
    + vm_compute. repeat constructor.
    + vm_compute. repeat constructor.
  - cbn. lia.
Defined.

(** C7 as it was stated fails. With no in-memory entries and [limit = 2],
    a block holding the entries of seq 1, 2 and 3, of which seq 2 is
    expired, makes [lookup] return seq 3, seq 1 and seq 3 again: three
    entries, one of them twice. And on the chain of two blocks of topic 7
    with cutoff 0, with [limit = 5], it stops with three entries, at the end
    of the chain, having appended the older block in ascending order
    (seq 1 before seq 3). *)
Lemma lookup_exceeds_limit_counterexample :
  (window.lookup Examples.blockSize Examples.seqsPerWindowBlock Examples.ring
     Examples.addExpiry 5 (Examples.memFile Examples.disk) Examples.shards [] 1000
     7 4096 0 2
   = Some (Ok ([Examples.e3; Examples.e1; Examples.e3], [Examples.e2; Examples.e2])) /\
   ~ (Z.of_nat (length [Examples.e3; Examples.e1; Examples.e3]) <= 2) /\
   ~ NoDup (map window.Seq [Examples.e3; Examples.e1; Examples.e3])) /\
  (window.lookup Examples.blockSize Examples.seqsPerWindowBlock Examples.ring
     Examples.addExpiry 5 (Examples.memFile Examples.disk2) Examples.shards [] 1000
     7 8192 0 5
   = Some (Ok ([Examples.e1000; Examples.e1; Examples.e3], [])) /\
   Z.of_nat (length [Examples.e1000; Examples.e1; Examples.e3]) < 5 /\
   window.topicHash Examples.newer = 7 /\ window.topicHash Examples.older = 7 /\
   window.Cutoff Examples.newer 0 = false /\ window.Cutoff Examples.older 0 = false).
Proof.
  split.
  - split; [vm_compute; reflexivity|]. split.
    + cbn. lia.
    + cbn. intros H. apply NoDup_cons in H as [H _]. apply H.
      apply list_elem_of_further, list_elem_of_here.
  - split; [vm_compute; reflexivity|]. repeat split; cbn; lia.
Qed.

(* ===================================================================== *)
(** * Further properties of the code                                      *)
(* ===================================================================== *)

(** ** memdb *)

(** X1. A shrink pass that returns nil keeps every record at or after the
    cutoff of its shard: a key whose offset is not below [freeOffset]
    and for which [Get] returned a payload before the pass returns the
    same payload after it. *)
Theorem memdb_shrink_keeps_records (db db' : memdb.DB) (blockID key off : Z)
    (c : memdb.memCache) (d : list byte) :
  memdb.shrinkDataTable db = Ok (db', None) ->
  memdb.getCache db blockID = Ok c ->
  (memdb.FindBlock db blockID < memdb.nShards)%nat ->
  memdb.m c !! key = Some off ->
  0 <= memdb.freeOffset c <= off -> off < 2 ^ 63 ->
  memdb.Get db blockID key = Ok (Some d) ->
  memdb.Get db' blockID key = Ok (Some d).
Proof.
  intros Hs Hc Hlt Hm Hfree Hoff Hget.
  destruct (memdb.shrinkDataTable_shard _ _ _ _ Hs Hc Hlt) as (c' & Hc' & Hg').
  unfold memdb.Get in *. rewrite Hc in Hget. rewrite Hg'. cbn [bind] in *.
  apply memdb.getShard_stored.
  apply (memdb.shrinkShard_stored c c' key d off Hc' Hm Hfree Hoff).
  by apply memdb.getShard_Some.
Qed.

Lemma memdb_shrink_keeps_records_witness :
  memdb.Get Examples.db6 5 8 = Ok (Some [Byte.x61]).
Proof.
  apply (memdb_shrink_keeps_records Examples.db5 Examples.db6 5 8 7 Examples.cache5).
  - vm_compute. reflexivity.
  - vm_compute. reflexivity.
  - vm_compute. lia.
  - vm_compute. reflexivity.
  - vm_compute. split; discriminate.
  - lia.
  - vm_compute. reflexivity.
Defined.

(** X2. A shrink pass that returns nil drops every key whose offset is
    below the cutoff of its shard: [Get] returns [(nil, nil)] for it
    afterwards, as for a key that was never set. *)
Theorem memdb_shrink_drops_below_cutoff (db db' : memdb.DB) (blockID key off : Z)
    (c : memdb.memCache) :
  memdb.shrinkDataTable db = Ok (db', None) ->
  memdb.getCache db blockID = Ok c ->
  (memdb.FindBlock db blockID < memdb.nShards)%nat ->
  memdb.m c !! key = Some off ->
  off < memdb.freeOffset c ->
  memdb.Get db' blockID key = Ok None.
Proof.
  intros Hs Hc Hlt Hm Hoff.
  destruct (memdb.shrinkDataTable_shard _ _ _ _ Hs Hc Hlt) as (c' & Hc' & Hg').
  unfold memdb.Get. rewrite Hg'. cbn [bind].
  apply memdb.getShard_absent. by apply (memdb.shrinkShard_dropped c c' key off).
Qed.

Lemma memdb_shrink_drops_below_cutoff_witness :
  memdb.Get Examples.db6 5 7 = Ok None.
Proof.
  apply (memdb_shrink_drops_below_cutoff Examples.db5 Examples.db6 5 7 0 Examples.cache5).
  - vm_compute. reflexivity.
  - vm_compute. reflexivity.
  - vm_compute. lia.
  - vm_compute. reflexivity.
  - vm_compute. reflexivity.
Defined.

(** X3. A shrink pass forgets removals: when the cutoff of the shard is
    not negative, a key for which [Get] reported "entry deleted" before
    the pass reads as [(nil, nil)] after it, whether or not the shard had
    anything to truncate. *)
Theorem memdb_shrink_forgets_removed (db db' : memdb.DB) (blockID key : Z)
    (c : memdb.memCache) :
  memdb.shrinkDataTable db = Ok (db', None) ->
  memdb.getCache db blockID = Ok c ->
  (memdb.FindBlock db blockID < memdb.nShards)%nat ->
  0 <= memdb.freeOffset c ->
  memdb.Get db blockID key = Err ErrEntryDeleted ->
  memdb.Get db' blockID key = Ok None.
Proof.
  intros Hs Hc Hlt Hfree Hget.
  destruct (memdb.shrinkDataTable_shard _ _ _ _ Hs Hc Hlt) as (c' & Hc' & Hg').
  unfold memdb.Get in *. rewrite Hc in Hget. rewrite Hg'. cbn [bind] in *.
  apply memdb.getShard_deleted in Hget.
  apply memdb.getShard_absent.
  apply (memdb.shrinkShard_dropped c c' key (-1)); [done..|lia].
Qed.

Lemma memdb_shrink_forgets_removed_witness :
  memdb.Get Examples.db7 5 7 = Ok None.
Proof.
  apply (memdb_shrink_forgets_removed Examples.db3 Examples.db7 5 7 Examples.cache3).
  - vm_compute. reflexivity.
  - vm_compute. reflexivity.
  - vm_compute. lia.
  - vm_compute. discriminate.
  - vm_compute. reflexivity.
Defined.

(** X4. [Remove] leaves [Count] and [Size] as they are: a removed key
    stays in the map of its shard, so it is still counted, and its bytes
    stay in the arena. *)
Theorem memdb_remove_keeps_count_and_size (db db' : memdb.DB) (blockID key : Z) :
  length (memdb.blockCache db) = memdb.nShards ->
  memdb.Remove db blockID key = Ok db' ->
  memdb.Count db' = memdb.Count db /\ memdb.Size db' = memdb.Size db.
Proof.
  intros Hlen. unfold memdb.Remove.
  destruct (memdb.getCache db blockID) as [c| |] eqn:Hc; [|discriminate..]. cbn [bind].
  intros Heq; inversion Heq; subst db'; clear Heq.
  pose proof (proj1 (memdb.getCache_Some _ _ _) Hc) as Hl.
  assert (Hlen' : length (memdb.blockCache (memdb.setCache db blockID (memdb.removeShard c key)))
                  = memdb.nShards).
  { cbn. by rewrite length_insert. }
  rewrite !memdb.Count_total, !memdb.Size_total by done. cbn [memdb.setCache memdb.blockCache].
  rewrite !(memdb.sumZ_insert _ _ _ c) by done.
  unfold memdb.removeShard.
  destruct (memdb.m c !! key) as [off|] eqn:Hk.
  - rewrite bool_decide_eq_true_2 by eauto. cbn [memdb.m memdb.data].
    rewrite map_size_insert_Some by eauto.
    split; do 2 f_equal; lia.
  - rewrite bool_decide_eq_false_2 by (intros [? ?]; congruence).
    split; do 2 f_equal; lia.
Qed.

Lemma memdb_remove_keeps_count_and_size_witness :
  memdb.Count Examples.db3 = memdb.Count Examples.db1 /\
  memdb.Size Examples.db3 = memdb.Size Examples.db1.
Proof.
  apply (memdb_remove_keeps_count_and_size Examples.db1 Examples.db3 5 7).
  - vm_compute. reflexivity.
  - vm_compute. reflexivity.
Defined.

(** X5. A [Set] that returns nil adds [len(data) + 4] to [Size], also
    when the key was set before, and adds one to [Count] exactly when the
    key was not in the map of its shard; a key that was removed is in
    the map, so setting it again does not change [Count]. *)
Theorem memdb_set_count_and_size (db db' : memdb.DB) (blockID key : Z) (d : list byte)
    (c : memdb.memCache) (n s : Z) :
  length (memdb.blockCache db) = memdb.nShards ->
  memdb.getCache db blockID = Ok c ->
  memdb.Set_ db blockID key d = Ok (db', None) ->
  memdb.Count db = Ok n -> memdb.Size db = Ok s ->
  memdb.Count db'
  = Ok (Bytes.toUint64 (n + match memdb.m c !! key with Some _ => 0 | None => 1 end)) /\
  memdb.Size db' = Ok (Bytes.toInt64 (s + Z.of_nat (length d) + 4)).
Proof.
  intros Hlen Hc. unfold memdb.Set_. rewrite Hc. cbn [bind].
  destruct (memdb.setShard c key d) as [[c' err]| |] eqn:Hs; [|discriminate..]. cbn [bind].
  intros Heq; inversion Heq; subst db' err; clear Heq.
  apply memdb.setShard_Ok in Hs as (Hm & Hsz & _).
  pose proof (proj1 (memdb.getCache_Some _ _ _) Hc) as Hl.
  assert (Hlen' : length (memdb.blockCache (memdb.setCache db blockID c')) = memdb.nShards).
  { cbn. by rewrite length_insert. }
  rewrite !memdb.Count_total, !memdb.Size_total by done. cbn [memdb.setCache memdb.blockCache].
  rewrite !(memdb.sumZ_insert _ _ _ c) by done.
  intros Hn Hsize. inversion Hn; subst n; clear Hn. inversion Hsize; subst s; clear Hsize.
  rewrite Bytes.toUint64_add_l, <- Z.add_assoc, Bytes.toInt64_add_l.
  rewrite Hm, Hsz, map_size_insert.
  split; do 2 f_equal; destruct (memdb.m c !! key); unfold id; lia.
Qed.

Lemma memdb_set_count_and_size_witness :
  memdb.Count Examples.db4 = Ok 2 /\ memdb.Size Examples.db4 = Ok 12.
Proof.
  apply (memdb_set_count_and_size Examples.db1 Examples.db4 5 8 [Byte.x61]
           Examples.cache1 1 7).
  - vm_compute. reflexivity.
  - vm_compute. reflexivity.
  - vm_compute. reflexivity.
  - vm_compute. reflexivity.
  - vm_compute. reflexivity.
Defined.

(** X6. [Keys] lists each key of the shard once, and a key is listed
    exactly when [Get] does not return [(nil, nil)] for it: keys with a
    payload, and removed keys too. *)
Theorem memdb_keys_are_the_known_keys (db : memdb.DB) (blockID : Z) (ks : list Z) :
  memdb.Keys db blockID = Ok ks ->
  NoDup ks /\ forall key, key ∈ ks <-> memdb.Get db blockID key <> Ok None.
Proof.
  unfold memdb.Keys, memdb.Get.
  destruct (memdb.getCache db blockID) as [c| |]; [|discriminate..]. cbn [bind].
  intros Heq; inversion Heq; subst ks; clear Heq.
  split; [apply NoDup_fst_map_to_list|].
  intros key. rewrite memdb.getShard_None.
  rewrite list_elem_of_fmap. split.
  - intros ([k' off] & -> & Hin). apply elem_of_map_to_list in Hin. cbn. congruence.
  - intros Hne. destruct (memdb.m c !! key) as [off|] eqn:Hk; [|done].
    exists (key, off). split; [done|]. by apply elem_of_map_to_list.
Qed.

Lemma memdb_keys_are_the_known_keys_witness :
  NoDup [7] /\ forall key, key ∈ [7] <-> memdb.Get Examples.db3 5 key <> Ok None.
Proof.
  apply (memdb_keys_are_the_known_keys Examples.db3 5 [7]).
  vm_compute. reflexivity.
Defined.

(** X7. On a well-formed database (it has its [nShards] shards, the
    ring maps every block to one of them, and every key of a shard is
    either removed or stored as a record of its payload) no call panics:
    [Set] and [Remove] return, whatever [Set] reports, and leave a
    well-formed database; [Get] returns [(nil, nil)], or "entry
    deleted", or the payload that is stored, and no other error. *)
Theorem memdb_wellformed_calls_return (db : memdb.DB) :
  memdb.wfDB db ->
  (forall b k d, exists db' e, memdb.Set_ db b k d = Ok (db', e) /\ memdb.wfDB db') /\
  (forall b k, exists db', memdb.Remove db b k = Ok db' /\ memdb.wfDB db') /\
  (forall b k,
     memdb.Get db b k = Ok None \/ memdb.Get db b k = Err ErrEntryDeleted \/
     exists d, memdb.Get db b k = Ok (Some d) /\ memdb.storedDB db b k d).
Proof.
  intros Hwf. split; [|split].
  - intros b k d. by apply memdb.Set_wf.
  - intros b k. by apply memdb.Remove_wf.
  - intros b k. by apply memdb.Get_wf.
Qed.

Lemma memdb_wellformed_calls_return_witness :
  (forall b k d, exists db' e,
     memdb.Set_ (memdb.Open Examples.ring 65536) b k d = Ok (db', e) /\ memdb.wfDB db') /\
  (forall b k, exists db',
     memdb.Remove (memdb.Open Examples.ring 65536) b k = Ok db' /\ memdb.wfDB db') /\
  (forall b k,
     memdb.Get (memdb.Open Examples.ring 65536) b k = Ok None \/
     memdb.Get (memdb.Open Examples.ring 65536) b k = Err ErrEntryDeleted \/
     exists d, memdb.Get (memdb.Open Examples.ring 65536) b k = Ok (Some d) /\
               memdb.storedDB (memdb.Open Examples.ring 65536) b k d).
Proof.
  apply (memdb_wellformed_calls_return (memdb.Open Examples.ring 65536)).
  split; [reflexivity|]. split.
  - intros b. unfold memdb.Open, memdb.FindBlock, Examples.ring, memdb.nShards.
    pose proof (Z.mod_pos_bound b 32). lia.
  - apply Forall_forall. intros c Hc.
    apply list_elem_of_In, repeat_spec in Hc. subst c.
    intros k off Hk. cbn in Hk. by rewrite lookup_empty in Hk.
Defined.

(** X8. A database made by [Open] with a ring that maps every block
    below [nShards] is well-formed, and stays so: a run of [Set],
    [Remove] and [Get] calls on it never panics; it ends with a
    well-formed database, or stops at a [Get] of a removed key with
    "entry deleted". *)
Theorem memdb_open_then_calls (ring : Z -> nat) (memSize : Z) (cs : list memdb.call) :
  (forall b, (ring b < memdb.nShards)%nat) ->
  match memdb.run (memdb.Open ring memSize) cs with
  | Ok db' => memdb.wfDB db'
  | Err e => e = ErrEntryDeleted
  | Panic => False
  end.
Proof. intros Hring. by apply memdb.run_wf, memdb.Open_wf. Qed.

Lemma memdb_open_then_calls_witness :
  match memdb.run (memdb.Open Examples.ring 65536) Examples.others with
  | Ok db' => memdb.wfDB db'
  | Err e => e = ErrEntryDeleted
  | Panic => False
  end.
Proof.
  apply (memdb_open_then_calls Examples.ring 65536 Examples.others).
  intros b. unfold Examples.ring, memdb.nShards.
  pose proof (Z.mod_pos_bound b 32). lia.
Defined.

(** ** wal *)

(** X9. Marshalling the [logInfo] that [UnmarshalBinary] read from a
    slice of at least 32 bytes gives back the first 32 bytes of the
    slice: every bit pattern is a record, and none is changed by a trip
    through the record. *)
Theorem wal_logInfo_bytes_roundtrip (data : list byte) :
  (32 <= length data)%nat ->
  bind (wal.logInfo_UnmarshalBinary data) (fun l => Ok (wal.logInfo_MarshalBinary l))
  = Ok (take 32 data).
Proof. apply wal.logInfo_bytes_roundtrip. Qed.

Lemma wal_logInfo_bytes_roundtrip_witness :
  bind (wal.logInfo_UnmarshalBinary (Examples.raw 40))
       (fun l => Ok (wal.logInfo_MarshalBinary l))
  = Ok (take 32 (Examples.raw 40)).
Proof.
  apply (wal_logInfo_bytes_roundtrip (Examples.raw 40)).
  vm_compute. lia.
Defined.

(** X10. Marshalling the [header] that [UnmarshalBinary] read from a slice
    of at least 68 bytes gives back the first 68 bytes of the slice,
    followed by two zero bytes: the padding of the header is not read and
    is written as zero. *)
Theorem wal_header_bytes_roundtrip (data : list byte) :
  (68 <= length data)%nat ->
  bind (wal.header_UnmarshalBinary data) (fun h => Ok (wal.header_MarshalBinary h))
  = Ok (take 68 data ++ Bytes.make 2).
Proof. apply wal.header_bytes_roundtrip. Qed.

Lemma wal_header_bytes_roundtrip_witness :
  bind (wal.header_UnmarshalBinary (Examples.raw 70))
       (fun h => Ok (wal.header_MarshalBinary h))
  = Ok (take 68 (Examples.raw 70) ++ Bytes.make 2).
Proof.
  apply (wal_header_bytes_roundtrip (Examples.raw 70)).
  vm_compute. lia.
Defined.

(** X11. On a writer that is neither written nor released, a run of
    [Append] calls that all return nil leaves in the buffer the frames of
    the non-empty records, in the order of the calls, each frame being
    the length of the record plus four in four little-endian bytes
    followed by the record; [count] has grown by the number of non-empty
    records and [logSize] by the number of bytes added to the buffer,
    both modulo [2^32]. An empty record adds nothing. *)
Theorem wal_append_frames (Write : list byte -> list byte -> list byte * option error)
    (w w' : wal.Writer) (ds : list (list byte)) :
  (forall b p b', Write b p = (b', None) -> b' = b ++ p) ->
  wal.writeComplete w || wal.releaseComplete w = false ->
  Bytes.uint32 (wal.count w) -> Bytes.uint32 (wal.logSize w) ->
  wal.appendAll Write w ds = (w', None) ->
  wal.buffer w' = wal.buffer w ++ flat_map wal.frame (List.filter wal.nonEmpty ds) /\
  wal.count w'
  = Bytes.toUint32 (wal.count w + Z.of_nat (length (List.filter wal.nonEmpty ds))) /\
  wal.logSize w'
  = Bytes.toUint32 (wal.logSize w + Z.of_nat (length (wal.buffer w'))
                    - Z.of_nat (length (wal.buffer w))).
Proof.
  intros HW Hopen Hc Hl Hrun.
  destruct (wal.appendAll_nil Write HW ds w w' Hopen Hc Hl Hrun)
    as (_ & _ & Hb & Hcnt & Hsz).
  split; [done|]. split; [done|].
  rewrite Hsz, Hb, length_app. f_equal. lia.
Qed.

Lemma wal_append_frames_witness :
  wal.buffer Examples.written
  = wal.buffer Examples.newWriter
    ++ flat_map wal.frame (List.filter wal.nonEmpty Examples.records) /\
  wal.count Examples.written
  = Bytes.toUint32 (wal.count Examples.newWriter
                    + Z.of_nat (length (List.filter wal.nonEmpty Examples.records))) /\
  wal.logSize Examples.written
  = Bytes.toUint32 (wal.logSize Examples.newWriter
                    + Z.of_nat (length (wal.buffer Examples.written))
                    - Z.of_nat (length (wal.buffer Examples.newWriter))).
Proof.
  apply (wal_append_frames Examples.bufWrite Examples.newWriter Examples.written
           Examples.records).
  - intros b p b' H. inversion H. reflexivity.
  - reflexivity.
  - vm_compute. split; [discriminate|reflexivity].
  - vm_compute. split; [discriminate|reflexivity].
  - vm_compute. reflexivity.
Defined.



(** ** window *)

(** X13. Marshalling the block that [UnmarshalBinary] read from a slice
    gives back the entry array and the trailer that were read, the rest
    of the block being zero: the bytes of a block in the file are not
    changed by a trip through [winBlock], up to the padding after the
    trailer. *)
Theorem window_block_bytes_roundtrip (blockSize n : nat) (w0 : window.winBlock)
    (data : list byte) :
  window.layout_ok blockSize n ->
  (window.trailerOff n + 26 <= length data)%nat ->
  bind (window.UnmarshalBinary n w0 data) (window.MarshalBinary blockSize n)
  = Ok (take (window.trailerOff n + 26) data
        ++ Bytes.make (blockSize - (window.trailerOff n + 26))).
Proof. apply window.winBlock_bytes_roundtrip. Qed.

Lemma window_block_bytes_roundtrip_witness :
  bind (window.UnmarshalBinary Examples.seqsPerWindowBlock
          (window.zeroBlock Examples.seqsPerWindowBlock) (Examples.raw 4096))
       (window.MarshalBinary Examples.blockSize Examples.seqsPerWindowBlock)
  = Ok (take (window.trailerOff Examples.seqsPerWindowBlock + 26) (Examples.raw 4096)
        ++ Bytes.make (Examples.blockSize
                       - (window.trailerOff Examples.seqsPerWindowBlock + 26))).
Proof.
  apply (window_block_bytes_roundtrip Examples.blockSize Examples.seqsPerWindowBlock
           (window.zeroBlock Examples.seqsPerWindowBlock) (Examples.raw 4096)).
  - unfold window.layout_ok, window.trailerOff, Examples.blockSize,
      Examples.seqsPerWindowBlock. lia.
  - unfold Examples.raw. rewrite length_map, length_seq.
    unfold window.trailerOff, Examples.seqsPerWindowBlock. lia.
Defined.

(** X14. An entry that was added is found: after [add] of an entry that
    is not expired, [ilookup] of its topic with a limit of at least one
    returns a result that holds the entry. On a shard that is not
    frozen this needs the frozen slice of the topic to be empty, which
    is how [unFreeze] leaves it; otherwise the frozen entries come first
    and may use up the limit. *)
Theorem window_ilookup_after_add (FindBlock : Z -> nat) (expiryBucket : Type)
    (addExpiry : expiryBucket -> window.winEntry -> expiryBucket * option error)
    (w : list window.timeWindow) (eb : expiryBucket) (now h : Z) (e : window.winEntry)
    (limit : Z) (wb : window.timeWindow) :
  1 <= limit -> window.isExpired now e = false ->
  window.getWindowBlock FindBlock w h = Ok wb ->
  (window.freezed wb = false -> default [] (window.friezedEntries wb !! h) = []) ->
  exists w' r eb',
    window.add FindBlock w h e = Ok w' /\
    window.ilookup FindBlock addExpiry w' eb now h limit = Ok (r, eb') /\
    e ∈ r.
Proof. apply window.ilookup_add. Qed.

Lemma window_ilookup_after_add_witness :
  exists w' r eb',
    window.add Examples.ring Examples.shards2 7 Examples.e1000 = Ok w' /\
    window.ilookup Examples.ring Examples.addExpiry w' [] 1000 7 1 = Ok (r, eb') /\
    Examples.e1000 ∈ r.
Proof.
  apply (window_ilookup_after_add Examples.ring _ Examples.addExpiry Examples.shards2 []
           1000 7 Examples.e1000 1 Examples.frozenShard).
  - lia.
  - reflexivity.
  - vm_compute. reflexivity.
  - discriminate.
Defined.

(** X15. For a limit that is not negative, [ilookup] returns. It scans
    a suffix of the frozen slice and then a suffix of the live slice of
    the topic: its result are the scanned entries that are not expired,
    in their order, and the scanned entries that are expired are handed
    to the expiry bucket, in their order; no scanned entry is dropped. *)
Theorem window_ilookup_order_and_expiry (FindBlock : Z -> nat) (expiryBucket : Type)
    (addExpiry : expiryBucket -> window.winEntry -> expiryBucket * option error)
    (w : list window.timeWindow) (eb : expiryBucket) (now h limit : Z)
    (wb : window.timeWindow) :
  0 <= limit ->
  window.getWindowBlock FindBlock w h = Ok wb ->
  exists r eb' sF sE,
    window.ilookup FindBlock addExpiry w eb now h limit = Ok (r, eb') /\
    sF `suffix_of` default [] (window.friezedEntries wb !! h) /\
    sE `suffix_of` default [] (window.tw_entries wb !! h) /\
    r = List.filter (window.notExpired now) (sF ++ sE) /\
    eb' = window.handOver expiryBucket addExpiry eb
            (List.filter (window.isExpired now) (sF ++ sE)).
Proof.
  intros Hlim Hwb.
  destruct (window.ilookup_bound FindBlock _ addExpiry w eb now h limit Hlim)
    as (r & eb' & Hil & _).
  { unfold window.getWindowBlock in Hwb.
    destruct (w !! FindBlock h) eqn:E; [|discriminate]. by apply lookup_lt_Some in E. }
  destruct (window.ilookup_partition FindBlock _ addExpiry w eb now h limit r eb' wb
              Hwb Hil) as (sF & sE & HF & HE & Hr & Heb).
  by exists r, eb', sF, sE.
Qed.

Lemma window_ilookup_order_and_expiry_witness :
  exists r eb' sF sE,
    window.ilookup Examples.ring Examples.addExpiry Examples.shards2 [] 1000 7 2
    = Ok (r, eb') /\
    sF `suffix_of` default [] (window.friezedEntries Examples.frozenShard !! 7) /\
    sE `suffix_of` default [] (window.tw_entries Examples.frozenShard !! 7) /\
    r = List.filter (window.notExpired 1000) (sF ++ sE) /\
    eb' = window.handOver _ Examples.addExpiry []
            (List.filter (window.isExpired 1000) (sF ++ sE)).
Proof.
  apply (window_ilookup_order_and_expiry Examples.ring _ Examples.addExpiry
           Examples.shards2 [] 1000 7 2 Examples.frozenShard).
  - lia.
  - vm_compute. reflexivity.
Defined.

(** X16. Whatever the window file holds, when [lookup] returns entries
    they begin with the entries that [ilookup] returns for the same
    arguments, and none of them is expired: every entry taken from a
    block goes through the expiry test. *)
Theorem window_lookup_never_returns_expired (blockSize n : nat) (FindBlock : Z -> nat)
    (expiryBucket : Type)
    (addExpiry : expiryBucket -> window.winEntry -> expiryBucket * option error)
    (fuel : nat) (f : window.file) (w : list window.timeWindow) (eb : expiryBucket)
    (now h off cut limit : Z) (r : list window.winEntry) (eb' : expiryBucket) :
  window.lookup blockSize n FindBlock addExpiry fuel f w eb now h off cut limit
  = Some (Ok (r, eb')) ->
  exists r0 eb0 d,
    window.ilookup FindBlock addExpiry w eb now h limit = Ok (r0, eb0) /\
    r = r0 ++ d /\
    Forall (fun e => window.isExpired now e = false) r.
Proof.
  intros Hl.
  destruct (window.lookup_extends blockSize n FindBlock _ addExpiry fuel f w eb now h off
              cut limit r eb' Hl) as (r0 & eb0 & Hil & (d & -> & _) & Hr).
  by exists r0, eb0, d.
Qed.

Lemma window_lookup_never_returns_expired_witness :
  exists r0 eb0 d,
    window.ilookup Examples.ring Examples.addExpiry Examples.shards2 [] 1000 7 4
    = Ok (r0, eb0) /\
    [Examples.e1000; Examples.e1; Examples.e3; Examples.e3] = r0 ++ d /\
    Forall (fun e => window.isExpired 1000 e = false)
      [Examples.e1000; Examples.e1; Examples.e3; Examples.e3].
Proof.
  apply (window_lookup_never_returns_expired Examples.blockSize
           Examples.seqsPerWindowBlock Examples.ring _ Examples.addExpiry 3
           (Examples.memFile Examples.disk) Examples.shards2 [] 1000 7 4096 0 4
           [Examples.e1000; Examples.e1; Examples.e3; Examples.e3]
           [Examples.e2; Examples.e2]).
  vm_compute. reflexivity.
Defined.

(** X17. [append] keeps the cached blocks well-formed and does not
    panic. On a layout of between 1 and 65535 entries per block, when
    every cached block is well-formed (the array has its size,
    [entryIdx] is within it, the slots from [entryIdx] on are zero, the
    entries in use have non-zero and pairwise distinct [seq]s) and the
    block at [off] in the file is well-formed if it can be read, a call
    either returns with every cached block well-formed, or returns the
    error of the read, which is not [io.EOF]; it panics only if the read
    does. *)
Theorem window_append_keeps_blocks_wellformed (blockSize n : nat)
    (wb : window.windowWriter) (now h off : Z) (wes : list window.winEntry) :
  (0 < n)%nat /\ Z.of_nat n < 2 ^ 16 ->
  window.cacheInv n wb ->
  (forall b, window.read blockSize n (window.ww_file wb) off = Ok b -> window.blockInv n b) ->
  match window.append blockSize n wb now h off wes with
  | Ok (wb', _) => window.cacheInv n wb' /\ window.ww_file wb' = window.ww_file wb
  | Err e => window.read blockSize n (window.ww_file wb) off = Err e /\ e <> io_EOF
  | Panic => window.read blockSize n (window.ww_file wb) off = Panic
  end.
Proof. intros Hn. by apply window.append_inv. Qed.

Lemma window_append_keeps_blocks_wellformed_witness :
  match window.append Examples.blockSize Examples.seqsPerWindowBlock
          (Examples.writer Examples.block1) 1600000000 7 4096
          [Examples.e1000; Examples.e1000; Examples.e1] with
  | Ok (wb', _) =>
      window.cacheInv Examples.seqsPerWindowBlock wb' /\
      window.ww_file wb' = window.ww_file (Examples.writer Examples.block1)
  | Err e =>
      window.read Examples.blockSize Examples.seqsPerWindowBlock
        (window.ww_file (Examples.writer Examples.block1)) 4096 = Err e /\ e <> io_EOF
  | Panic =>
      window.read Examples.blockSize Examples.seqsPerWindowBlock
        (window.ww_file (Examples.writer Examples.block1)) 4096 = Panic
  end.
Proof.
  assert (Hb1 : window.blockInv Examples.seqsPerWindowBlock Examples.block1).
  { split; [vm_compute; reflexivity|]. split; [vm_compute; split; discriminate|].
    split; [vm_compute; reflexivity|]. split.
    - vm_compute. repeat constructor; discriminate.
    - vm_compute.
      repeat (apply NoDup_cons_2;
              [rewrite ?elem_of_cons, elem_of_nil; intuition discriminate|]).
      apply NoDup_nil_2. }
  apply (window_append_keeps_blocks_wellformed Examples.blockSize
           Examples.seqsPerWindowBlock (Examples.writer Examples.block1)
           1600000000 7 4096 [Examples.e1000; Examples.e1000; Examples.e1]).
  - unfold Examples.seqsPerWindowBlock. lia.
  - intros i b Hb. cbn in Hb. apply lookup_singleton_Some in Hb as [_ <-]. exact Hb1.
  - intros b Hb. vm_compute in Hb. inversion Hb; subst b; clear Hb. exact Hb1.
Defined.

(** X18. Entries that fit go into the designated block in their order.
    When [append] is called with the offset of a cached, well-formed
    block and with entries whose [seq]s are non-zero, pairwise distinct
    and not in the block's array, and the block has room for all of them,
    the call returns the offset of that same block, takes no new block
    index, and stores under the block's index a block of the topic whose
    entries in use are the old ones followed by the new ones. *)
Theorem window_append_fits_in_order (blockSize n : nat) (wb : window.windowWriter)
    (now h off : Z) (w : window.winBlock) (wes : list window.winEntry) :
  (0 < n)%nat /\ Z.of_nat n < 2 ^ 16 ->
  off <> 0 ->
  window.winBlocks wb !! Bytes.toInt32 (Z.quot off (Z.of_nat blockSize)) = Some w ->
  window.blockInv n w ->
  Forall (fun e => window.Seq e <> 0) wes ->
  NoDup (map window.Seq wes) ->
  (forall e, e ∈ wes -> window.hasSeq w (window.Seq e) = false) ->
  window.entryIdx w + Z.of_nat (length wes) <= Z.of_nat n ->
  exists wb' w',
    window.append blockSize n wb now h off wes
    = Ok (wb', window.blockOff blockSize (Bytes.toInt32 (Z.quot off (Z.of_nat blockSize)))) /\
    window.windowIdx wb' = window.windowIdx wb /\
    window.winBlocks wb'
    = <[Bytes.toInt32 (Z.quot off (Z.of_nat blockSize)) := w']> (window.winBlocks wb) /\
    window.topicHash w' = h /\
    window.live w' = window.live w ++ wes.
Proof. intros Hn. by apply window.append_fits. Qed.

Lemma window_append_fits_in_order_witness :
  exists wb' w',
    window.append Examples.blockSize Examples.seqsPerWindowBlock
      (Examples.writer Examples.block1) 1600000000 7 4096 [Examples.e1000]
    = Ok (wb', window.blockOff Examples.blockSize
                 (Bytes.toInt32 (Z.quot 4096 (Z.of_nat Examples.blockSize)))) /\
    window.windowIdx wb' = window.windowIdx (Examples.writer Examples.block1) /\
    window.winBlocks wb'
    = <[Bytes.toInt32 (Z.quot 4096 (Z.of_nat Examples.blockSize)) := w']>
        (window.winBlocks (Examples.writer Examples.block1)) /\
    window.topicHash w' = 7 /\
    window.live w' = window.live Examples.block1 ++ [Examples.e1000].
Proof.
  apply (window_append_fits_in_order Examples.blockSize Examples.seqsPerWindowBlock
           (Examples.writer Examples.block1) 1600000000 7 4096 Examples.block1
           [Examples.e1000]).
  - unfold Examples.seqsPerWindowBlock. lia.
  - discriminate.
  - vm_compute. reflexivity.
  - split; [vm_compute; reflexivity|]. split; [vm_compute; split; discriminate|].
    split; [vm_compute; reflexivity|]. split.
    + vm_compute. repeat constructor; discriminate.
    + vm_compute.
      repeat (apply NoDup_cons_2;
              [rewrite ?elem_of_cons, elem_of_nil; intuition discriminate|]).
      apply NoDup_nil_2.
  - repeat constructor. discriminate.
  - cbn. apply NoDup_singleton.
  - intros e He. apply list_elem_of_singleton in He. subst e. vm_compute. reflexivity.
  - vm_compute. discriminate.
Defined.

(** X19. [foreachWindowBlock] reads the blocks of index below
    [windowIdx] and no other part of the window file: on two files that
    hold the same bytes in those blocks it does the same, whatever the
    callback. The block of index [windowIdx], which is the newest block
    that [append] opened, is not visited; with a window index that is not
    positive nothing is read, the callback is not called and the error
    is nil. *)
Theorem window_foreach_block_reads_below_index (blockSize n : nat) (S : Type)
    (f : Z -> window.winBlock -> S -> S * bool * option error)
    (f1 f2 : window.file) (windowIdx : Z) (s : S) :
  windowIdx < 2 ^ 31 ->
  (forall i, 0 <= i < windowIdx ->
     f1 (window.winBlockOffset blockSize i)
        (window.winBlockOffset blockSize i + Z.of_nat blockSize)
     = f2 (window.winBlockOffset blockSize i)
          (window.winBlockOffset blockSize i + Z.of_nat blockSize)) ->
  window.foreachWindowBlock blockSize n S f f1 windowIdx s
  = window.foreachWindowBlock blockSize n S f f2 windowIdx s /\
  (windowIdx <= 0 ->
   window.foreachWindowBlock blockSize n S f f1 windowIdx s = Ok (s, None)).
Proof.
  intros Hmax Hsame. split.
  - by apply window.foreachWindowBlock_reads.
  - apply window.foreachWindowBlock_none.
Qed.

Lemma window_foreach_block_reads_below_index_witness :
  window.foreachWindowBlock Examples.blockSize Examples.seqsPerWindowBlock _
    Examples.hashes (Examples.memFile Examples.disk2) 2 []
  = window.foreachWindowBlock Examples.blockSize Examples.seqsPerWindowBlock _
      Examples.hashes (Examples.memFile Examples.disk2Short) 2 [] /\
  (2 <= 0 ->
   window.foreachWindowBlock Examples.blockSize Examples.seqsPerWindowBlock _
     Examples.hashes (Examples.memFile Examples.disk2) 2 [] = Ok ([], None)).
Proof.
  apply (window_foreach_block_reads_below_index Examples.blockSize
           Examples.seqsPerWindowBlock _ Examples.hashes
           (Examples.memFile Examples.disk2) (Examples.memFile Examples.disk2Short)
           2 []).
  - lia.
  - intros i Hi. assert (Hcases : i = 0 \/ i = 1) by lia.
    destruct Hcases as [-> | ->]; vm_compute; reflexivity.
Defined.

(** ** trie *)

(** X20. [getOffset] reads what [setOffset] wrote. After a [setOffset]
    that returned [true], [getOffset] of the hash returns the new offset
    and [true]; a [setOffset] of a hash that is not in the trie returns
    [false], changes nothing, and [getOffset] of it returns [(0, false)].
    In both cases [getOffset] of every other hash returns what it
    returned before. *)
Theorem trie_setOffset_then_getOffset (t t' : trie.partTrie) (top : trie.topic)
    (ok : bool) :
  trie.setOffset t top = Ok (t', ok) ->
  trie.getOffset t' (trie.hash top) = Ok (if ok then trie.offset top else 0, ok) /\
  (ok = false -> t' = t) /\
  forall h, h <> trie.hash top -> trie.getOffset t' h = trie.getOffset t h.
Proof. apply trie.getOffset_setOffset. Qed.

Lemma trie_setOffset_then_getOffset_witness :
  trie.getOffset Examples.trie2 7 = Ok (8192, true) /\
  (true = false -> Examples.trie2 = Examples.trie1) /\
  forall h, h <> 7 -> trie.getOffset Examples.trie2 h = trie.getOffset Examples.trie1 h.
Proof.
  apply (trie_setOffset_then_getOffset Examples.trie1 Examples.trie2
           {| trie.hash := 7; trie.offset := 8192 |} true).
  vm_compute. reflexivity.
Defined.

(** X21. [getOffset] after [add]. The [add] of a hash that is not in the
    trie records its offset: [getOffset] returns it with [true]. The
    [add] of a hash that is in the trie changes nothing, so the offset
    given with it is dropped and [getOffset] returns the old one. When
    every hash of the summary map points into the heap, [getOffset] of
    every other hash returns what it returned before. *)
Theorem trie_add_then_getOffset (t t' : trie.partTrie) (tp : trie.topic)
    (parts : list trie.Part) (d : Z) (added : bool) :
  trie.add t tp parts d = Ok (t', added) ->
  trie.getOffset t' (trie.hash tp)
  = match trie.summary t !! trie.hash tp with
    | Some _ => trie.getOffset t (trie.hash tp)
    | None => Ok (trie.offset tp, true)
    end /\
  (is_Some (trie.summary t !! trie.hash tp) -> t' = t) /\
  (trie.summaryValid t ->
   forall h, h <> trie.hash tp -> trie.getOffset t' h = trie.getOffset t h).
Proof. apply trie.getOffset_add. Qed.

Lemma trie_add_then_getOffset_witness :
  trie.getOffset Examples.trie3 9
  = match trie.summary Examples.trie1 !! 9 with
    | Some _ => trie.getOffset Examples.trie1 9
    | None => Ok (12288, true)
    end /\
  (is_Some (trie.summary Examples.trie1 !! 9) -> Examples.trie3 = Examples.trie1) /\
  (trie.summaryValid Examples.trie1 ->
   forall h, h <> 9 -> trie.getOffset Examples.trie3 h = trie.getOffset Examples.trie1 h).
Proof.
  apply (trie_add_then_getOffset Examples.trie1 Examples.trie3
           {| trie.hash := 9; trie.offset := 12288 |} Examples.parts3 3 true).
  vm_compute. reflexivity.
Defined.

(** X22. The trie stays indexed, and [Count] counts the hashes that
    [getOffset] knows. In a trie where every hash of the summary map
    points at a part that carries a tuple of that hash, which holds of
    the empty trie, an [add] that returns leaves such a trie; [Count]
    grows by one exactly when the hash was not known; and [getOffset]
    returns [true] for exactly the hashes of the summary map. *)
Theorem trie_add_keeps_index (t t' : trie.partTrie) (tp : trie.topic)
    (parts : list trie.Part) (d : Z) (added : bool) :
  trie.indexed t ->
  trie.add t tp parts d = Ok (t', added) ->
  trie.indexed t' /\
  trie.Count t'
  = trie.Count t + match trie.summary t !! trie.hash tp with Some _ => 0 | None => 1 end /\
  forall h, (exists o, trie.getOffset t' h = Ok (o, true))
            <-> is_Some (trie.summary t' !! h).
Proof.
  intros Hi Hadd.
  pose proof (trie.add_indexed _ _ _ _ _ _ Hi Hadd) as Hi'.
  split; [done|]. split; [by eapply trie.Count_add|].
  intros h. by apply trie.getOffset_known.
Qed.

Lemma trie_add_keeps_index_witness :
  trie.indexed Examples.trie1 /\
  trie.Count Examples.trie1
  = trie.Count trie.newPartTrie
    + match trie.summary trie.newPartTrie !! 7 with Some _ => 0 | None => 1 end /\
  forall h, (exists o, trie.getOffset Examples.trie1 h = Ok (o, true))
            <-> is_Some (trie.summary Examples.trie1 !! h).
Proof.
  apply (trie_add_keeps_index trie.newPartTrie Examples.trie1
           {| trie.hash := 7; trie.offset := 0 |} Examples.parts 2 true).
  - apply trie.newPartTrie_indexed.
  - vm_compute. reflexivity.
Defined.

(** X23. A topic that was added is found. On a trie whose parts form a
    tree (every child pointer points into the heap and levels grow from
    a part to its children), which holds of the empty trie and is kept
    by [add], after the [add] of a hash that was not in the trie a
    [lookup] with the same parts and depth returns, for every order in
    which the children maps are ranged over and whatever the topic type,
    and the hash is among the tuples it returns. *)
Theorem trie_lookup_finds_added (Wildcard TopicStatic : Z)
    (range : gmap trie.key nat -> list (trie.key * nat))
    (t t' : trie.partTrie) (tp : trie.topic) (parts : list trie.Part) (d : Z)
    (added : bool) (topicType : Z) :
  (forall m, range m ≡ₚ map_to_list m) ->
  trie.lookupInv t ->
  trie.summary t !! trie.hash tp = None ->
  trie.add t tp parts d = Ok (t', added) ->
  trie.lookupInv t' /\
  exists fuel0, forall fuel, (fuel0 <= fuel)%nat ->
  exists tops,
    trie.lookup Wildcard TopicStatic range fuel t' parts d topicType = Some (Ok tops) /\
    trie.hash tp ∈ map trie.hash tops.
Proof.
  intros Hperm Hinv Hs Hadd. split.
  - by eapply trie.add_lookupInv.
  - by eapply trie.lookup_add.
Qed.

Lemma trie_lookup_finds_added_witness :
  trie.lookupInv Examples.trie3 /\
  exists fuel0, forall fuel, (fuel0 <= fuel)%nat ->
  exists tops,
    trie.lookup Examples.wildcard Examples.topicStatic Examples.rangeOf fuel
      Examples.trie3 Examples.parts3 3 0 = Some (Ok tops) /\
    9 ∈ map trie.hash tops.
Proof.
  apply (trie_lookup_finds_added Examples.wildcard Examples.topicStatic Examples.rangeOf
           Examples.trie1 Examples.trie3 {| trie.hash := 9; trie.offset := 12288 |}
           Examples.parts3 3 true 0).
  - intros m. reflexivity.
  - apply (trie.add_lookupInv trie.newPartTrie {| trie.hash := 7; trie.offset := 0 |}
             Examples.parts 2 Examples.trie1 true).
    + apply trie.newPartTrie_lookupInv.
    + vm_compute. reflexivity.
  - vm_compute. reflexivity.
  - vm_compute. reflexivity.
Defined.



(** X25. The tuples that [lookup] returns carry the offsets of the
    trie. In a trie where no part carries a hash twice and every tuple of
    a part is indexed by the summary map under its hash, which holds of
    the empty trie and is kept by [add] and [setOffset], each tuple that
    a [lookup] returns has the offset that [getOffset] returns for its
    hash. *)
Theorem trie_lookup_carries_offsets (Wildcard TopicStatic : Z)
    (range : gmap trie.key nat -> list (trie.key * nat)) (t : trie.partTrie) :
  trie.offsetsInv t ->
  (forall tp parts d t' added,
     trie.add t tp parts d = Ok (t', added) -> trie.offsetsInv t') /\
  (forall top t' ok, trie.setOffset t top = Ok (t', ok) -> trie.offsetsInv t') /\
  (forall fuel query d topicType tops,
     trie.lookup Wildcard TopicStatic range fuel t query d topicType = Some (Ok tops) ->
     forall tp, tp ∈ tops -> trie.getOffset t (trie.hash tp) = Ok (trie.offset tp, true)).
Proof.
  intros Hinv. split; [|split].
  - intros tp parts d t' added. by apply trie.add_offsetsInv.
  - intros top t' ok. by apply trie.setOffset_offsetsInv.
  - intros fuel query d topicType tops. by apply trie.lookup_offsets.
Qed.

Lemma trie_lookup_carries_offsets_witness :
  (forall tp parts d t' added,
     trie.add Examples.trie2 tp parts d = Ok (t', added) -> trie.offsetsInv t') /\
  (forall top t' ok,
     trie.setOffset Examples.trie2 top = Ok (t', ok) -> trie.offsetsInv t') /\
  (forall fuel query d topicType tops,
     trie.lookup Examples.wildcard Examples.topicStatic Examples.rangeOf fuel
       Examples.trie2 query d topicType = Some (Ok tops) ->
     forall tp, tp ∈ tops ->
       trie.getOffset Examples.trie2 (trie.hash tp) = Ok (trie.offset tp, true)).
Proof.
  apply (trie_lookup_carries_offsets Examples.wildcard Examples.topicStatic
           Examples.rangeOf Examples.trie2).
  apply (trie.setOffset_offsetsInv Examples.trie1 {| trie.hash := 7; trie.offset := 8192 |}
           Examples.trie2 true).
  - apply (trie.add_offsetsInv trie.newPartTrie {| trie.hash := 7; trie.offset := 0 |}
             Examples.parts 2 Examples.trie1 true).
    + apply trie.newPartTrie_offsetsInv.
    + vm_compute. reflexivity.
  - vm_compute. reflexivity.
Defined.

(** ** utp *)

(** X26. The length prefix survives the trip. For every [int] value
    [encodeLength] returns between one and ten bytes; for a length from
    0 to [2^28 - 1] it returns at most four, and [decodeLength] on a
    reader that holds them, followed by anything, returns the length and
    leaves the reader at what follows. *)
Theorem utp_length_roundtrip (n : Z) :
  Bytes.int64 n ->
  exists bs,
    utp.encodeLength n = Some bs /\
    (1 <= length bs <= 10)%nat /\
    (0 <= n < 2 ^ 28 ->
     (length bs <= 4)%nat /\
     forall rest, utp.decodeLength (bs ++ rest) = Ok (n, rest)).
Proof.
  intros Hn. unfold utp.encodeLength, Bytes.int64 in *.
  destruct (utp.encodeLoop_total 10 n []) as (bs & Hbs & Hlen); [lia| |].
  { change (128 ^ Z.of_nat 10) with (2 ^ 70). lia. }
  exists bs. split; [exact Hbs|]. split; [exact Hlen|].
  intros Hsmall.
  destruct (utp.encode_decode 4 n 0 [] 0 [] 10 5) as (ds & Hds & Hl & _);
    [lia | change (128 ^ Z.of_nat 4) with (2 ^ 28); lia | lia | cbn; lia | lia | lia |].
  rewrite Hbs in Hds. inversion Hds; subst ds; clear Hds.
  split; [lia|]. intros rest.
  destruct (utp.encode_decode 4 n 0 [] 0 rest 10 5) as (ds & Hds & _ & Hdec);
    [lia | change (128 ^ Z.of_nat 4) with (2 ^ 28); lia | lia | cbn; lia | lia | lia |].
  rewrite Hbs in Hds. inversion Hds; subst ds; clear Hds.
  unfold utp.decodeLength. change (7 * Z.of_nat 0) with 0 in Hdec.
  rewrite Hdec. do 2 f_equal. lia.
Qed.

Lemma utp_length_roundtrip_witness :
  exists bs,
    utp.encodeLength 321 = Some bs /\
    (1 <= length bs <= 10)%nat /\
    (0 <= 321 < 2 ^ 28 ->
     (length bs <= 4)%nat /\
     forall rest, utp.decodeLength (bs ++ rest) = Ok (321, rest)).
Proof.
  apply (utp_length_roundtrip 321).
  unfold Bytes.int64. lia.
Defined.

(** X27. [decodeLength] reads between one and four bytes and returns a
    length below [2^28], whatever the bytes; its only error is [io.EOF],
    on a reader that ends within its first three bytes. So of a prefix of
    five bytes or more, which [encodeLength] makes for a length of
    [2^28] or more, only four bytes are read. *)
Theorem utp_decodeLength_reads_at_most_four (r : list byte) :
  match utp.decodeLength r with
  | Ok (v, rest) =>
      0 <= v < 2 ^ 28 /\ exists k, (1 <= k <= 4)%nat /\ rest = drop k r
  | Err e => e = io_EOF /\ (length r < 4)%nat
  | Panic => False
  end.
Proof.
  unfold utp.decodeLength.
  pose proof (utp.decodeLoop_reads 5 0 0 r eq_refl ltac:(lia) ltac:(cbn; lia)) as H.
  change (7 * Z.of_nat 0) with 0 in H.
  destruct (utp.decodeLoop 5 0 0 r) as [[v rest]|e|]; [| |done].
  - destruct H as (Hv & k & Hk & Hk1 & ->). split; [done|].
    exists k. split; [|done]. destruct Hk1 as [?|?]; lia.
  - destruct H as [-> Hlen]. split; [done|]. lia.
Qed.
